(** * DoQui dashboard front end (src/app.js): a shallow embedding

    The page script keeps its whole state in module-level bindings
    ([ws], [state], [planets], [sunRadius], [targetSunRadius], [sunPulse],
    [animationSpeed]) and in a handful of DOM elements, and changes them
    from callbacks the browser runs one at a time.  The embedding threads
    one record, [World], through those callbacks.

    Numbers.  A JavaScript number is an IEEE-754 binary64 value.  The
    world the callbacks share is modelled in exact arithmetic: its numbers
    are rationals ([Q]), [Math.max], [Math.min] and [Math.round] are the
    exact functions, and rounding error, infinities and NaN are left out.
    What [parseInt] returns and what a template literal prints are whole
    doubles and are modelled as such ([Num]).  The module [Binary64] at
    the end of the definitions has the numeric kernels and the two colour
    helpers on binary64 itself (Rocq's primitive floats).

    Messages.  [handleMessage] receives what [JSON.parse] returned; the
    embedding takes the five message shapes of the protocol with fields
    of the documented types, and one more constructor for any other
    [type] tag. *)

From Stdlib Require Import QArith Qminmax Qround Qabs Qpower ZArith.
From Stdlib Require Import List String Ascii Bool DecimalString Sorted.
From Stdlib Require Import Lia Lqa Floats.
Import ListNotations.

Open Scope Z_scope.
Open Scope Q_scope.
Open Scope string_scope.

(** ** Numbers *)

(** [Math.max] and [Math.min] of two numbers. *)
Definition Math_max (a b : Q) : Q := Qmax a b.
Definition Math_min (a b : Q) : Q := Qmin a b.

(** [Math.round]: the nearest integer, a tie going towards +infinity. *)
Definition Math_round (x : Q) : Z := Qfloor (x + (1 # 2)).

(** [Math.PI] is the binary64 number 0x1.921FB54442D18p+1, written here as
    the fraction it is. *)
Definition Math_PI : Q := 884279719003555 # 281474976710656.

(** *** Whole numbers as doubles *)

(** NaN, an infinity, or a whole number that is a double.  There is no
    -0 here: [parseInt] and the sums below never return it for the
    operands this script has, and it prints as 0. *)
Inductive Num :=
| not_a_number
| infinite (negative : bool)
| finite (z : Z).

(** The double nearest to a whole number, a tie going to the even
    mantissa: below 2^53 the number itself; from there on the top 53
    bits, rounded; an infinity from 2^1024 on. *)
Definition double_of_Z (z : Z) : Num :=
  let a := Z.abs z in
  if (a <? 2 ^ 53)%Z then finite z
  else
    let k := (Z.log2 a - 52)%Z in
    let q := Z.shiftr a k in
    let r := Z.land a (Z.ones k) in
    let half := (2 ^ (k - 1))%Z in
    let q' := if (half <? r)%Z || ((r =? half)%Z && Z.odd q)
              then (q + 1)%Z else q in
    let v := (q' * 2 ^ k)%Z in
    if (2 ^ 1024 <=? v)%Z then infinite (z <? 0)%Z
    else finite (Z.sgn z * v)%Z.

Definition negate (n : Num) : Num :=
  match n with
  | not_a_number => not_a_number
  | infinite b => infinite (negb b)
  | finite z => finite (- z)%Z
  end.

(** [+] and [-] on whole doubles: the double nearest to the exact sum. *)
Definition Num_add (a b : Num) : Num :=
  match a, b with
  | not_a_number, _ | _, not_a_number => not_a_number
  | infinite s, infinite s' => if Bool.eqb s s' then a else not_a_number
  | infinite _, finite _ => a
  | finite _, infinite _ => b
  | finite x, finite y => double_of_Z (x + y)
  end.

Definition Num_sub (a b : Num) : Num := Num_add a (negate b).

(** [Math.min] and [Math.max] on whole doubles: NaN if either is. *)
Definition Num_min (a b : Num) : Num :=
  match a, b with
  | not_a_number, _ | _, not_a_number => not_a_number
  | infinite true, _ | _, infinite true => infinite true
  | infinite false, x | x, infinite false => x
  | finite x, finite y => finite (Z.min x y)
  end.

Definition Num_max (a b : Num) : Num :=
  match a, b with
  | not_a_number, _ | _, not_a_number => not_a_number
  | infinite false, _ | _, infinite false => infinite false
  | infinite true, x | x, infinite true => x
  | finite x, finite y => finite (Z.max x y)
  end.

(** The decimal digits of a whole number that is not negative. *)
Definition digits (n : Z) : string :=
  NilZero.string_of_uint (N.to_uint (Z.to_N n)).

(** Does the decimal [c] read back as the double [v]? *)
Definition reads_as (v c : Z) : bool :=
  match double_of_Z c with
  | finite z => (z =? v)%Z
  | _ => false
  end.

(** The decimal of [k] significant digits that reads back as [v], if
    there is one: the multiple of 10^(n-k) just below [v] or the one
    just above, the closer of the two, the even one at a tie. *)
Definition shortest_at (v : Z) (k : nat) : option Z :=
  let p := (10 ^ Z.of_nat (String.length (digits v) - k))%Z in
  let s := (v / p)%Z in
  let lo := (s * p)%Z in
  let hi := (lo + p)%Z in
  match reads_as v lo, reads_as v hi with
  | true, true =>
      Some (if (v - lo <? hi - v)%Z then lo
            else if (hi - v <? v - lo)%Z then hi
            else if Z.even s then lo else hi)
  | true, false => Some lo
  | false, true => Some hi
  | false, false => None
  end.

(** The decimal with the fewest significant digits that reads back as
    [v], trying [k], [k] + 1, ... digits. *)
Fixpoint shortest (v : Z) (k fuel : nat) : Z :=
  match fuel with
  | O => v
  | S f =>
      match shortest_at v k with
      | Some c => c
      | None => shortest v (S k) f
      end
  end.

Fixpoint strip_zeros (fuel : nat) (c : Z) : Z :=
  match fuel with
  | O => c
  | S f => if (c mod 10 =? 0)%Z then strip_zeros f (c / 10)%Z else c
  end.

(** A positive whole double as the language prints it: its shortest
    decimal, written out in full up to 21 digits and with an exponent
    from there on. *)
Definition unsigned_toString (v : Z) : string :=
  if (v =? 0)%Z then "0"
  else
    let c := shortest v 1 (String.length (digits v)) in
    let n := String.length (digits c) in
    if (n <=? 21)%nat then digits c
    else
      match digits (strip_zeros n c) with
      | String d EmptyString => String d ("e+" ++ digits (Z.of_nat (n - 1)))
      | String d rest =>
          String d ("." ++ rest ++ "e+" ++ digits (Z.of_nat (n - 1)))
      | EmptyString => EmptyString
      end.

Definition Num_toString (n : Num) : string :=
  match n with
  | not_a_number => "NaN"
  | infinite false => "Infinity"
  | infinite true => "-Infinity"
  | finite z =>
      if (z <? 0)%Z then "-" ++ unsigned_toString (- z)
      else unsigned_toString z
  end.

(** A number inside a template literal; the numbers printed by this
    script are whole. *)
Definition Number_toString (n : Z) : string := Num_toString (double_of_Z n).

(** ** The [state] object and the planets *)

Record State := mkState {
  running : bool;
  speakerVerified : bool;
  speakerScore : Q;
  audioLevel : Q;
  vadSpeaking : bool
}.

Record Planet := mkPlanet {
  name : string;
  radius : Q;
  speed : Q;
  size : Q;
  color : string;
  hasRings : bool;
  angle : Q
}.

Definition set_angle (p : Planet) (a : Q) : Planet :=
  mkPlanet (name p) (radius p) (speed p) (size p) (color p) (hasRings p) a.

(** The literal of lines 26-35. *)
Definition initial_planets : list Planet :=
  [ mkPlanet "Mercury" 45 0.04 3 "#b5b5b5" false 0;
    mkPlanet "Venus" 65 0.03 5 "#e6c87a" false (Math_PI / 4);
    mkPlanet "Earth" 85 0.025 5 "#6b93d6" false (Math_PI / 2);
    mkPlanet "Mars" 105 0.02 4 "#c1440e" false (Math_PI * 0.75);
    mkPlanet "Jupiter" 130 0.012 12 "#d8ca9d" false Math_PI;
    mkPlanet "Saturn" 155 0.009 10 "#f4d59e" true (Math_PI * 1.25);
    mkPlanet "Uranus" 175 0.006 7 "#d1e7e7" false (Math_PI * 1.5);
    mkPlanet "Neptune" 192 0.004 6 "#5b5ddf" false (Math_PI * 1.75) ].

(** ** Colour helpers (lines 214-231) *)

Module ColorBlend.

(** [s.replace('#', '')]: the first '#' is dropped, later ones stay. *)
Fixpoint replace_hash (s : string) : string :=
  match s with
  | EmptyString => EmptyString
  | String c rest =>
      if Ascii.eqb c "#" then rest else String c (replace_hash rest)
  end.

Definition hex_digit (c : ascii) : option Z :=
  let n := Z.of_nat (nat_of_ascii c) in
  if (48 <=? n)%Z && (n <=? 57)%Z then Some (n - 48)%Z
  else if (97 <=? n)%Z && (n <=? 102)%Z then Some (n - 87)%Z
  else if (65 <=? n)%Z && (n <=? 70)%Z then Some (n - 55)%Z
  else None.

(** The digits read so far are [acc]; reading stops at the first
    character that is no hexadecimal digit. *)
Fixpoint hex_digits (s : string) (acc : Z) : Z :=
  match s with
  | EmptyString => acc
  | String c rest =>
      match hex_digit c with
      | Some d => hex_digits rest (acc * 16 + d)%Z
      | None => acc
      end
  end.

(** White space as [parseInt] trims it: the characters of the language's
    WhiteSpace and LineTerminator productions.  A string here is the
    UTF-8 encoding of the JavaScript string, so the characters past
    U+007F are two or three bytes: U+00A0; U+1680; U+2000 to U+200A,
    U+2028, U+2029, U+202F; U+205F; U+3000; U+FEFF. *)
Definition is_space (c : ascii) : bool :=
  let n := nat_of_ascii c in
  ((9 <=? n)%nat && (n <=? 13)%nat) || (n =? 32)%nat.

Definition is_lead (c : ascii) : bool :=
  let n := nat_of_ascii c in
  (n =? 194)%nat || (n =? 225)%nat || (n =? 226)%nat || (n =? 227)%nat
  || (n =? 239)%nat.

Definition two_byte_space (c1 c2 : ascii) : bool :=
  (nat_of_ascii c1 =? 194)%nat && (nat_of_ascii c2 =? 160)%nat.

Definition three_byte_space (c1 c2 c3 : ascii) : bool :=
  let n1 := nat_of_ascii c1 in
  let n2 := nat_of_ascii c2 in
  let n3 := nat_of_ascii c3 in
  ((n1 =? 225)%nat && (n2 =? 154)%nat && (n3 =? 128)%nat)
  || ((n1 =? 226)%nat && (n2 =? 128)%nat
      && (((128 <=? n3)%nat && (n3 <=? 138)%nat)
          || (n3 =? 168)%nat || (n3 =? 169)%nat || (n3 =? 175)%nat))
  || ((n1 =? 226)%nat && (n2 =? 129)%nat && (n3 =? 159)%nat)
  || ((n1 =? 227)%nat && (n2 =? 128)%nat && (n3 =? 128)%nat)
  || ((n1 =? 239)%nat && (n2 =? 187)%nat && (n3 =? 191)%nat).

Fixpoint skip_spaces (s : string) : string :=
  match s with
  | EmptyString => s
  | String c1 r1 =>
      if is_space c1 then skip_spaces r1
      else if is_lead c1 then
        match r1 with
        | String c2 r2 =>
            if two_byte_space c1 c2 then skip_spaces r2
            else
              match r2 with
              | String c3 r3 =>
                  if three_byte_space c1 c2 c3 then skip_spaces r3 else s
              | EmptyString => s
              end
        | EmptyString => s
        end
      else s
  end.

Definition strip_0x (s : string) : string :=
  match s with
  | String "0" (String "x" rest) => rest
  | String "0" (String "X" rest) => rest
  | _ => s
  end.

Definition unsigned_hex (s : string) : Num :=
  match strip_0x s with
  | EmptyString => not_a_number
  | String c _ as body =>
      match hex_digit c with
      | Some _ => double_of_Z (hex_digits body 0%Z)
      | None => not_a_number
      end
  end.

(** [parseInt(s, 16)]: leading white space, a sign, an optional [0x], then
    the longest run of hexadecimal digits, read exactly and then made a
    double; NaN when there is no digit. *)
Definition parseInt16 (s : string) : Num :=
  match skip_spaces s with
  | String "-" rest => negate (unsigned_hex rest)
  | String "+" rest => unsigned_hex rest
  | body => unsigned_hex body
  end.

(** ToInt32, the conversion [>>] and [&] apply to their operands: the
    value modulo 2^32, read as a signed 32-bit integer; NaN and the
    infinities become 0. *)
Definition ToInt32 (n : Num) : Z :=
  match n with
  | finite z => ((z + 2147483648) mod 4294967296 - 2147483648)%Z
  | _ => 0%Z
  end.

Definition sar (n : Num) (k : Z) : Z := Z.shiftr (ToInt32 n) k.
Definition band (n : Z) (mask : Z) : Z := Z.land n mask.

Definition rgb (R G B : Z) : string :=
  "rgb(" ++ Number_toString R ++ ", " ++ Number_toString G ++ ", "
    ++ Number_toString B ++ ")".

(** The two helpers with [percent] and [amt] in exact arithmetic;
    [Binary64.lightenColor] and [Binary64.darkenColor] below are the
    same lines on doubles. *)
Definition lightenColor (color : string) (percent : Q) : string :=
  let num := parseInt16 (replace_hash color) in
  let amt := Math_round (2.55 * percent) in
  let R := Z.min 255 (sar num 16 + amt) in
  let G := Z.min 255 (band (sar num 8) 255 + amt) in
  let B := Z.min 255 (band (ToInt32 num) 255 + amt) in
  rgb R G B.

Definition darkenColor (color : string) (percent : Q) : string :=
  let num := parseInt16 (replace_hash color) in
  let amt := Math_round (2.55 * percent) in
  let R := Z.max 0 (sar num 16 - amt) in
  let G := Z.max 0 (band (sar num 8) 255 - amt) in
  let B := Z.max 0 (band (ToInt32 num) 255 - amt) in
  rgb R G B.

End ColorBlend.

(** ** The page elements the script writes to

    One field per property the script assigns: [textContent], [className]
    or [style.width] of the elements it looks up by id (and, inside the
    toggle button and the speaker badge, by class). *)

Record Dom := mkDom {
  agent_status_text : string;
  agent_status_class : string;
  toggle_btn_class : string;
  btn_icon_text : string;
  btn_text_text : string;
  speaker_badge_class : string;
  badge_icon_text : string;
  badge_text_text : string;
  score_fill_width : string;
  score_value_text : string;
  vad_indicator_class : string;
  vad_text_text : string;
  connection_status_class : string;
  connection_text_text : string
}.

Definition updateAgentStatus (st : State) (d : Dom) : Dom :=
  if running st then
    mkDom "Online" "status-badge online" "toggle-btn running" "⏹" "Stop Agent"
      (speaker_badge_class d) (badge_icon_text d) (badge_text_text d)
      (score_fill_width d) (score_value_text d)
      (vad_indicator_class d) (vad_text_text d)
      (connection_status_class d) (connection_text_text d)
  else
    mkDom "Offline" "status-badge offline" "toggle-btn" "▶" "Start Agent"
      (speaker_badge_class d) (badge_icon_text d) (badge_text_text d)
      (score_fill_width d) (score_value_text d)
      (vad_indicator_class d) (vad_text_text d)
      (connection_status_class d) (connection_text_text d).

(** Lines 326-352; [percent] is the exact rounding of the exact product
    (on doubles the product is rounded first: [Binary64.score_percent]). *)
Definition updateSpeakerStatus (st : State) (d : Dom) : Dom :=
  let score := speakerScore st in
  let percent := Math_round (score * 100) in
  let width := Number_toString percent ++ "%" in
  let badge :=
    if negb (running st) then ("speaker-badge unknown", "❓", "Waiting...")
    else if speakerVerified st then ("speaker-badge verified", "✅", "Verified")
    else ("speaker-badge locked", "🔒", "Locked") in
  mkDom (agent_status_text d) (agent_status_class d) (toggle_btn_class d)
    (btn_icon_text d) (btn_text_text d)
    (fst (fst badge)) (snd (fst badge)) (snd badge)
    width width
    (vad_indicator_class d) (vad_text_text d)
    (connection_status_class d) (connection_text_text d).

Definition updateVADStatus (st : State) (d : Dom) : Dom :=
  let vad :=
    if vadSpeaking st then ("vad-indicator speaking", "Speaking...")
    else ("vad-indicator silent", "Silent") in
  mkDom (agent_status_text d) (agent_status_class d) (toggle_btn_class d)
    (btn_icon_text d) (btn_text_text d)
    (speaker_badge_class d) (badge_icon_text d) (badge_text_text d)
    (score_fill_width d) (score_value_text d)
    (fst vad) (snd vad)
    (connection_status_class d) (connection_text_text d).

Definition updateConnectionStatus (connected : bool) (d : Dom) : Dom :=
  let conn :=
    if connected then ("connection-dot connected", "Connected")
    else ("connection-dot disconnected", "Disconnected") in
  mkDom (agent_status_text d) (agent_status_class d) (toggle_btn_class d)
    (btn_icon_text d) (btn_text_text d)
    (speaker_badge_class d) (badge_icon_text d) (badge_text_text d)
    (score_fill_width d) (score_value_text d)
    (vad_indicator_class d) (vad_text_text d)
    (fst conn) (snd conn).

Definition updateUI (st : State) (d : Dom) : Dom :=
  updateVADStatus st (updateSpeakerStatus st (updateAgentStatus st d)).

(** ** Sockets, timers, the console *)

Inductive ReadyState := CONNECTING | OPEN | CLOSING | CLOSED.

Definition is_open (r : ReadyState) : bool :=
  match r with OPEN => true | _ => false end.

(** A [WebSocket] object: where it points, its [readyState], and the
    frames handed to its [send]. *)
Record WebSocket := mkWebSocket {
  url : string;
  readyState : ReadyState;
  sent : list string
}.

Inductive LogEntry :=
| console_log (text : string)
| console_error (text : string).

(** The one function the script passes to [setTimeout]. *)
Inductive Callback := cb_connect.

Record Timer := mkTimer {
  due : Z;
  callback : Callback
}.

(** The commands [toggleAgent] sends, and [JSON.stringify] of them. *)
Inductive Command := cmd_start | cmd_stop.

Definition dquote : string := String "034"%char EmptyString.

Definition JSON_stringify (c : Command) : string :=
  let tag := match c with cmd_start => "start" | cmd_stop => "stop" end in
  "{" ++ dquote ++ "type" ++ dquote ++ ":" ++ dquote ++ tag ++ dquote ++ "}".

(** ** The world

    [ws] is the module-level binding: [None] is [null], [Some i] is the
    [i]-th socket the script created, kept in [sockets].  [host] is
    [window.location.host]; [now] is the clock of the timer queue, in
    milliseconds; [rafPending] says that [requestAnimationFrame] holds a
    callback. *)

Record World := mkWorld {
  host : string;
  ws : option nat;
  sockets : list WebSocket;
  state : State;
  planets : list Planet;
  sunRadius : Q;
  targetSunRadius : Q;
  sunPulse : Q;
  animationSpeed : Q;
  dom : Dom;
  console : list LogEntry;
  now : Z;
  timers : list Timer;
  rafPending : bool
}.

Definition set_ws (w : World) (i : option nat) (l : list WebSocket) : World :=
  mkWorld (host w) i l (state w) (planets w) (sunRadius w)
    (targetSunRadius w) (sunPulse w) (animationSpeed w) (dom w) (console w)
    (now w) (timers w) (rafPending w).

Definition set_state (w : World) (st : State) : World :=
  mkWorld (host w) (ws w) (sockets w) st (planets w) (sunRadius w)
    (targetSunRadius w) (sunPulse w) (animationSpeed w) (dom w) (console w)
    (now w) (timers w) (rafPending w).

Definition set_dom (w : World) (d : Dom) : World :=
  mkWorld (host w) (ws w) (sockets w) (state w) (planets w) (sunRadius w)
    (targetSunRadius w) (sunPulse w) (animationSpeed w) d (console w)
    (now w) (timers w) (rafPending w).

Definition set_audio (w : World) (speed target : Q) : World :=
  mkWorld (host w) (ws w) (sockets w) (state w) (planets w) (sunRadius w)
    target (sunPulse w) speed (dom w) (console w)
    (now w) (timers w) (rafPending w).

Definition set_console (w : World) (c : list LogEntry) : World :=
  mkWorld (host w) (ws w) (sockets w) (state w) (planets w) (sunRadius w)
    (targetSunRadius w) (sunPulse w) (animationSpeed w) (dom w) c
    (now w) (timers w) (rafPending w).

Definition set_clock (w : World) (t : Z) (l : list Timer) : World :=
  mkWorld (host w) (ws w) (sockets w) (state w) (planets w) (sunRadius w)
    (targetSunRadius w) (sunPulse w) (animationSpeed w) (dom w) (console w)
    t l (rafPending w).

Definition log (e : LogEntry) (w : World) : World :=
  set_console w (console w ++ [e])%list.

Definition setTimeout (cb : Callback) (delay : Z) (w : World) : World :=
  set_clock w (now w) (timers w ++ [mkTimer (now w + delay)%Z cb])%list.

(** ** Inbound messages and [handleMessage] (lines 263-295) *)

Inductive Message :=
| state_msg (running speaker_verified : bool) (speaker_score : Q)
    (vad_speaking : bool)
| status_msg (running : bool)
| speaker_msg (verified : bool) (score : Q)
| vad_msg (speaking : bool)
| audio_msg (level : Q)
| other_msg (type : string).

Definition handleMessage (msg : Message) (w : World) : World :=
  match msg with
  | state_msg r sv ss vs =>
      let st := mkState r sv ss (audioLevel (state w)) vs in
      set_dom (set_state w st) (updateUI st (dom w))
  | status_msg r =>
      let st := mkState r (speakerVerified (state w)) (speakerScore (state w))
                  (audioLevel (state w)) (vadSpeaking (state w)) in
      set_dom (set_state w st) (updateAgentStatus st (dom w))
  | speaker_msg v sc =>
      let st := mkState (running (state w)) v sc (audioLevel (state w))
                  (vadSpeaking (state w)) in
      set_dom (set_state w st) (updateSpeakerStatus st (dom w))
  | vad_msg sp =>
      let st := mkState (running (state w)) (speakerVerified (state w))
                  (speakerScore (state w)) (audioLevel (state w)) sp in
      set_dom (set_state w st) (updateVADStatus st (dom w))
  | audio_msg level =>
      set_audio w
        (Math_max 0.5 (Math_min 3 ((level + 80) / 20)))
        (15 + Math_max 0 ((level + 60) / 3))
  | other_msg _ => w
  end.

(** ** The connection (lines 238-261) and the control (lines 382-393) *)

(** [connect] makes a socket and binds [ws] to it.  The four handlers it
    installs are the same closures for every socket and name no socket;
    they are the functions [ws_onopen], [ws_onclose], [ws_onerror] and
    [ws_onmessage] below, which [step] runs. *)
Definition connect (w : World) : World :=
  let wsUrl := "ws://" ++ host w ++ "/ws" in
  set_ws w (Some (List.length (sockets w)))
    (sockets w ++ [mkWebSocket wsUrl CONNECTING []])%list.

Definition ws_onopen (w : World) : World :=
  let w1 := log (console_log "WebSocket connected") w in
  set_dom w1 (updateConnectionStatus true (dom w1)).

Definition ws_onclose (w : World) : World :=
  let w1 := log (console_log "WebSocket disconnected") w in
  let w2 := set_dom w1 (updateConnectionStatus false (dom w1)) in
  setTimeout cb_connect 2000 w2.

Definition ws_onerror (w : World) : World :=
  log (console_error "WebSocket error:") w.

Definition ws_onmessage (msg : Message) (w : World) : World :=
  handleMessage msg w.

Fixpoint set_nth {A : Type} (i : nat) (x : A) (l : list A) : list A :=
  match l, i with
  | [], _ => []
  | _ :: rest, O => x :: rest
  | y :: rest, S j => y :: set_nth j x rest
  end.

(** [ws.send(data)] on the socket behind [ws]. *)
Definition ws_send (i : nat) (s : WebSocket) (data : string) (w : World)
  : World :=
  set_ws w (ws w)
    (set_nth i (mkWebSocket (url s) (readyState s) (sent s ++ [data])%list)
       (sockets w)).

(** The socket [ws] is bound to, if any. *)
Definition current_socket (w : World) : option (nat * WebSocket) :=
  match ws w with
  | None => None
  | Some i =>
      match nth_error (sockets w) i with
      | Some s => Some (i, s)
      | None => None
      end
  end.

Definition connection_open (w : World) : bool :=
  match current_socket w with
  | Some (_, s) => is_open (readyState s)
  | None => false
  end.

Definition toggleAgent (w : World) : World :=
  match current_socket w with
  | Some (i, s) =>
      if is_open (readyState s) then
        if running (state w) then ws_send i s (JSON_stringify cmd_stop) w
        else ws_send i s (JSON_stringify cmd_start) w
      else log (console_error "WebSocket not connected") w
  | None => log (console_error "WebSocket not connected") w
  end.

(** ** The frame (lines 44-212)

    [drawSolarSystem] paints and updates three things: [sunRadius],
    [sunPulse] and every planet's [angle]; it ends by handing itself to
    [requestAnimationFrame].  Of the picture, the embedding keeps the
    colour stops of the sun's glow and corona, which are chosen from
    [state]; positions and radii (through [Math.sin] and [Math.cos]) and
    the random background star write nothing the script reads back.

    The drawing calls are taken to return.  On doubles
    [createRadialGradient] throws when a radius is not finite, which
    ends the frame before line 211 and with it the loop; a radius of the
    exact model is always a number, so the frame here runs to its end,
    and nothing below is claimed about a loop that was ended that way. *)

Definition speedMultiplier (w : World) : Q :=
  if vadSpeaking (state w) then 3
  else if running (state w) then animationSpeed w else 0.3.

Definition advance (m : Q) (p : Planet) : Planet :=
  set_angle p (angle p + speed p * m).

Definition drawSolarSystem (w : World) : World :=
  mkWorld (host w) (ws w) (sockets w) (state w)
    (map (advance (speedMultiplier w)) (planets w))
    (sunRadius w + (targetSunRadius w - sunRadius w) * 0.1)
    (targetSunRadius w)
    (sunPulse w + 0.05)
    (animationSpeed w) (dom w) (console w) (now w) (timers w) true.

Inductive CssColor :=
| rgba (r g b : Z) (a : Q)
| transparent
| hex (code : string).

Definition ColorStop : Type := Q * CssColor.

(** The stops of glow layer [i] (lines 81-100). *)
Definition glowGradient (st : State) (i : Q) : list ColorStop :=
  if vadSpeaking st then
    [ (0, rgba 255 215 0 (0.3 / i));
      (0.5, rgba 255 165 0 (0.2 / i));
      (1, transparent) ]
  else if speakerVerified st then
    [ (0, rgba 255 230 100 (0.25 / i));
      (0.5, rgba 100 255 150 (0.15 / i));
      (1, transparent) ]
  else if running st then
    [ (0, rgba 255 200 50 (0.2 / i));
      (0.5, rgba 255 150 0 (0.1 / i));
      (1, transparent) ]
  else
    [ (0, rgba 150 120 50 (0.1 / i));
      (1, transparent) ].

(** The five layers, outermost first: [for (let i = 5; i >= 1; i--)]. *)
Definition glowLayers (st : State) : list (list ColorStop) :=
  map (glowGradient st) [5; 4; 3; 2; 1].


(** The three stops of a planet's body (lines 195-197). *)
Definition planetBody (p : Planet) : list (Q * string) :=
  [ (0, ColorBlend.lightenColor (color p) 40);
    (0.7, color p);
    (1, ColorBlend.darkenColor (color p) 30) ].

(** ** The event loop

    The browser runs one callback at a time.  An [Event] is one such
    run; [step] first does what the browser does to the socket or the
    timer queue (a socket opens once, from [CONNECTING]; it closes once;
    it delivers messages only while [OPEN]; a timer fires when it is due
    and is then gone), then runs the handler the script installed.
    [ev_closing] is the start of the closing handshake, when the server
    asks to close an open socket: the browser sets [readyState] to
    [CLOSING] and runs no handler, the close event coming later. *)

Inductive Event :=
| ev_DOMContentLoaded
| ev_frame
| ev_toggle
| ev_open (i : nat)
| ev_close (i : nat)
| ev_error (i : nat)
| ev_message (i : nat) (msg : Message)
| ev_tick (dt : Z)
| ev_timer
| ev_closing (i : nat).

Definition set_readyState (i : nat) (r : ReadyState) (w : World) : World :=
  match nth_error (sockets w) i with
  | Some s => set_ws w (ws w) (set_nth i (mkWebSocket (url s) r (sent s)) (sockets w))
  | None => w
  end.

Definition socket_state (i : nat) (w : World) : option ReadyState :=
  option_map readyState (nth_error (sockets w) i).

(** The first timer that is due at time [t], and the queue without it. *)
Fixpoint pop_due (t : Z) (l : list Timer) : option (Timer * list Timer) :=
  match l with
  | [] => None
  | x :: rest =>
      if (due x <=? t)%Z then Some (x, rest)
      else
        match pop_due t rest with
        | Some (y, rest') => Some (y, x :: rest')
        | None => None
        end
  end.

Definition run_callback (cb : Callback) (w : World) : World :=
  match cb with cb_connect => connect w end.

Definition clear_raf (w : World) : World :=
  mkWorld (host w) (ws w) (sockets w) (state w) (planets w) (sunRadius w)
    (targetSunRadius w) (sunPulse w) (animationSpeed w) (dom w) (console w)
    (now w) (timers w) false.

Definition step (e : Event) (w : World) : World :=
  match e with
  | ev_DOMContentLoaded => connect w
  | ev_frame => if rafPending w then drawSolarSystem (clear_raf w) else w
  | ev_toggle => toggleAgent w
  | ev_open i =>
      match socket_state i w with
      | Some CONNECTING => ws_onopen (set_readyState i OPEN w)
      | _ => w
      end
  | ev_close i =>
      match socket_state i w with
      | Some CLOSED | None => w
      | Some _ => ws_onclose (set_readyState i CLOSED w)
      end
  | ev_error i =>
      match socket_state i w with
      | Some _ => ws_onerror w
      | None => w
      end
  | ev_message i msg =>
      match socket_state i w with
      | Some OPEN => ws_onmessage msg w
      | _ => w
      end
  | ev_tick dt => if (0 <=? dt)%Z then set_clock w (now w + dt)%Z (timers w) else w
  | ev_timer =>
      match pop_due (now w) (timers w) with
      | Some (t, rest) => run_callback (callback t) (set_clock w (now w) rest)
      | None => w
      end
  | ev_closing i =>
      match socket_state i w with
      | Some OPEN => set_readyState i CLOSING w
      | _ => w
      end
  end.

Definition run (es : list Event) (w : World) : World :=
  fold_left (fun acc e => step e acc) es w.

(** The bindings as the script's top level leaves them: the literals of
    lines 12-19 and 37-42, then the call [drawSolarSystem()] of line 234.
    [h] is the page's host and [d] the page's elements as the markup has
    them. *)
Definition boot (h : string) (d : Dom) : World :=
  mkWorld h None [] (mkState false false 0 (-80) false) initial_planets
    18 18 0 1 d [] 0%Z [] false.

Definition loaded (h : string) (d : Dom) : World := drawSolarSystem (boot h d).

Inductive reachable (h : string) (d : Dom) : World -> Prop :=
| reach_loaded : reachable h d (loaded h d)
| reach_step (e : Event) (w : World) :
    reachable h d w -> reachable h d (step e w).

(** [n] frames in a row. *)
Fixpoint frames (n : nat) (w : World) : World :=
  match n with
  | O => w
  | S k => frames k (drawSolarSystem w)
  end.

(** Markup with nothing in it, for concrete runs. *)
Definition blank : Dom :=
  mkDom EmptyString EmptyString EmptyString EmptyString EmptyString
    EmptyString EmptyString EmptyString EmptyString EmptyString
    EmptyString EmptyString EmptyString EmptyString.

(** ** The numeric kernels on binary64

    The same expressions on IEEE-754 doubles, for running them at given
    inputs.  [Math_max] and [Math_min] return NaN when an argument is NaN
    and tell -0 from +0, as the language defines them; [Math_round] goes
    through the exact value of its argument. *)

Module Binary64.

#[local] Set Warnings "-inexact-float".
Local Open Scope float_scope.

Definition Math_max (a b : float) : float :=
  if PrimFloat.is_nan a || PrimFloat.is_nan b then nan
  else if a <? b then b
  else if b <? a then a
  else if PrimFloat.get_sign a then b else a.

Definition Math_min (a b : float) : float :=
  if PrimFloat.is_nan a || PrimFloat.is_nan b then nan
  else if a <? b then a
  else if b <? a then b
  else if PrimFloat.get_sign a then a else b.

Definition of_Z (z : Z) : float :=
  match z with
  | Z0 => 0
  | Zpos _ => PrimFloat.of_uint63 (Uint63.of_Z z)
  | Zneg p => - PrimFloat.of_uint63 (Uint63.of_Z (Zpos p))
  end.

Definition Math_round (x : float) : float :=
  match Prim2SF x with
  | S754_finite s m e =>
      if (0 <=? e)%Z then x
      else
        let k := (- e)%Z in
        let n := if s then Zneg m else Zpos m in
        let r := Z.shiftr (2 * n + 2 ^ k) (k + 1) in
        if (r =? 0)%Z then (if s then -0 else 0) else of_Z r
  | _ => x
  end.

(** Line 291 and line 292. *)
Definition audio_speed (level : float) : float :=
  Math_max 0.5 (Math_min 3 ((level + 80) / 20)).

Definition audio_target (level : float) : float :=
  15 + Math_max 0 ((level + 60) / 3).

(** Line 58, and [n] frames of it with the target held. *)
Definition smooth (target sunRadius : float) : float :=
  sunRadius + (target - sunRadius) * 0.1.

Fixpoint smooth_n (n : nat) (target sunRadius : float) : float :=
  match n with
  | O => sunRadius
  | S k => smooth_n k target (smooth target sunRadius)
  end.

(** Line 334, and line 217 (the same as line 226). *)
Definition score_percent (score : float) : float := Math_round (score * 100).
Definition amt (percent : float) : float := Math_round (2.55 * percent).

(** *** Doubles as numbers

    What the statements about line 58 on doubles are written with: the
    fraction a finite double is, and how far a rounded result may lie
    from the exact one. *)

Definition bpow (e : Z) : Q := (2 ^ e)%Q.

Definition sign (s : bool) : Q := (if s then -1 else 1)%Q.

(** The number a finite double is; 0 for the rest. *)
Definition SF2Q (x : spec_float) : Q :=
  match x with
  | S754_finite s m e => (sign s * (inject_Z (Z.pos m) * bpow e))%Q
  | _ => 0%Q
  end.

Definition SF_finite (x : spec_float) : bool :=
  match x with
  | S754_zero _ | S754_finite _ _ _ => true
  | _ => false
  end.

Definition value (x : float) : Q := SF2Q (Prim2SF x).
Definition is_finite (x : float) : bool := SF_finite (Prim2SF x).

(** [close v x]: [v] is [x] rounded, give or take two units in the
    last place of [v], or 2^-1073 where [v] is that small. *)
Definition close (v exact : Q) : Prop :=
  (Qabs (v - exact) <= bpow (-51) * Qabs v + bpow (-1073))%Q.

(** [r] is what rounding [exact] gave: never NaN; close to it when
    finite; finite when [exact] is below 2^971. *)
Definition rounds_to (r : spec_float) (exact : Q) : Prop :=
  r <> S754_nan /\
  (valid_binary r = true -> SF_finite r = true -> close (SF2Q r) exact) /\
  ((Qabs exact < bpow 971)%Q -> SF_finite r = true).

(** [z] is the double an operation returned and [exact] what exact
    arithmetic gives for it. *)
Definition op_close (z : float) (exact : Q) : Prop :=
  (is_finite z = true -> close (value z) exact) /\
  ((Qabs exact < bpow 971)%Q -> is_finite z = true).

(** The constants of the analysis of line 58: 2^-51; the double 0.1 as
    a fraction (it is a little more than a tenth); what a frame leaves
    of the distance, at most; 2^-1073. *)
Definition roundoff : Q := (1 # 2251799813685248)%Q.
Definition tenth : Q := (3602879701896397 # 36028797018963968)%Q.
Definition shrink : Q := (9000001 # 10000000)%Q.
Definition tiny : Q := bpow (-1073).

Fixpoint shrink_pow (n : nat) : Q :=
  match n with
  | O => 1%Q
  | S k => (shrink * shrink_pow k)%Q
  end.

(** [Math.round] once more, its result read as a whole number: what it
    returns is always a whole double, an infinity or NaN. *)
Definition Math_round_Num (x : float) : Num :=
  match Prim2SF x with
  | S754_zero _ => finite 0
  | S754_infinity s => infinite s
  | S754_nan => not_a_number
  | S754_finite s m e =>
      let n := if s then Zneg m else Zpos m in
      if (0 <=? e)%Z then finite (n * 2 ^ e)
      else finite (Z.shiftr (2 * n + 2 ^ (- e)) (- e + 1))
  end.

(** Lines 334-337 on doubles: the text given to the bar's width and to
    the score beside it. *)
Definition score_text (score : float) : string :=
  (Num_toString (Math_round_Num (score * 100)) ++ "%")%string.

(** Lines 215-231 on doubles.  [num >> 16] and the like are 32-bit
    integers; [amt] is a whole double; their sum or difference is the
    double nearest to the exact one. *)
Definition rgb (R G B : Num) : string :=
  ("rgb(" ++ Num_toString R ++ ", " ++ Num_toString G ++ ", "
     ++ Num_toString B ++ ")")%string.

Definition lightenColor (color : string) (percent : float) : string :=
  let num := ColorBlend.parseInt16 (ColorBlend.replace_hash color) in
  let amt := Math_round_Num (2.55 * percent) in
  let R := Num_min (finite 255) (Num_add (finite (ColorBlend.sar num 16)) amt) in
  let G := Num_min (finite 255)
             (Num_add (finite (ColorBlend.band (ColorBlend.sar num 8) 255))
                amt) in
  let B := Num_min (finite 255)
             (Num_add (finite (ColorBlend.band (ColorBlend.ToInt32 num) 255))
                amt) in
  rgb R G B.

Definition darkenColor (color : string) (percent : float) : string :=
  let num := ColorBlend.parseInt16 (ColorBlend.replace_hash color) in
  let amt := Math_round_Num (2.55 * percent) in
  let R := Num_max (finite 0) (Num_sub (finite (ColorBlend.sar num 16)) amt) in
  let G := Num_max (finite 0)
             (Num_sub (finite (ColorBlend.band (ColorBlend.sar num 8) 255))
                amt) in
  let B := Num_max (finite 0)
             (Num_sub (finite (ColorBlend.band (ColorBlend.ToInt32 num) 255))
                amt) in
  rgb R G B.

(** Line 159 for one planet, [n] frames at one multiplier. *)
Definition Math_PI : float := 0x1.921FB54442D18p+1.

Fixpoint orbit (n : nat) (speed speedMultiplier angle : float) : float :=
  match n with
  | O => angle
  | S k => orbit k speed speedMultiplier (angle + speed * speedMultiplier)
  end.

End Binary64.

(** ** The specification's own notions

    Written after the specification's words, to compare the code with. *)

(** [clamp(x, lo, hi)]. *)
Definition clamp (x lo hi : Q) : Q :=
  if Qlt_le_dec x lo then lo
  else if Qlt_le_dec hi x then hi
  else x.

(** The four glow tiers, and the tier the priority
    speaking > verified > running > idle selects. *)
Inductive Tier := tier_speaking | tier_verified | tier_running | tier_idle.

Definition priority_tier (st : State) : Tier :=
  if vadSpeaking st then tier_speaking
  else if speakerVerified st then tier_verified
  else if running st then tier_running
  else tier_idle.

(** The colour ramp of each tier, as the four branches of lines 81-100
    write them. *)
Definition tier_ramp (t : Tier) (i : Q) : list ColorStop :=
  match t with
  | tier_speaking =>
      [ (0, rgba 255 215 0 (0.3 / i));
        (0.5, rgba 255 165 0 (0.2 / i));
        (1, transparent) ]
  | tier_verified =>
      [ (0, rgba 255 230 100 (0.25 / i));
        (0.5, rgba 100 255 150 (0.15 / i));
        (1, transparent) ]
  | tier_running =>
      [ (0, rgba 255 200 50 (0.2 / i));
        (0.5, rgba 255 150 0 (0.1 / i));
        (1, transparent) ]
  | tier_idle =>
      [ (0, rgba 150 120 50 (0.1 / i));
        (1, transparent) ]
  end.

(** What an [audio] message may touch: every binding but
    [animationSpeed] and [targetSunRadius] is as before. *)
Definition only_audio_changed (w w' : World) : Prop :=
  host w' = host w /\ ws w' = ws w /\ sockets w' = sockets w /\
  state w' = state w /\ planets w' = planets w /\
  sunRadius w' = sunRadius w /\ sunPulse w' = sunPulse w /\
  dom w' = dom w /\ console w' = console w /\ now w' = now w /\
  timers w' = timers w /\ rafPending w' = rafPending w.

(** One round of losing the connection: the socket behind [ws] closes,
    2000 ms pass, the timer fires. *)
Definition close_current (w : World) : World :=
  match ws w with
  | Some i => step (ev_close i) w
  | None => w
  end.

Definition reconnect_round (w : World) : World :=
  step ev_timer (step (ev_tick 2000) (close_current w)).

Fixpoint reconnect_rounds (n : nat) (w : World) : World :=
  match n with
  | O => w
  | S k => reconnect_rounds k (reconnect_round w)
  end.

(** The script holds a socket that has not closed, and no timer. *)
Definition live (w : World) : Prop :=
  timers w = [] /\
  exists i r, ws w = Some i /\ socket_state i w = Some r /\ r <> CLOSED.

(** 0.9 to the power [n]: what [n] frames leave of the distance between
    [sunRadius] and a target that stays put. *)
Fixpoint decay (n : nat) : Q :=
  match n with
  | O => 1
  | S k => 0.9 * decay k
  end.

(** What holds of every world the script can be in: [animationSpeed] is
    at least 0.5 and every planet's [speed] is positive. *)
Definition steady (w : World) : Prop :=
  0.5 <= animationSpeed w /\ Forall (fun p => 0 < speed p) (planets w).

(** ** Notions for the rest of the script *)

(** The page shows what [state] says: refreshing the three views from
    [state] would change nothing. *)
Definition in_sync (w : World) : Prop := updateUI (state w) (dom w) = dom w.

(** A planet without its [angle]. *)
Definition descriptor (p : Planet) : string * Q * Q * Q * string * bool :=
  (name p, radius p, speed p, size p, color p, hasRings p).

(** The two frames [toggleAgent] can send. *)
Definition is_command (frame : string) : Prop :=
  frame = JSON_stringify cmd_start \/ frame = JSON_stringify cmd_stop.

(** What every world the script reaches keeps of its sockets: the page's
    host is [h], each socket points at [ws://h/ws] and was only ever
    given commands, and [ws] is [null] while there is no socket and the
    newest socket from then on. *)
Definition wired (h : string) (w : World) : Prop :=
  host w = h /\
  Forall (fun s => url s = "ws://" ++ h ++ "/ws" /\ Forall is_command (sent s))
    (sockets w) /\
  match sockets w with
  | [] => ws w = None
  | _ :: rest => ws w = Some (List.length rest)
  end.

(** What every world the script reaches keeps of the animation: the two
    audio values and the sun's radius stay in range, a frame callback is
    pending, and the planets are the eight of the literal but for their
    angles. *)
Definition tame (w : World) : Prop :=
  0.5 <= animationSpeed w /\ animationSpeed w <= 3 /\
  15 <= targetSunRadius w /\ 15 <= sunRadius w /\
  rafPending w = true /\
  map descriptor (planets w) = map descriptor initial_planets.

(** The sockets that have not closed, counted, and with them the
    reconnects that are waiting. *)
Definition is_live (s : WebSocket) : bool :=
  match readyState s with CLOSED => false | _ => true end.

Definition live_sockets (w : World) : nat :=
  List.length (filter is_live (sockets w)).

Definition balance (w : World) : nat :=
  (live_sockets w + List.length (timers w))%nat.



(** How the sockets, the timers and the connection indicator hang
    together on a page that called [connect] once: every socket but the
    newest has closed, [ws] is the newest, and the newest socket's state
    decides whether a reconnect is waiting and what the indicator reads
    ([d] is the page's markup, whose text shows until the first open or
    close). *)
Definition tracked (d : Dom) (w : World) : Prop :=
  exists front s,
    sockets w = (front ++ [s])%list /\
    Forall (fun x => readyState x = CLOSED) front /\
    ws w = Some (List.length front) /\
    match readyState s with
    | CONNECTING =>
        timers w = [] /\
        (connection_text_text (dom w) = connection_text_text d \/
         connection_text_text (dom w) = "Disconnected")
    | OPEN | CLOSING =>
        timers w = [] /\ connection_text_text (dom w) = "Connected"
    | CLOSED =>
        List.length (timers w) = 1%nat /\
        connection_text_text (dom w) = "Disconnected"
    end.

(** Whether a [#] occurs in a string. *)
Fixpoint has_hash (s : string) : bool :=
  match s with
  | EmptyString => false
  | String c rest => Ascii.eqb c "#" || has_hash rest
  end.

(** * Theorems *)

#[local] Set Warnings "-inexact-float".

(** ** Runs on the script's own data *)

Example lighten_mercury :
  ColorBlend.lightenColor "#b5b5b5" 40 = "rgb(255, 255, 255)".
Proof. reflexivity. Qed.

Example darken_mars :
  ColorBlend.darkenColor "#c1440e" 30 = "rgb(116, 0, 0)".
Proof. reflexivity. Qed.

Example saturn_body :
  planetBody (mkPlanet "Saturn" 155 0.009 10 "#f4d59e" true (Math_PI * 1.25))
  = [ (0, "rgb(255, 255, 255)"); (0.7, "#f4d59e"); (1, "rgb(167, 136, 81)") ].
Proof. reflexivity. Qed.

Example parseInt16_runs :
  ColorBlend.parseInt16 "6b93d6" = finite 7050198 /\
  ColorBlend.parseInt16 "  -0x1Fg" = finite (-31) /\
  ColorBlend.parseInt16 "xyz" = not_a_number.
Proof. repeat split. Qed.

Example stop_command :
  JSON_stringify cmd_stop
  = String "{" (String "034" (String "t" (String "y" (String "p" (String "e"
      (String "034" (String ":" (String "034" (String "s" (String "t"
      (String "o" (String "p" (String "034" (String "}" EmptyString)))))))))))))).
Proof. reflexivity. Qed.

(** Connecting, opening and pressing the control sends one [start]. *)
Example toggle_when_open :
  map sent
    (sockets (run [ev_DOMContentLoaded; ev_open 0; ev_toggle]
                (loaded "localhost" blank)))
  = [[JSON_stringify cmd_start]].
Proof. reflexivity. Qed.

(** The kernels on binary64, at the inputs the specification quotes. *)
Module Binary64Runs.

#[local] Set Warnings "-inexact-float".
Local Open Scope float_scope.

Example audio_points :
  Binary64.audio_speed (-80) = 0.5 /\
  Binary64.audio_speed 0 = 3 /\
  Binary64.audio_speed (-60) = 1 /\
  Binary64.audio_target (-60) = 15 /\
  Binary64.audio_target 0 = 35 /\
  Binary64.audio_target (-90) = 15.
Proof. repeat split. Qed.

Example percentages :
  Binary64.score_percent 0.87 = 87 /\
  Binary64.amt 40 = 102 /\
  Binary64.amt 30 = 77 /\
  Binary64.amt (-10) = -25.
Proof. repeat split. Qed.

(** Where rounding shows.  2.55 is not a binary64 number; the nearest one
    lies just below it.  At 50 and 90 per cent the product falls short of
    the tie that exact arithmetic reaches, and [amt] is one less than the
    exact rounding; these are the only whole percentages up to 100 where
    the two differ. *)
Example ties :
  Binary64.amt 50 = 127 /\ Math_round (2.55 * 50) = 128%Z /\
  Binary64.amt 90 = 229 /\ Math_round (2.55 * 90) = 230%Z /\
  filter (fun p => negb (Binary64.amt (Binary64.of_Z p)
                         =? Binary64.of_Z (Math_round (2.55 * inject_Z p))))
    (map Z.of_nat (seq 0 101))
  = [50%Z; 90%Z].
Proof. repeat split; vm_compute; reflexivity. Qed.

(** Mercury after the frame at load and 600 idle frames: past a full
    turn here too. *)
Example mercury_601_frames :
  (2 * Binary64.Math_PI <? Binary64.orbit 601 0.04 0.3 0) = true.
Proof. vm_compute. reflexivity. Qed.

(** A radius on its target stays there. *)
Example rest_at_target : Binary64.smooth_n 30 18 18 = 18.
Proof. reflexivity. Qed.

(** From 15 to a target of 35, 30 frames leave 0.8478..., under 5% of 20. *)
Example thirty_frames :
  Binary64.smooth_n 30 35 15 = 34.15217683449567 /\
  (35 - Binary64.smooth_n 30 35 15 <? 0.05 * 20) = true.
Proof. split; reflexivity. Qed.

(** From the fresh page's 18, for every level from -90 to 0 in tenths
    whose target is not 18 itself (-51 is the one whose target is), 30
    frames leave under 5% of the distance. *)
Example thirty_frames_by_level :
  forallb
    (fun k =>
       let T := Binary64.audio_target (Binary64.of_Z k / 10) in
       (T =? 18)
       || (PrimFloat.abs (Binary64.smooth_n 30 T 18 - T)
           <? 0.05 * PrimFloat.abs (T - 18)))
    (map (fun n => (Z.of_nat n - 900)%Z) (seq 0 901))
  = true.
Proof. vm_compute. reflexivity. Qed.

(** The score's percentage where rounding shows: 0.285 and 1.005 times
    100 fall short of the ties that exact arithmetic reaches. *)
Example score_ties :
  Binary64.score_percent 0.285 = 28 /\ Math_round (0.285 * 100) = 29%Z /\
  Binary64.score_percent 1.005 = 100 /\ Math_round (1.005 * 100) = 101%Z.
Proof. repeat split. Qed.

(** Rounding can stop the filter short of its target: one unit in the
    last place above 15, a tenth of the distance is lost when it is
    added, and the radius stays where it is for good. *)
Example stall_next_to_target :
  let r0 := 15 + 0x1p-49 in
  Binary64.smooth 15 r0 = r0 /\ Binary64.smooth_n 30 15 r0 = r0 /\
  (r0 =? 15) = false.
Proof. repeat split. Qed.

(** The two colour helpers on doubles: at the ties of [amt]; at a
    percentage so low that the channel is printed with an exponent; at
    NaN and at the infinities. *)
Example blend_on_doubles :
  Binary64.Math_round_Num (2.55 * 50) = finite 127 /\
  Binary64.lightenColor "#806040" 50 = "rgb(255, 223, 191)"%string /\
  Binary64.darkenColor "#806040" 90 = "rgb(0, 0, 0)"%string /\
  Binary64.lightenColor "#000000" (-1e30)
  = ("rgb(-2.5499999999999996e+30, -2.5499999999999996e+30, "
       ++ "-2.5499999999999996e+30)")%string /\
  Binary64.lightenColor "#123456" nan = "rgb(NaN, NaN, NaN)"%string /\
  Binary64.darkenColor "#123456" infinity = "rgb(0, 0, 0)"%string /\
  Binary64.darkenColor "#123456" neg_infinity
  = "rgb(Infinity, Infinity, Infinity)"%string.
Proof. repeat split; vm_compute; reflexivity. Qed.

(** On the script's own data, the planets' colours at 40 and 30 per
    cent, the helpers on doubles and the exact ones return the same
    strings. *)
Example blend_models_agree :
  forallb
    (fun p =>
       String.eqb (Binary64.lightenColor (color p) 40)
         (ColorBlend.lightenColor (color p) 40%Q)
       && String.eqb (Binary64.darkenColor (color p) 30)
            (ColorBlend.darkenColor (color p) 30%Q))
    initial_planets
  = true.
Proof. vm_compute. reflexivity. Qed.

(** What a template literal prints for a whole double: every digit up
    to 2^53, the shortest decimal that reads back from there on, an
    exponent from 10^21 on. *)
Example whole_doubles_printed :
  map Number_toString
    [0; -25; 255; 9007199254740993; 73786976294838206464;
     999999999999999999999; 100000000000000000000000; - (2 ^ 1024)]%Z
  = ["0"; "-25"; "255"; "9007199254740992"; "73786976294838210000";
     "1e+21"; "1e+23"; "-Infinity"]%string.
Proof. vm_compute. reflexivity. Qed.

End Binary64Runs.

(** ** Rounding on doubles

    What the library's specification of binary64 ([SpecFloat]) gives for
    one rounding, and from it for the subtraction, the product and the
    sum of line 58. *)

Module Rounding.
Import Binary64.

Local Open Scope Z_scope.

(** *** Digits *)

Lemma digits2_size (p : positive) : digits2_pos p = Pos.size p.
Proof. induction p as [p IH | p IH |]; cbn; congruence. Qed.

Lemma digits_bounds (p : positive) :
  2 ^ (Z.pos (digits2_pos p) - 1) <= Z.pos p < 2 ^ Z.pos (digits2_pos p).
Proof.
  rewrite digits2_size. split.
  - pose proof (Pos.size_le p) as H.
    apply Pos2Z.pos_le_pos in H. rewrite Pos2Z.inj_pow in H.
    change (Z.pos p~0) with (2 * Z.pos p) in H.
    replace (Z.pos (Pos.size p)) with (1 + (Z.pos (Pos.size p) - 1)) in H
      by lia.
    rewrite Z.pow_add_r in H by lia. change (2 ^ 1) with 2 in H. lia.
  - pose proof (Pos.size_gt p) as H.
    apply Pos2Z.pos_lt_pos in H. rewrite Pos2Z.inj_pow in H. exact H.
Qed.

Lemma fexp_eq (e : Z) : fexp prec emax e = Z.max (e - 53) (-1074).
Proof. reflexivity. Qed.

(** *** Shifting right *)

Lemma shr_1_m (mrs : shr_record) :
  0 <= shr_m mrs -> shr_m (shr_1 mrs) = shr_m mrs / 2.
Proof.
  destruct mrs as [m r s]. cbn [shr_m]. intros H.
  destruct m as [| [p | p |] | p]; cbn [shr_1 shr_m]; try lia.
  - reflexivity.
  - apply (Z.div_unique _ 2 _ 1); lia.
  - apply (Z.div_unique _ 2 _ 0); lia.
  - reflexivity.
Qed.

Lemma shr_1_nonneg (mrs : shr_record) :
  0 <= shr_m mrs -> 0 <= shr_m (shr_1 mrs).
Proof.
  intros H. rewrite shr_1_m by exact H. apply Z.div_pos; lia.
Qed.

Lemma iter_shr_m (p : positive) (mrs : shr_record) :
  0 <= shr_m mrs ->
  shr_m (iter_pos shr_1 p mrs) = shr_m mrs / 2 ^ Z.pos p.
Proof.
  revert mrs. induction p as [p IH | p IH |]; intros mrs H; cbn [iter_pos].
  - assert (H1 : 0 <= shr_m (shr_1 mrs)) by (apply shr_1_nonneg, H).
    assert (H2 : 0 <= shr_m (iter_pos shr_1 p (shr_1 mrs))).
    { rewrite IH by exact H1. apply Z.div_pos; [exact H1 |].
      apply Z.pow_pos_nonneg; lia. }
    rewrite IH by exact H2. rewrite IH by exact H1. rewrite shr_1_m by exact H.
    rewrite !Z.div_div by (first [ lia | apply Z.pow_nonzero; lia | apply Z.pow_pos_nonneg; lia ]).
    f_equal. rewrite <- Z.pow_add_r, <- Z.pow_succ_r by lia. f_equal. lia.
  - assert (H2 : 0 <= shr_m (iter_pos shr_1 p mrs)).
    { rewrite IH by exact H. apply Z.div_pos; [exact H |].
      apply Z.pow_pos_nonneg; lia. }
    rewrite IH by exact H2. rewrite IH by exact H.
    rewrite Z.div_div by (first [ lia | apply Z.pow_nonzero; lia | apply Z.pow_pos_nonneg; lia ]).
    f_equal. rewrite <- Z.pow_add_r by lia. f_equal. lia.
  - rewrite shr_1_m by exact H. reflexivity.
Qed.

(** [shr_fexp] on an exact mantissa: a shift by [a] bits, [a] being what
    the format asks for, or none. *)
Lemma shr_fexp_spec (m e : Z) :
  0 <= m ->
  let n := fexp prec emax (Zdigits2 m + e) - e in
  let a := Z.max n 0 in
  shr_m (fst (shr_fexp prec emax m e loc_Exact)) = m / 2 ^ a /\
  snd (shr_fexp prec emax m e loc_Exact) = e + a /\
  (n <= 0 ->
   loc_of_shr_record (fst (shr_fexp prec emax m e loc_Exact)) = loc_Exact).
Proof.
  intros Hm n a. unfold shr_fexp, shr. fold n.
  cbn [shr_record_of_loc].
  destruct n as [| p | p] eqn:E; subst a; cbn [fst snd Z.max Z.compare].
  - rewrite Z.div_1_r, Z.add_0_r. repeat split.
  - rewrite iter_shr_m by exact Hm. cbn [shr_m].
    replace (Z.max (Z.pos p) 0) with (Z.pos p) by lia.
    split; [reflexivity |]. split; [reflexivity | lia].
  - replace (Z.max (Z.neg p) 0) with 0 by lia.
    rewrite Z.div_1_r, Z.add_0_r. repeat split.
Qed.

Lemma round_nearest_even_range (m : Z) (l : location) :
  round_nearest_even m l = m \/ round_nearest_even m l = m + 1.
Proof.
  destruct l as [| []]; cbn; auto. destruct (Z.even m); auto.
Qed.


Lemma Zdigits2_bounds (m : Z) :
  0 < m -> 2 ^ (Zdigits2 m - 1) <= m < 2 ^ Zdigits2 m.
Proof.
  destruct m as [| p | p]; try lia. intros _. apply digits_bounds.
Qed.

Lemma Zdigits2_nonneg (m : Z) : 0 <= Zdigits2 m.
Proof. destruct m; cbn; lia. Qed.

Lemma pow2_lt_inv (x y : Z) : 0 <= y -> 2 ^ x < 2 ^ y -> x < y.
Proof.
  intros Hy H. destruct (Z_lt_le_dec x y) as [Hlt | Hge]; [exact Hlt |].
  exfalso. assert (2 ^ y <= 2 ^ x) by (apply Z.pow_le_mono_r; lia). lia.
Qed.

(** *** One rounding

    [binary_round_aux] on an exact mantissa [mx] and exponent [ex]:
    a shift by [a] bits, the mantissa then kept or raised by one; a
    second shift by [b] bits. *)
Lemma binary_round_aux_cases (s : bool) (mx ex : Z) :
  0 <= mx ->
  exists a b m1 m2 : Z,
    0 <= a /\ 0 <= b /\
    (m1 = mx / 2 ^ a \/ m1 = mx / 2 ^ a + 1) /\
    (a = 0 -> m1 = mx) /\
    m2 = m1 / 2 ^ b /\
    (0 < a -> ex + a = fexp prec emax (Zdigits2 mx + ex)) /\
    (0 < b -> ex + a + b = fexp prec emax (Zdigits2 m1 + (ex + a))) /\
    binary_round_aux prec emax s mx ex loc_Exact
    = match m2 with
      | Z0 => S754_zero s
      | Zpos m =>
          if ex + a + b <=? emax - prec then S754_finite s m (ex + a + b)
          else S754_infinity s
      | Zneg _ => S754_nan
      end.
Proof.
  intros Hm. unfold binary_round_aux.
  destruct (shr_fexp_spec mx ex Hm) as [H1 [H2 H3]].
  destruct (shr_fexp prec emax mx ex loc_Exact) as [mrs' e'].
  cbn [fst snd] in H1, H2, H3.
  set (n := fexp prec emax (Zdigits2 mx + ex) - ex) in *.
  set (a := Z.max n 0) in *.
  set (m1 := round_nearest_even (shr_m mrs') (loc_of_shr_record mrs')).
  assert (Hm' : 0 <= shr_m mrs').
  { rewrite H1. apply Z.div_pos; [exact Hm |]. apply Z.pow_pos_nonneg; lia. }
  assert (Hm1 : 0 <= m1).
  { subst m1. destruct (round_nearest_even_range (shr_m mrs')
                          (loc_of_shr_record mrs')) as [-> | ->]; lia. }
  destruct (shr_fexp_spec m1 e' Hm1) as [K1 [K2 _]].
  destruct (shr_fexp prec emax m1 e' loc_Exact) as [mrs'' e''].
  cbn [fst snd] in K1, K2.
  set (n2 := fexp prec emax (Zdigits2 m1 + e') - e') in *.
  set (b := Z.max n2 0) in *.
  exists a, b, m1, (shr_m mrs'').
  split; [lia |]. split; [lia |].
  split.
  { subst m1. rewrite <- H1. apply round_nearest_even_range. }
  split.
  { intros Ha. subst m1. rewrite H3 by lia. cbn [round_nearest_even].
    rewrite H1, Ha. apply Z.div_1_r. }
  split; [exact K1 |].
  split; [intros Ha; subst a n; lia |].
  split; [intros Hb; subst b n2; rewrite H2 in *; lia |].
  rewrite K2, H2. reflexivity.
Qed.


Lemma two_shifts_error (mx a b m1 m2 : Z) :
  0 <= mx -> 0 <= a -> 0 <= b ->
  m1 = mx / 2 ^ a \/ m1 = mx / 2 ^ a + 1 ->
  m2 = m1 / 2 ^ b ->
  Z.abs (m2 * 2 ^ (a + b) - mx) <= 2 ^ (a + b + 1).
Proof.
  intros Hm Ha Hb H1 H2.
  rewrite !Z.pow_add_r by lia. change (2 ^ 1) with 2.
  assert (HA : 0 < 2 ^ a) by (apply Z.pow_pos_nonneg; lia).
  assert (HB : 0 < 2 ^ b) by (apply Z.pow_pos_nonneg; lia).
  set (A := 2 ^ a) in *. set (B := 2 ^ b) in *.
  pose proof (Z.div_mod mx A ltac:(lia)) as E1.
  pose proof (Z.mod_pos_bound mx A HA) as R1.
  pose proof (Z.div_mod m1 B ltac:(lia)) as E2.
  pose proof (Z.mod_pos_bound m1 B HB) as R2.
  rewrite <- H2 in E2.
  set (q := mx / A) in *. set (r := mx mod A) in *.
  set (r2 := m1 mod B) in *.
  assert (Hq : 0 <= q) by (subst q; apply Z.div_pos; lia).
  destruct H1 as [H1 | H1]; rewrite H1 in E2; nia.
Qed.

Lemma round_Z_spec (s : bool) (mx ex : Z) :
  0 < mx ->
  match binary_round_aux prec emax s mx ex loc_Exact with
  | S754_nan => False
  | S754_infinity s' =>
      s' = s /\ exists k, 0 <= k /\ 2 ^ k <= mx /\ 971 <= ex + k
  | S754_zero s' =>
      s' = s /\ exists k, 0 <= k /\ mx <= 2 ^ k /\ ex + k = -1073
  | S754_finite s' m e =>
      s' = s /\
      exists k, 0 <= k /\ e = ex + k /\
                Z.abs (Z.pos m * 2 ^ k - mx) <= 2 ^ (k + 1)
  end.
Proof.
  intros Hm.
  destruct (binary_round_aux_cases s mx ex ltac:(lia))
    as [a [b [m1 [m2 [Ha [Hb [H1 [H1' [H2 [Ea [Eb ->]]]]]]]]]]].
  pose proof (two_shifts_error mx a b m1 m2 ltac:(lia) Ha Hb H1 H2) as Herr.
  rewrite fexp_eq in Ea, Eb.
  assert (HA : 0 < 2 ^ a) by (apply Z.pow_pos_nonneg; lia).
  assert (HB : 0 < 2 ^ b) by (apply Z.pow_pos_nonneg; lia).
  assert (Hq : 0 <= mx / 2 ^ a) by (apply Z.div_pos; lia).
  assert (Hm1 : 0 <= m1) by (destruct H1; lia).
  assert (Hm2 : 0 <= m2) by (subst m2; apply Z.div_pos; lia).
  destruct m2 as [| m | m]; [| | lia].
  - (* zero *)
    split; [reflexivity |]. exists (a + b + 1).
    split; [lia |]. split; [lia |].
    symmetry in H2. apply Z.div_small_iff in H2; [| lia].
    destruct H2 as [H2 | H2]; [| lia].
    destruct (Z.eq_dec b 0) as [Hb0 | Hb0].
    + subst b. change (2 ^ 0) with 1 in H2.
      assert (m1 = 0) by lia. subst m1.
      assert (Ha0 : 0 < a).
      { destruct (Z.eq_dec a 0) as [E | E]; [specialize (H1' E); lia | lia]. }
      specialize (Ea Ha0).
      assert (Hq0 : mx / 2 ^ a = 0) by (destruct H1; lia).
      apply Z.div_small_iff in Hq0; [| lia].
      destruct Hq0 as [Hq0 | Hq0]; [| lia].
      pose proof (Zdigits2_bounds mx Hm) as [Hd _].
      assert (Zdigits2 mx - 1 < a) by (apply pow2_lt_inv; lia).
      lia.
    + specialize (Eb ltac:(lia)).
      destruct (Z.eq_dec m1 0) as [E | E].
      * subst m1. cbn [Zdigits2] in Eb. lia.
      * pose proof (Zdigits2_bounds m1 ltac:(lia)) as [Hd _].
        assert (Zdigits2 m1 - 1 < b) by (apply pow2_lt_inv; lia).
        lia.
  - destruct (ex + a + b <=? emax - prec) eqn:Hov.
    + (* finite *)
      split; [reflexivity |]. exists (a + b).
      split; [lia |]. split; [lia |]. exact Herr.
    + (* overflow *)
      apply Z.leb_gt in Hov. change (emax - prec) with 971 in Hov.
      split; [reflexivity |].
      assert (Hm1pos : 0 < m1).
      { destruct (Z.eq_dec m1 0) as [E | E]; [| lia].
        subst m1. rewrite Z.div_0_l in H2 by lia. discriminate H2. }
      destruct (Z.eq_dec b 0) as [Hb0 | Hb0].
      * subst b. destruct (Z.eq_dec a 0) as [Ha0 | Ha0].
        -- exists 0. change (2 ^ 0) with 1. lia.
        -- specialize (Ea ltac:(lia)).
           pose proof (Zdigits2_bounds mx Hm) as [Hd _].
           exists (a + 52). split; [lia |]. split; [| lia].
           replace (a + 52) with (Zdigits2 mx - 1) by lia. exact Hd.
      * specialize (Eb ltac:(lia)).
        pose proof (Zdigits2_bounds m1 Hm1pos) as [Hd _].
        replace (Zdigits2 m1 - 1) with (b + 52) in Hd by lia.
        exists (a + b + 51). split; [lia |]. split; [| lia].
        assert (Hmx : (m1 - 1) * 2 ^ a <= mx).
        { pose proof (Z.div_mod mx (2 ^ a) ltac:(lia)) as E1.
          pose proof (Z.mod_pos_bound mx (2 ^ a) HA) as R1.
          destruct H1 as [H1 | H1]; rewrite H1; nia. }
        replace (a + b + 51) with (b + 51 + a) by lia.
        rewrite Z.pow_add_r by lia.
        replace (b + 52) with (b + 51 + 1) in Hd by lia.
        rewrite (Z.pow_add_r 2 (b + 51) 1) in Hd by lia.
        change (2 ^ 1) with 2 in Hd.
        assert (0 < 2 ^ (b + 51)) by (apply Z.pow_pos_nonneg; lia).
        nia.
Qed.


(** *** Values *)

Local Open Scope Q_scope.

Lemma bpow_pos (e : Z) : 0 < bpow e.
Proof. apply Qpower_0_lt. reflexivity. Qed.

Lemma bpow_add (a b : Z) : bpow (a + b) == bpow a * bpow b.
Proof. apply Qpower_plus. discriminate. Qed.

Lemma bpow_le (a b : Z) : (a <= b)%Z -> bpow a <= bpow b.
Proof. intros H. apply Qpower_le_compat_l; [exact H | discriminate]. Qed.

Lemma bpow_Z (n : Z) : (0 <= n)%Z -> bpow n == inject_Z (2 ^ n).
Proof. intros H. rewrite Zpower_Qpower by exact H. reflexivity. Qed.

Lemma Qabs_sign (s : bool) (x : Q) : Qabs (sign s * x) == Qabs x.
Proof.
  destruct s; unfold sign.
  - setoid_replace (-1 * x) with (- x) by ring. apply Qabs_opp.
  - setoid_replace (1 * x) with x by ring. reflexivity.
Qed.

(** A valid finite double has a full mantissa or the least exponent. *)
Lemma valid_finite (s : bool) (m : positive) (e : Z) :
  valid_binary (S754_finite s m e) = true ->
  ((2 ^ 52 <= Z.pos m)%Z \/ e = (-1074)%Z) /\ (e <= 971)%Z /\
  (Z.pos m < 2 ^ 53)%Z.
Proof.
  cbn [valid_binary]. unfold bounded, canonical_mantissa.
  intros H. apply andb_prop in H. destruct H as [H1 H2].
  apply Z.eqb_eq in H1. apply Z.leb_le in H2. rewrite fexp_eq in H1.
  change (emax - prec)%Z with 971%Z in H2.
  pose proof (digits_bounds m) as [Hd Hu].
  split; [| split; [exact H2 |]].
  - destruct (Z.eq_dec e (-1074)) as [E | E]; [right; exact E | left].
    replace (Z.pos (digits2_pos m) - 1)%Z with 52%Z in Hd by lia. exact Hd.
  - assert (Z.pos (digits2_pos m) <= 53)%Z by lia.
    apply Z.lt_le_trans with (1 := Hu). apply Z.pow_le_mono_r; lia.
Qed.

(** One rounding, as numbers: the result is within two units in its last
    place of the exact value, an infinity only from 2^971 on, a zero
    only up to 2^-1073. *)
Lemma round_Q_spec (s : bool) (mx ex : Z) :
  (0 < mx)%Z ->
  let exact := inject_Z mx * bpow ex in
  match binary_round_aux prec emax s mx ex loc_Exact with
  | S754_nan => False
  | S754_infinity s' => s' = s /\ bpow 971 <= exact
  | S754_zero s' => s' = s /\ exact <= bpow (-1073)
  | S754_finite s' m e =>
      s' = s /\
      (valid_binary (S754_finite s' m e) = true ->
       Qabs (inject_Z (Z.pos m) * bpow e - exact)
       <= bpow (-51) * (inject_Z (Z.pos m) * bpow e) + bpow (-1073))
  end.
Proof.
  intros Hm exact. pose proof (round_Z_spec s mx ex Hm) as H.
  pose proof (bpow_pos ex) as Hex.
  destruct (binary_round_aux prec emax s mx ex loc_Exact)
    as [s' | s' | | s' m e]; [| | exact H |].
  - destruct H as [-> [k [Hk [Hle He]]]]. split; [reflexivity |].
    subst exact. replace (-1073)%Z with (k + ex)%Z by lia.
    rewrite bpow_add, (bpow_Z k) by exact Hk.
    apply Qmult_le_compat_r; [| apply Qlt_le_weak, Hex].
    rewrite <- Zle_Qle. exact Hle.
  - destruct H as [-> [k [Hk [Hle He]]]]. split; [reflexivity |].
    subst exact. apply Qle_trans with (bpow (k + ex)).
    + apply bpow_le. lia.
    + rewrite bpow_add, (bpow_Z k) by exact Hk.
      apply Qmult_le_compat_r; [| apply Qlt_le_weak, Hex].
      rewrite <- Zle_Qle. exact Hle.
  - destruct H as [-> [k [Hk [-> Herr]]]]. split; [reflexivity |].
    intros Hv. apply valid_finite in Hv. destruct Hv as [Hv _].
    subst exact.
    assert (E : inject_Z (Z.pos m) * bpow (ex + k) - inject_Z mx * bpow ex
                == inject_Z (Z.pos m * 2 ^ k - mx) * bpow ex).
    { rewrite (Z.add_comm ex k), bpow_add, (bpow_Z k) by exact Hk.
      unfold Z.sub. rewrite inject_Z_plus, inject_Z_mult, inject_Z_opp. ring. }
    rewrite E, Qabs_Qmult, (Qabs_pos (bpow ex)) by (apply Qlt_le_weak, Hex).
    assert (E2 : Qabs (inject_Z (Z.pos m * 2 ^ k - mx))
                 == inject_Z (Z.abs (Z.pos m * 2 ^ k - mx))).
    { unfold Qabs, inject_Z. reflexivity. }
    rewrite E2.
    apply Qle_trans with (inject_Z (2 ^ (k + 1)) * bpow ex).
    { apply Qmult_le_compat_r; [| apply Qlt_le_weak, Hex].
      rewrite <- Zle_Qle. exact Herr. }
    rewrite <- bpow_Z by lia. rewrite <- bpow_add.
    pose proof (bpow_pos (-1073)) as Hsub.
    pose proof (bpow_pos (ex + k)) as Hek.
    destruct Hv as [Hfull | Hmin].
    + apply Qle_trans
        with (bpow (-51) * (inject_Z (2 ^ 52) * bpow (ex + k))).
      * rewrite <- bpow_Z by lia. rewrite <- !bpow_add.
        apply bpow_le. lia.
      * apply Qle_trans
          with (bpow (-51) * (inject_Z (Z.pos m) * bpow (ex + k)) + 0);
          [| apply Qplus_le_r, Qlt_le_weak, Hsub].
        rewrite Qplus_0_r.
        apply Qmult_le_l; [apply bpow_pos |].
        apply Qmult_le_compat_r; [| apply Qlt_le_weak, Hek].
        rewrite <- Zle_Qle. exact Hfull.
    + replace (k + 1 + ex)%Z with (-1073)%Z by lia.
      assert (0 <= bpow (-51) * (inject_Z (Z.pos m) * bpow (ex + k))).
      { apply Qmult_le_0_compat; [apply Qlt_le_weak, bpow_pos |].
        apply Qmult_le_0_compat; [| apply Qlt_le_weak, Hek].
        change 0 with (inject_Z 0). rewrite <- Zle_Qle. lia. }
      lra.
Qed.


Lemma close_refl (v : Q) : close v v.
Proof.
  unfold close. setoid_replace (v - v) with 0 by ring.
  pose proof (bpow_pos (-51)). pose proof (bpow_pos (-1073)).
  pose proof (Qabs_nonneg v). change (Qabs 0) with 0. nra.
Qed.

Lemma close_0_l (x : Q) : Qabs x <= bpow (-1073) -> close 0 x.
Proof.
  intros H. unfold close. setoid_replace (0 - x) with (- x) by ring.
  rewrite Qabs_opp. change (Qabs 0) with 0. lra.
Qed.

Lemma rounds_to_ext (r : spec_float) (x y : Q) :
  x == y -> rounds_to r x -> rounds_to r y.
Proof.
  unfold rounds_to, close. intros E [H1 [H2 H3]].
  split; [exact H1 |]. split.
  - intros Hv Hf. rewrite <- E. apply H2; assumption.
  - intros Hlt. apply H3. rewrite E. exact Hlt.
Qed.

Lemma round_close (s : bool) (mx : positive) (ex : Z) :
  rounds_to (binary_round_aux prec emax s (Z.pos mx) ex loc_Exact)
    (sign s * (inject_Z (Z.pos mx) * bpow ex)).
Proof.
  pose proof (round_Q_spec s (Z.pos mx) ex ltac:(lia)) as H. cbv zeta in H.
  assert (Hpos : 0 < inject_Z (Z.pos mx) * bpow ex).
  { apply Qmult_lt_0_compat; [reflexivity | apply bpow_pos]. }
  unfold rounds_to. rewrite Qabs_sign, (Qabs_pos _ (Qlt_le_weak _ _ Hpos)).
  destruct (binary_round_aux prec emax s (Z.pos mx) ex loc_Exact)
    as [s' | s' | | s' m e]; [| | contradiction |].
  - destruct H as [-> H]. split; [discriminate |]. split.
    + intros _ _. cbn [SF2Q]. apply close_0_l.
      rewrite Qabs_sign, Qabs_pos by (apply Qlt_le_weak, Hpos). exact H.
    + reflexivity.
  - destruct H as [-> H]. split; [discriminate |]. split.
    + discriminate.
    + intros Hlt. exfalso. lra.
  - destruct H as [-> H]. split; [discriminate |]. split.
    + intros Hv _. specialize (H Hv). unfold close. cbn [SF2Q].
      assert (Hv' : 0 <= inject_Z (Z.pos m) * bpow e).
      { apply Qlt_le_weak, Qmult_lt_0_compat; [reflexivity | apply bpow_pos]. }
      rewrite Qabs_sign, (Qabs_pos _ Hv').
      setoid_replace (sign s * (inject_Z (Z.pos m) * bpow e)
                      - sign s * (inject_Z (Z.pos mx) * bpow ex))
        with (sign s * (inject_Z (Z.pos m) * bpow e
                        - inject_Z (Z.pos mx) * bpow ex)) by ring.
      rewrite Qabs_sign. exact H.
    + reflexivity.
Qed.

Lemma iter_xO (m d : positive) :
  Z.pos (Pos.iter xO m d) = (Z.pos m * 2 ^ Z.pos d)%Z.
Proof.
  induction d as [| d IH] using Pos.peano_ind.
  - cbn. lia.
  - rewrite Pos.iter_succ, Pos2Z.inj_succ, Z.pow_succ_r by lia.
    change (Z.pos (Pos.iter xO m d)~0) with (2 * Z.pos (Pos.iter xO m d))%Z.
    rewrite IH. ring.
Qed.

Lemma shl_align_value (m : positive) (e e' : Z) :
  inject_Z (Z.pos (fst (shl_align m e e'))) * bpow (snd (shl_align m e e'))
  == inject_Z (Z.pos m) * bpow e.
Proof.
  unfold shl_align. destruct (e' - e)%Z as [| d | d] eqn:E; cbn [fst snd];
    try reflexivity.
  rewrite iter_xO, inject_Z_mult, <- bpow_Z by lia.
  rewrite <- Qmult_assoc, <- bpow_add. replace (Z.pos d + e')%Z with e by lia.
  reflexivity.
Qed.

Lemma shl_align_snd (m : positive) (e e' : Z) :
  (e' <= e)%Z -> snd (shl_align m e e') = e'.
Proof.
  intros H. unfold shl_align.
  destruct (e' - e)%Z as [| d | d] eqn:E; cbn [snd]; lia.
Qed.

Lemma binary_round_close (s : bool) (m : positive) (e : Z) :
  rounds_to (binary_round prec emax s m e)
    (sign s * (inject_Z (Z.pos m) * bpow e)).
Proof.
  unfold binary_round.
  pose proof (shl_align_value m e (fexp prec emax (Z.pos (digits2_pos m) + e)))
    as Hv.
  destruct (shl_align m e (fexp prec emax (Z.pos (digits2_pos m) + e)))
    as [mz ez]. cbn [fst snd] in Hv.
  apply (rounds_to_ext _ (sign s * (inject_Z (Z.pos mz) * bpow ez)));
    [rewrite Hv; reflexivity | apply round_close].
Qed.

Lemma binary_normalize_close (m e : Z) :
  rounds_to (binary_normalize prec emax m e false) (inject_Z m * bpow e).
Proof.
  destruct m as [| p | p]; cbn [binary_normalize].
  - apply (rounds_to_ext _ 0); [ring |].
    unfold rounds_to. split; [discriminate |]. split; [| reflexivity].
    intros _ _. apply close_refl.
  - apply (rounds_to_ext _ (sign false * (inject_Z (Z.pos p) * bpow e)));
      [unfold sign; ring | apply binary_round_close].
  - apply (rounds_to_ext _ (sign true * (inject_Z (Z.pos p) * bpow e)));
      [| apply binary_round_close].
    unfold sign. change (Z.neg p) with (- Z.pos p)%Z.
    rewrite inject_Z_opp. ring.
Qed.


Lemma rounds_to_exact (r : spec_float) :
  SF_finite r = true -> rounds_to r (SF2Q r).
Proof.
  intros H. unfold rounds_to. split; [destruct r; discriminate |].
  split; [intros _ _; apply close_refl | intros _; exact H].
Qed.

Lemma sign_xorb (a b : bool) : sign (xorb a b) == sign a * sign b.
Proof. destruct a, b; reflexivity. Qed.

Lemma sign_negb (a : bool) : sign (negb a) == - sign a.
Proof. destruct a; reflexivity. Qed.

Lemma inject_cond_Zopp (s : bool) (z : Z) :
  inject_Z (cond_Zopp s z) == sign s * inject_Z z.
Proof.
  destruct s; unfold cond_Zopp, sign; [rewrite inject_Z_opp |]; ring.
Qed.

Lemma aligned_value (m : positive) (e ez : Z) :
  (ez <= e)%Z ->
  inject_Z (Z.pos (fst (shl_align m e ez))) * bpow ez
  == inject_Z (Z.pos m) * bpow e.
Proof.
  intros H. rewrite <- (shl_align_value m e ez).
  rewrite (shl_align_snd m e ez H). reflexivity.
Qed.

(** *** The three operations of line 58 *)

Lemma rounds_to_float (z : float) (exact : Q) :
  rounds_to (Prim2SF z) exact -> op_close z exact.
Proof.
  intros [_ [H2 H3]]. split.
  - intros Hf. apply H2; [apply Prim2SF_valid | exact Hf].
  - exact H3.
Qed.

Lemma mul_close (x y : float) :
  is_finite x = true -> is_finite y = true ->
  op_close (x * y) (value x * value y).
Proof.
  unfold is_finite, value. intros Hx Hy. apply rounds_to_float.
  rewrite mul_spec. unfold SF64mul.
  destruct (Prim2SF x) as [sx | sx | | sx mx ex]; try discriminate Hx;
    destruct (Prim2SF y) as [sy | sy | | sy my ey]; try discriminate Hy;
    cbn [SFmul SF2Q].
  - apply (rounds_to_ext _ (SF2Q (S754_zero (xorb sx sy))));
      [cbn; ring | apply rounds_to_exact; reflexivity].
  - apply (rounds_to_ext _ (SF2Q (S754_zero (xorb sx sy))));
      [cbn; ring | apply rounds_to_exact; reflexivity].
  - apply (rounds_to_ext _ (SF2Q (S754_zero (xorb sx sy))));
      [cbn; ring | apply rounds_to_exact; reflexivity].
  - apply (rounds_to_ext _
             (sign (xorb sx sy)
              * (inject_Z (Z.pos (mx * my)) * bpow (ex + ey))));
      [| apply round_close].
    rewrite sign_xorb, Pos2Z.inj_mul, inject_Z_mult, bpow_add. ring.
Qed.

Lemma sub_close (x y : float) :
  is_finite x = true -> is_finite y = true ->
  op_close (x - y) (value x - value y).
Proof.
  unfold is_finite, value. intros Hx Hy. apply rounds_to_float.
  rewrite sub_spec. unfold SF64sub.
  destruct (Prim2SF x) as [sx | sx | | sx mx ex]; try discriminate Hx;
    destruct (Prim2SF y) as [sy | sy | | sy my ey]; try discriminate Hy;
    cbn [SFsub].
  - apply (rounds_to_ext _ 0); [cbn; ring |].
    destruct sx, sy; apply (rounds_to_exact (S754_zero _)); reflexivity.
  - apply (rounds_to_ext _ (SF2Q (S754_finite (negb sy) my ey)));
      [| apply rounds_to_exact; reflexivity].
    cbn [SF2Q]. rewrite sign_negb. ring.
  - apply (rounds_to_ext _ (SF2Q (S754_finite sx mx ex)));
      [| apply rounds_to_exact; reflexivity].
    cbn [SF2Q]. ring.
  - apply (rounds_to_ext _
             (inject_Z
                (cond_Zopp sx (Z.pos (fst (shl_align mx ex (Z.min ex ey))))
                 - cond_Zopp sy (Z.pos (fst (shl_align my ey (Z.min ex ey)))))
              * bpow (Z.min ex ey)));
      [| apply binary_normalize_close].
    unfold Z.sub at 1. rewrite inject_Z_plus, inject_Z_opp.
    rewrite !inject_cond_Zopp. cbn [SF2Q].
    rewrite <- (aligned_value mx ex (Z.min ex ey)) by lia.
    rewrite <- (aligned_value my ey (Z.min ex ey)) by lia.
    ring.
Qed.

Lemma add_close (x y : float) :
  is_finite x = true -> is_finite y = true ->
  op_close (x + y) (value x + value y).
Proof.
  unfold is_finite, value. intros Hx Hy. apply rounds_to_float.
  rewrite add_spec. unfold SF64add.
  destruct (Prim2SF x) as [sx | sx | | sx mx ex]; try discriminate Hx;
    destruct (Prim2SF y) as [sy | sy | | sy my ey]; try discriminate Hy;
    cbn [SFadd].
  - apply (rounds_to_ext _ 0); [cbn; ring |].
    destruct sx, sy; apply (rounds_to_exact (S754_zero _)); reflexivity.
  - apply (rounds_to_ext _ (SF2Q (S754_finite sy my ey)));
      [| apply rounds_to_exact; reflexivity].
    cbn [SF2Q]. ring.
  - apply (rounds_to_ext _ (SF2Q (S754_finite sx mx ex)));
      [| apply rounds_to_exact; reflexivity].
    cbn [SF2Q]. ring.
  - apply (rounds_to_ext _
             (inject_Z
                (cond_Zopp sx (Z.pos (fst (shl_align mx ex (Z.min ex ey))))
                 + cond_Zopp sy (Z.pos (fst (shl_align my ey (Z.min ex ey)))))
              * bpow (Z.min ex ey)));
      [| apply binary_normalize_close].
    rewrite inject_Z_plus, !inject_cond_Zopp. cbn [SF2Q].
    rewrite <- (aligned_value mx ex (Z.min ex ey)) by lia.
    rewrite <- (aligned_value my ey (Z.min ex ey)) by lia.
    ring.
Qed.

(** *** Line 58 on doubles *)

Lemma roundoff_eq : bpow (-51) == roundoff.
Proof. vm_compute. reflexivity. Qed.

Lemma tenth_eq : value 0.1%float == tenth.
Proof. vm_compute. reflexivity. Qed.

Lemma Qabs_cases (a : Q) :
  (0 <= a /\ Qabs a == a) \/ (a <= 0 /\ Qabs a == - a).
Proof.
  destruct (Qlt_le_dec a 0) as [H | H].
  - right. split; [lra |]. apply Qabs_neg. lra.
  - left. split; [exact H |]. apply Qabs_pos. exact H.
Qed.

Lemma Qabs_lower (a : Q) : a <= Qabs a /\ - a <= Qabs a.
Proof.
  split; [apply Qle_Qabs |]. rewrite <- Qabs_opp. apply Qle_Qabs.
Qed.

Lemma filter_step_arith (t x d p x' M h : Q) :
  0 <= h -> Qabs t <= M ->
  Qabs (d - (t - x)) <= roundoff * Qabs d + h ->
  Qabs (p - d * tenth) <= roundoff * Qabs p + h ->
  Qabs (x' - (x + p)) <= roundoff * Qabs x' + h ->
  Qabs (x' - t) <= shrink * Qabs (x - t) + (2 * roundoff * M + 10 * h).
Proof.
  intros Hh Ht H1 H2 H3.
  apply Qabs_Qle_condition in Ht, H1, H2, H3.
  destruct (Qabs_lower (x - t)) as [L1 L2].
  destruct (Qabs_cases d) as [[Sd Ed] | [Sd Ed]];
    destruct (Qabs_cases p) as [[Sp Ep] | [Sp Ep]];
    destruct (Qabs_cases x') as [[Sx Ex] | [Sx Ex]];
    rewrite Ed in H1; rewrite Ep in H2; rewrite Ex in H3;
    set (G := Qabs (x - t)) in *; clearbody G;
    apply Qabs_Qle_condition; unfold roundoff, tenth, shrink in *; split; lra.
Qed.

Lemma tiny_pos : 0 < tiny.
Proof. apply bpow_pos. Qed.

Lemma bpow_902 : bpow 902 * 1024 <= bpow 971 /\ tiny <= bpow 902
                 /\ bpow 900 * 4 == bpow 902.
Proof.
  split; [| split].
  - change 1024 with (inject_Z (2 ^ 10)). rewrite <- bpow_Z, <- bpow_add by lia.
    apply bpow_le. lia.
  - apply bpow_le. lia.
  - change 4 with (inject_Z (2 ^ 2)). rewrite <- bpow_Z, <- bpow_add by lia.
    reflexivity.
Qed.

Lemma rounded_bound (v exact B : Q) :
  Qabs (v - exact) <= roundoff * Qabs v + tiny -> Qabs exact <= B -> tiny <= B ->
  Qabs v <= 3 * B.
Proof.
  intros H He Heta. apply Qabs_Qle_condition in H, He.
  pose proof tiny_pos.
  destruct (Qabs_cases v) as [[S E] | [S E]]; rewrite E in *;
    unfold roundoff in *; lra.
Qed.

Lemma smooth_step (T r : float) (M : Q) :
  is_finite T = true -> is_finite r = true ->
  Qabs (value T) <= M -> M <= bpow 900 ->
  Qabs (value r - value T) <= bpow 902 ->
  is_finite (Binary64.smooth T r) = true /\
  Qabs (value (Binary64.smooth T r) - value T)
  <= shrink * Qabs (value r - value T) + (2 * roundoff * M + 10 * tiny).
Proof.
  intros HT Hr HM HM' Hg. unfold Binary64.smooth.
  destruct bpow_902 as [Hbig [Heta H4]]. pose proof tiny_pos as Hpos.
  pose proof (bpow_pos 902) as HB.
  set (t := value T) in *. set (x := value r) in *.
  assert (Hg' : Qabs (t - x) <= bpow 902) by (rewrite Qabs_Qminus; exact Hg).
  (* the difference *)
  destruct (sub_close T r HT Hr) as [Hd1 Hd2]. fold t x in Hd1, Hd2.
  assert (Fd : is_finite (T - r) = true) by (apply Hd2; lra).
  specialize (Hd1 Fd). unfold close in Hd1. rewrite roundoff_eq in Hd1.
  fold tiny in Hd1. set (d := value (T - r)) in *.
  pose proof (rounded_bound d (t - x) (bpow 902) Hd1 Hg' Heta) as Bd.
  (* the tenth of it *)
  assert (F01 : is_finite 0.1 = true) by reflexivity.
  destruct (mul_close (T - r) 0.1 Fd F01) as [Hp1 Hp2].
  fold d in Hp1, Hp2. rewrite tenth_eq in Hp2.
  assert (Bdc : Qabs (d * tenth) <= bpow 902).
  { rewrite Qabs_Qmult. unfold tenth at 1.
    rewrite (Qabs_pos (3602879701896397 # 36028797018963968))
      by (vm_compute; discriminate).
    pose proof (Qabs_nonneg d). lra. }
  assert (Fp : is_finite ((T - r) * 0.1) = true) by (apply Hp2; lra).
  specialize (Hp1 Fp). unfold close in Hp1. rewrite roundoff_eq, tenth_eq in Hp1.
  fold tiny in Hp1. set (p := value ((T - r) * 0.1)) in *.
  pose proof (rounded_bound p (d * tenth) (bpow 902) Hp1 Bdc Heta) as Bp.
  (* the sum *)
  destruct (add_close r ((T - r) * 0.1) Hr Fp) as [Hs1 Hs2].
  fold x p in Hs1, Hs2.
  assert (Bx : Qabs x <= 2 * bpow 902).
  { setoid_replace x with ((x - t) + t) by ring.
    eapply Qle_trans; [apply Qabs_triangle |]. lra. }
  assert (Bs : Qabs (x + p) <= 5 * bpow 902).
  { eapply Qle_trans; [apply Qabs_triangle |]. lra. }
  assert (Fs : is_finite (r + (T - r) * 0.1) = true) by (apply Hs2; lra).
  split; [exact Fs |].
  specialize (Hs1 Fs). unfold close in Hs1. rewrite roundoff_eq in Hs1.
  fold tiny in Hs1.
  apply (filter_step_arith t x d p _ M tiny);
    [apply Qlt_le_weak, Hpos | exact HM | exact Hd1 | exact Hp1 | exact Hs1].
Qed.

Lemma shrink_pow_range (n : nat) : 0 <= shrink_pow n <= 1.
Proof.
  induction n as [| n [IH1 IH2]]; cbn [shrink_pow].
  - split; lra.
  - unfold shrink. split; nra.
Qed.

Lemma smooth_n_bound (n : nat) (T : float) (M : Q) :
  is_finite T = true -> Qabs (value T) <= M -> M <= bpow 900 ->
  forall r : float,
    is_finite r = true ->
    Qabs (value r - value T)
      + inject_Z (Z.of_nat n) * (2 * roundoff * M + 10 * tiny) <= bpow 902 ->
    is_finite (Binary64.smooth_n n T r) = true /\
    Qabs (value (Binary64.smooth_n n T r) - value T)
    <= shrink_pow n * Qabs (value r - value T)
       + inject_Z (Z.of_nat n) * (2 * roundoff * M + 10 * tiny).
Proof.
  intros HT HM HM'.
  assert (Hsig : 0 <= 2 * roundoff * M + 10 * tiny).
  { pose proof tiny_pos. pose proof (Qabs_nonneg (value T)). unfold roundoff. lra. }
  set (sigma := 2 * roundoff * M + 10 * tiny) in *.
  induction n as [| n IH]; intros r Hr Hg.
  - cbn [Binary64.smooth_n shrink_pow Z.of_nat]. split; [exact Hr |].
    change (inject_Z 0) with 0. lra.
  - rewrite Nat2Z.inj_succ in *. unfold Z.succ in *.
    rewrite inject_Z_plus in *. change (inject_Z 1) with 1 in *.
    assert (Hn : 0 <= inject_Z (Z.of_nat n)).
    { change 0 with (inject_Z 0). rewrite <- Zle_Qle. lia. }
    pose proof (Qabs_nonneg (value r - value T)) as Hg0.
    assert (Hg1 : Qabs (value r - value T) <= bpow 902) by nra.
    destruct (smooth_step T r M HT Hr HM HM' Hg1) as [F1 B1].
    fold sigma in B1.
    cbn [Binary64.smooth_n shrink_pow].
    set (g := Qabs (value r - value T)) in *.
    set (g1 := Qabs (value (Binary64.smooth T r) - value T)) in *.
    assert (Hrho : shrink <= 1) by (unfold shrink; lra).
    destruct (IH (Binary64.smooth T r) F1) as [F2 B2].
    { fold g1. nra. }
    split; [exact F2 |]. fold g1 in B2.
    destruct (shrink_pow_range n) as [G0 G1].
    set (gn := Qabs (value (Binary64.smooth_n n T (Binary64.smooth T r))
                     - value T)) in *.
    clearbody g g1 gn sigma.
    assert (shrink_pow n * g1 <= shrink_pow n * (shrink * g + sigma)).
    { rewrite !(Qmult_comm (shrink_pow n)). apply Qmult_le_compat_r; assumption. }
    assert (shrink_pow n * sigma <= sigma) by nra.
    lra.
Qed.

Lemma shrink_pow_30 : shrink_pow 30 <= 0.0424.
Proof. vm_compute. discriminate. Qed.

Lemma tiny_eq : tiny == roundoff * bpow (-1022).
Proof.
  unfold tiny. rewrite <- roundoff_eq, <- bpow_add. reflexivity.
Qed.

Lemma smoothing_30_frames_on_doubles (T R0 : float) :
  is_finite T = true -> is_finite R0 = true ->
  Qabs (value T) <= bpow 900 -> Qabs (value R0) <= bpow 900 ->
  bpow (-38) * Qabs (value T) <= Qabs (value T - value R0) ->
  bpow (-1022) <= Qabs (value T - value R0) ->
  is_finite (Binary64.smooth_n 30 T R0) = true /\
  Qabs (value (Binary64.smooth_n 30 T R0) - value T)
  < 0.05 * Qabs (value T - value R0).
Proof.
  intros HT HR BT BR Hrel Habs.
  assert (K : bpow (-38) == 1 # 274877906944) by (vm_compute; reflexivity).
  rewrite K in Hrel.
  destruct bpow_902 as [_ [_ H4]].
  pose proof (bpow_pos (-1022)) as HE.
  assert (HE9 : bpow (-1022) <= bpow 900) by (apply bpow_le; lia).
  pose proof tiny_eq as Heta.
  assert (Htri : Qabs (value T - value R0) <= Qabs (value T) + Qabs (value R0)).
  { setoid_replace (value T - value R0) with (value T + - value R0) by ring.
    eapply Qle_trans; [apply Qabs_triangle |]. rewrite Qabs_opp. lra. }
  rewrite (Qabs_Qminus (value T) (value R0)) in *.
  pose proof (Qabs_nonneg (value T)) as HA.
  destruct (smooth_n_bound 30 T (Qabs (value T)) HT (Qle_refl _) BT R0 HR)
    as [F B].
  { change (inject_Z (Z.of_nat 30)) with 30.
    set (g0 := Qabs (value R0 - value T)) in *. clearbody g0.
    set (A := Qabs (value T)) in *. clearbody A.
    unfold roundoff in *. lra. }
  split; [exact F |].
  change (inject_Z (Z.of_nat 30)) with 30 in B.
  pose proof shrink_pow_30 as G.
  set (g0 := Qabs (value R0 - value T)) in *.
  assert (G' : shrink_pow 30 * g0 <= 0.0424 * g0).
  { apply Qmult_le_compat_r; [exact G |]. apply Qabs_nonneg. }
  set (gn := Qabs (value (Binary64.smooth_n 30 T R0) - value T)) in *.
  clearbody g0 gn.
  set (A := Qabs (value T)) in *. clearbody A.
  unfold roundoff in *. lra.
Qed.

(** *** [Math.round] on doubles *)

Lemma Qfloor_unique (z : Z) (q : Q) :
  inject_Z z <= q -> q < inject_Z (z + 1) -> Qfloor q = z.
Proof.
  intros H1 H2.
  pose proof (Qfloor_le q) as F1. pose proof (Qlt_floor q) as F2.
  assert (A : (z < Qfloor q + 1)%Z).
  { rewrite Zlt_Qlt. eapply Qle_lt_trans; [exact H1 | exact F2]. }
  assert (B : (Qfloor q < z + 1)%Z).
  { rewrite Zlt_Qlt. eapply Qle_lt_trans; [exact F1 | exact H2]. }
  lia.
Qed.

Lemma Qfloor_half (z : Z) : Qfloor (inject_Z z + (1 # 2)) = z.
Proof.
  apply Qfloor_unique; [| rewrite inject_Z_plus; change (inject_Z 1) with 1];
    lra.
Qed.

(** [Math.round] of a finite double is the floor of its value plus a
    half. *)
Lemma Math_round_Num_value (x : float) :
  is_finite x = true ->
  Math_round_Num x = finite (Qfloor (value x + (1 # 2))).
Proof.
  unfold is_finite, value, Math_round_Num.
  destruct (Prim2SF x) as [s | s | | s m e]; try discriminate; intros _.
  - reflexivity.
  - cbn [SF2Q]. set (n := if s then Z.neg m else Z.pos m).
    assert (En : sign s * inject_Z (Z.pos m) == inject_Z n).
    { subst n. destruct s; unfold sign.
      - change (Z.neg m) with (- Z.pos m)%Z. rewrite inject_Z_opp. ring.
      - ring. }
    rewrite Qmult_assoc, En.
    destruct (0 <=? e)%Z eqn:He.
    + apply Z.leb_le in He. f_equal.
      rewrite bpow_Z by exact He. rewrite <- inject_Z_mult.
      symmetry. apply Qfloor_half.
    + apply Z.leb_gt in He. f_equal.
      rewrite Z.shiftr_div_pow2 by lia.
      set (a := (2 * n + 2 ^ (- e))%Z). set (b := (2 ^ (- e + 1))%Z).
      assert (Hb : (0 < b)%Z) by (apply Z.pow_pos_nonneg; lia).
      assert (HB : 0 < inject_Z b).
      { change 0 with (inject_Z 0). rewrite <- Zlt_Qlt. exact Hb. }
      assert (Eq : (inject_Z n * bpow e + (1 # 2)) * inject_Z b
                   == inject_Z a).
      { subst a b. rewrite inject_Z_plus, inject_Z_mult.
        rewrite <- !bpow_Z by lia.
        assert (E1 : bpow e * bpow (- e + 1) == 2).
        { rewrite <- bpow_add. replace (e + (- e + 1))%Z with 1%Z by lia.
          reflexivity. }
        assert (E2 : bpow (- e + 1) == 2 * bpow (- e)).
        { rewrite bpow_add. change (bpow 1) with 2. ring. }
        setoid_replace ((inject_Z n * bpow e + (1 # 2)) * bpow (- e + 1))
          with (inject_Z n * (bpow e * bpow (- e + 1))
                + (1 # 2) * bpow (- e + 1)) by ring.
        rewrite E1, E2. change (inject_Z 2) with 2. ring. }
      symmetry. apply Qfloor_unique.
      * apply (Qmult_le_r _ _ (inject_Z b) HB).
        rewrite Eq, <- inject_Z_mult, <- Zle_Qle.
        rewrite Z.mul_comm. apply Z.mul_div_le. exact Hb.
      * apply (Qmult_lt_r _ _ (inject_Z b) HB).
        rewrite Eq, <- inject_Z_mult, <- Zlt_Qlt.
        rewrite Z.mul_comm. apply Z.mul_succ_div_gt. exact Hb.
Qed.

Lemma tiny_small : tiny <= 1 # 1024.
Proof.
  unfold tiny. apply Qle_trans with (bpow (-10)); [apply bpow_le; lia |].
  vm_compute. discriminate.
Qed.

(** The percentage of a score between 0 and 1 is a whole number between
    0 and 100; from 1.01 on it is above 100. *)
Lemma score_percent_range (score : float) :
  is_finite score = true -> 0 <= value score ->
  value score <= bpow 900 ->
  exists k : Z,
    Math_round_Num (score * 100) = finite k /\ (0 <= k)%Z /\
    (value score <= 1 -> (k <= 100)%Z) /\
    (1.01 <= value score -> (100 < k)%Z).
Proof.
  intros Hf H0 Hbig.
  assert (H100 : is_finite 100 = true) by reflexivity.
  assert (V100 : value 100 == 100) by (vm_compute; reflexivity).
  destruct (mul_close score 100 Hf H100) as [Hc Hfin].
  rewrite V100 in Hfin.
  assert (Fp : is_finite (score * 100) = true).
  { apply Hfin. rewrite Qabs_pos by lra.
    assert (bpow 900 * 1024 <= bpow 971).
    { change 1024 with (inject_Z (2 ^ 10)).
      rewrite <- bpow_Z, <- bpow_add by lia. apply bpow_le. lia. }
    pose proof (bpow_pos 900). lra. }
  specialize (Hc Fp). unfold close in Hc. rewrite roundoff_eq in Hc.
  fold tiny in Hc. pose proof tiny_small as Ht. pose proof tiny_pos as Ht0.
  exists (Qfloor (value (score * 100) + (1 # 2))).
  split; [apply Math_round_Num_value, Fp |].
  set (p := value (score * 100)) in *.
  assert (Hc' : Qabs (p - value score * 100) <= roundoff * Qabs p + tiny).
  { revert Hc. apply Qle_trans. apply Qle_lteq. right.
    apply Qabs_wd. rewrite V100. reflexivity. }
  clear Hc. apply Qabs_Qle_condition in Hc'.
  split; [| split].
  - change 0%Z with (Qfloor 0). apply Qfloor_resp_le.
    destruct (Qabs_cases p) as [[S E] | [S E]]; rewrite E in Hc';
      unfold roundoff in *; lra.
  - intros H1. change 100%Z with (Qfloor (100 + (3 # 4))).
    apply Qfloor_resp_le.
    destruct (Qabs_cases p) as [[S E] | [S E]]; rewrite E in Hc';
      unfold roundoff in *; lra.
  - intros H1.
    assert (101 <= Qfloor (p + (1 # 2)))%Z; [| lia].
    change 101%Z with (Qfloor 101). apply Qfloor_resp_le.
    destruct (Qabs_cases p) as [[S E] | [S E]]; rewrite E in Hc';
      unfold roundoff in *; lra.
Qed.

End Rounding.

(** ** The audio mapping *)

Lemma clamp_max_min (x : Q) : Math_max 0.5 (Math_min 3 x) == clamp x 0.5 3.
Proof.
  unfold Math_max, Math_min, clamp.
  destruct (Qlt_le_dec x 0.5) as [Hlo | Hlo].
  - apply Q.max_l. apply Q.min_le_iff. right. lra.
  - destruct (Qlt_le_dec 3 x) as [Hhi | Hhi].
    + rewrite (Q.min_l 3 x) by lra. apply Q.max_r. lra.
    + rewrite (Q.min_r 3 x) by lra. apply Q.max_r. lra.
Qed.

(** C1.  An [audio] message with level [L] sets [animationSpeed] to
    clamp((L+80)/20, 0.5, 3) and [targetSunRadius] to
    15 + max(0, (L+60)/3) and leaves every other binding alone; at
    L = -80, 0, -60 the speed is 0.5, 3, 1, and at L = -60, 0, -90 the
    target radius is 15, 35, 15. *)
Theorem audio_event_sets_speed_and_target (L : Q) (w : World) :
  let at_level l := handleMessage (audio_msg l) w in
  animationSpeed (at_level L) == clamp ((L + 80) / 20) 0.5 3 /\
  targetSunRadius (at_level L) == 15 + Qmax 0 ((L + 60) / 3) /\
  only_audio_changed w (at_level L) /\
  animationSpeed (at_level (-80)) == 0.5 /\
  animationSpeed (at_level 0) == 3 /\
  animationSpeed (at_level (-60)) == 1 /\
  targetSunRadius (at_level (-60)) == 15 /\
  targetSunRadius (at_level 0) == 35 /\
  targetSunRadius (at_level (-90)) == 15.
Proof.
  cbv zeta. cbn [handleMessage set_audio animationSpeed targetSunRadius].
  split; [apply clamp_max_min |].
  split; [reflexivity |].
  split; [unfold only_audio_changed; cbn; repeat split |].
  repeat split; reflexivity.
Qed.

(** ** The smoothing of the sun's radius *)

Lemma frames_targetSunRadius (n : nat) (w : World) :
  targetSunRadius (frames n w) = targetSunRadius w.
Proof.
  revert w. induction n as [| n IH]; intros w; cbn [frames].
  - reflexivity.
  - rewrite IH. reflexivity.
Qed.

(** After [n] frames the distance to the target is 0.9^n times what it
    was. *)
Lemma smoothing_gap (n : nat) (w : World) :
  sunRadius (frames n w) - targetSunRadius w
  == decay n * (sunRadius w - targetSunRadius w).
Proof.
  revert w. induction n as [| n IH]; intros w; cbn [frames decay].
  - ring.
  - rewrite <- (frames_targetSunRadius 1 w) at 1. cbn [frames].
    rewrite IH. cbn [drawSolarSystem sunRadius targetSunRadius]. ring.
Qed.

Lemma decay_30 : 0 < decay 30 /\ decay 30 < 0.05.
Proof. split; reflexivity. Qed.

Lemma smoothing_30_abs (w : World) :
  Qabs (sunRadius (frames 30 w) - targetSunRadius w)
  == decay 30 * Qabs (targetSunRadius w - sunRadius w).
Proof.
  rewrite smoothing_gap, Qabs_Qmult.
  rewrite (Qabs_pos (decay 30)) by (apply Qlt_le_weak, decay_30).
  rewrite (Qabs_Qminus (sunRadius w)). reflexivity.
Qed.

(** C2, as the code has it.  A frame moves [sunRadius] a tenth of the way
    to [targetSunRadius], and with the target held 30 frames leave less
    than 5% of the distance: in exact arithmetic whenever the radius is
    not already on its target; on doubles whenever target and radius
    are finite, at most 2^900 in size, and apart by at least 2^-38 of
    the target's size and by at least 2^-1022.  The radius stays finite,
    and the bound is one between the numbers the doubles are. *)
Theorem smoothing_after_30_frames (w : World) (T R0 : float) :
  sunRadius (drawSolarSystem w)
    == sunRadius w + (targetSunRadius w - sunRadius w) * 0.1 /\
  targetSunRadius (frames 30 w) = targetSunRadius w /\
  (~ targetSunRadius w == sunRadius w ->
   Qabs (sunRadius (frames 30 w) - targetSunRadius w)
     < 0.05 * Qabs (targetSunRadius w - sunRadius w)) /\
  (Binary64.is_finite T = true -> Binary64.is_finite R0 = true ->
   Qabs (Binary64.value T) <= Binary64.bpow 900 ->
   Qabs (Binary64.value R0) <= Binary64.bpow 900 ->
   Binary64.bpow (-38) * Qabs (Binary64.value T)
     <= Qabs (Binary64.value T - Binary64.value R0) ->
   Binary64.bpow (-1022) <= Qabs (Binary64.value T - Binary64.value R0) ->
   Binary64.is_finite (Binary64.smooth_n 30 T R0) = true /\
   Qabs (Binary64.value (Binary64.smooth_n 30 T R0) - Binary64.value T)
     < 0.05 * Qabs (Binary64.value T - Binary64.value R0)).
Proof.
  split; [reflexivity |].
  split; [apply frames_targetSunRadius |].
  split.
  - intros Hne. rewrite smoothing_30_abs.
    assert (Hpos : 0 < Qabs (targetSunRadius w - sunRadius w)).
    { destruct (Qlt_le_dec 0 (Qabs (targetSunRadius w - sunRadius w)))
        as [H | H]; [exact H | exfalso].
      apply Hne. apply Qabs_Qle_condition in H. lra. }
    destruct decay_30 as [_ Hd].
    apply Qmult_lt_compat_r; assumption.
  - apply Rounding.smoothing_30_frames_on_doubles.
Qed.

Lemma smoothing_after_30_frames_witness :
  (let w := handleMessage (audio_msg 0) (boot "localhost" blank) in
   ~ targetSunRadius w == sunRadius w /\
   Qabs (sunRadius (frames 30 w) - targetSunRadius w)
     < 0.05 * Qabs (targetSunRadius w - sunRadius w)) /\
  Qabs (Binary64.value (Binary64.smooth_n 30 35 18) - Binary64.value 35)
    < 0.05 * Qabs (Binary64.value 35 - Binary64.value 18).
Proof.
  cbv zeta.
  assert (Hne : ~ targetSunRadius (handleMessage (audio_msg 0)
                                     (boot "localhost" blank))
                  == sunRadius (handleMessage (audio_msg 0)
                                  (boot "localhost" blank))).
  { vm_compute. discriminate. }
  destruct (smoothing_after_30_frames
              (handleMessage (audio_msg 0) (boot "localhost" blank)) 35 18)
    as [_ [_ [HQ HF]]].
  split; [split; [exact Hne | apply HQ, Hne] |].
  apply HF; try reflexivity; vm_compute; discriminate.
Defined.

(** C2, as stated, fails in two ways.  At a radius that is already on
    its target (the script starts with both at 18) the distance after 30
    frames is 0, which is not less than 5% of 0, in exact arithmetic and
    on doubles alike.  And on doubles the filter can stop short of its
    target: from the fresh page's 18 with the target held at 35 (level
    0), the radius reaches 34.999999999999972 within 400 frames; from
    there a tenth of the distance is lost when it is added, a frame
    leaves the radius where it is, and 30 frames leave the whole
    distance, not under 5% of it. *)
Lemma smoothing_not_strict_on_target :
  (let w := boot "localhost" blank in
   targetSunRadius w == sunRadius w /\
   ~ Qabs (sunRadius (frames 30 w) - targetSunRadius w)
       < 0.05 * Qabs (targetSunRadius w - sunRadius w)) /\
  (let r := Binary64.smooth_n 30 18 18 in
   (PrimFloat.abs (r - 18) <? 0.05 * PrimFloat.abs (18 - 18))%float
   = false) /\
  (let T := Binary64.audio_target 0 in
   let R0 := Binary64.smooth_n 400 T 18 in
   T = 35%float /\ R0 = 34.999999999999972%float /\
   (R0 =? T)%float = false /\
   Binary64.smooth T R0 = R0 /\
   Binary64.smooth_n 30 T R0 = R0 /\
   (PrimFloat.abs (Binary64.smooth_n 30 T R0 - T)
    <? 0.05 * PrimFloat.abs (T - R0))%float = false).
Proof.
  split; [| split].
  - cbv zeta. split; [reflexivity |].
    rewrite smoothing_30_abs. cbn [boot targetSunRadius sunRadius].
    vm_compute. discriminate.
  - vm_compute. reflexivity.
  - cbv zeta. repeat split; vm_compute; reflexivity.
Qed.

(** ** Planet angles *)

(** The handlers other than the frame do not touch [planets]. *)
Lemma planets_handleMessage (msg : Message) (w : World) :
  planets (handleMessage msg w) = planets w.
Proof. destruct msg; reflexivity. Qed.

Lemma planets_toggleAgent (w : World) : planets (toggleAgent w) = planets w.
Proof.
  unfold toggleAgent.
  destruct (current_socket w) as [[i s] |]; [| reflexivity].
  destruct (is_open (readyState s)); [| reflexivity].
  destruct (running (state w)); reflexivity.
Qed.

Lemma planets_set_readyState (i : nat) (r : ReadyState) (w : World) :
  planets (set_readyState i r w) = planets w.
Proof.
  unfold set_readyState. destruct (nth_error (sockets w) i); reflexivity.
Qed.

Lemma planets_step_other (e : Event) (w : World) :
  e <> ev_frame -> planets (step e w) = planets w.
Proof.
  intros He.
  destruct e as [| | | i | i | i | i msg | dt | | i]; cbn [step]; try congruence.
  - reflexivity.
  - apply planets_toggleAgent.
  - destruct (socket_state i w) as [[] |]; try reflexivity.
    cbn. apply planets_set_readyState.
  - destruct (socket_state i w) as [[] |]; try reflexivity;
      cbn; apply planets_set_readyState.
  - destruct (socket_state i w); reflexivity.
  - destruct (socket_state i w) as [[] |]; try reflexivity.
    apply planets_handleMessage.
  - destruct (0 <=? dt)%Z; reflexivity.
  - destruct (pop_due (now w) (timers w)) as [[t rest] |]; [| reflexivity].
    destruct (callback t). reflexivity.
  - destruct (socket_state i w) as [[] |]; try reflexivity.
    apply planets_set_readyState.
Qed.

(** C3.  A frame gives every planet the multiplier 3 while
    [vadSpeaking], else [animationSpeed] while [running], else 0.3, and
    adds [speed] times it to the planet's [angle], nothing else of the
    planet changing; no handler but the frame changes [planets], and no
    event but the frame's does. *)
Theorem frame_advances_angles (w : World) :
  speedMultiplier w
    = match vadSpeaking (state w), running (state w) with
      | true, _ => 3
      | false, true => animationSpeed w
      | false, false => 0.3
      end /\
  planets (drawSolarSystem w)
    = map (fun p => mkPlanet (name p) (radius p) (speed p) (size p) (color p)
                      (hasRings p) (angle p + speed p * speedMultiplier w))
        (planets w) /\
  (forall msg, planets (handleMessage msg w) = planets w) /\
  planets (toggleAgent w) = planets w /\
  planets (connect w) = planets w /\
  planets (ws_onopen w) = planets w /\
  planets (ws_onclose w) = planets w /\
  planets (ws_onerror w) = planets w /\
  (forall e, e = ev_frame \/ planets (step e w) = planets w).
Proof.
  split.
  { unfold speedMultiplier.
    destruct (vadSpeaking (state w)), (running (state w)); reflexivity. }
  split; [reflexivity |].
  split; [intros msg; apply planets_handleMessage |].
  split; [apply planets_toggleAgent |].
  repeat (split; [reflexivity |]).
  intros e.
  destruct e; try (right; apply planets_step_other; discriminate).
  left; reflexivity.
Qed.

(** ** The glow tier *)

Lemma tier_ramps_differ (t t' : Tier) (i : Q) :
  tier_ramp t i = tier_ramp t' i -> t = t'.
Proof. destruct t, t'; cbn; intros H; congruence. Qed.

(** C4.  The glow's colour ramp is the one of the tier the priority
    speaking > verified > running > idle selects, on each of the five
    layers; the four ramps differ, and a state that is both speaking and
    verified gets the speaking ramp, not the verified one. *)
Theorem glow_tier_priority (st : State) (i : Q) :
  glowGradient st i = tier_ramp (priority_tier st) i /\
  glowLayers st = map (tier_ramp (priority_tier st)) [5; 4; 3; 2; 1] /\
  (forall r score level,
     let both := mkState r true score level true in
     priority_tier both = tier_speaking /\
     glowGradient both i = tier_ramp tier_speaking i /\
     glowGradient both i <> tier_ramp tier_verified i).
Proof.
  assert (H : forall s j, glowGradient s j = tier_ramp (priority_tier s) j).
  { intros s j. unfold glowGradient, priority_tier.
    destruct (vadSpeaking s), (speakerVerified s), (running s); reflexivity. }
  split; [apply H |].
  split.
  { unfold glowLayers. apply map_ext. intros a. apply H. }
  intros r score level both.
  split; [reflexivity |].
  split; [reflexivity |].
  intros Heq. change (glowGradient both i) with (tier_ramp tier_speaking i) in Heq.
  apply tier_ramps_differ in Heq. discriminate.
Qed.

(** ** Angles only grow *)

Lemma steady_handleMessage (msg : Message) (w : World) :
  steady w -> steady (handleMessage msg w).
Proof.
  intros [Hs Hp]. destruct msg; try (split; assumption).
  split; [| exact Hp].
  cbn [handleMessage set_audio animationSpeed]. apply Q.le_max_l.
Qed.

Lemma steady_drawSolarSystem (w : World) :
  steady w -> steady (drawSolarSystem w).
Proof.
  intros [Hs Hp]. split; [exact Hs |].
  cbn [drawSolarSystem planets]. apply Forall_map.
  revert Hp. apply Forall_impl. intros p Hp. exact Hp.
Qed.

Lemma animationSpeed_step_other (e : Event) (w : World) :
  (forall i msg, e <> ev_message i msg) -> e <> ev_frame ->
  animationSpeed (step e w) = animationSpeed w.
Proof.
  intros Hm Hf.
  destruct e as [| | | i | i | i | i msg | dt | | i]; cbn [step]; try congruence.
  - reflexivity.
  - unfold toggleAgent.
    destruct (current_socket w) as [[i s] |]; [| reflexivity].
    destruct (is_open (readyState s)); [| reflexivity].
    destruct (running (state w)); reflexivity.
  - destruct (socket_state i w) as [[] |]; try reflexivity.
    cbn. unfold set_readyState.
    destruct (nth_error (sockets w) i); reflexivity.
  - destruct (socket_state i w) as [[] |]; try reflexivity;
      cbn; unfold set_readyState;
      destruct (nth_error (sockets w) i); reflexivity.
  - destruct (socket_state i w); reflexivity.
  - destruct (0 <=? dt)%Z; reflexivity.
  - destruct (pop_due (now w) (timers w)) as [[t rest] |]; [| reflexivity].
    destruct (callback t). reflexivity.
  - destruct (socket_state i w) as [[] |]; try reflexivity.
    unfold set_readyState. destruct (nth_error (sockets w) i); reflexivity.
Qed.

Lemma steady_step (e : Event) (w : World) : steady w -> steady (step e w).
Proof.
  intros Hw.
  destruct e as [| | | i | i | i | i msg | dt | | i];
    try (destruct Hw as [Hs Hp]; split;
         [ rewrite animationSpeed_step_other by discriminate; exact Hs
         | rewrite planets_step_other by discriminate; exact Hp ]).
  - cbn [step]. destruct (rafPending w); [| exact Hw].
    apply steady_drawSolarSystem. exact Hw.
  - cbn [step]. destruct (socket_state i w) as [[] |]; try exact Hw.
    apply steady_handleMessage. exact Hw.
Qed.

Lemma steady_boot (h : string) (d : Dom) : steady (boot h d).
Proof.
  split; [cbn; lra |].
  cbn [boot planets initial_planets].
  repeat (constructor; [reflexivity |]). constructor.
Qed.

Lemma reachable_steady (h : string) (d : Dom) (w : World) :
  reachable h d w -> steady w.
Proof.
  induction 1 as [| e w Hr IH].
  - apply steady_drawSolarSystem, steady_boot.
  - apply steady_step, IH.
Qed.

Lemma speedMultiplier_lower (w : World) :
  steady w -> 0.3 <= speedMultiplier w.
Proof.
  intros [Hs _]. unfold speedMultiplier.
  destruct (vadSpeaking (state w)); [lra |].
  destruct (running (state w)); lra.
Qed.

Lemma frame_lifts_angles (w : World) :
  steady w ->
  Forall2 (fun p p' => angle p <= angle p')
    (planets w) (planets (drawSolarSystem w)).
Proof.
  intros Hw. pose proof (speedMultiplier_lower w Hw) as Hm.
  destruct Hw as [_ Hp]. cbn [drawSolarSystem planets].
  induction Hp as [| p l Hpos Hl IH]; cbn [map]; constructor.
  - cbn [advance set_angle angle]. nra.
  - exact IH.
Qed.

Lemma Forall2_angle_refl (l : list Planet) :
  Forall2 (fun p p' => angle p <= angle p') l l.
Proof. induction l; constructor; [apply Qle_refl | assumption]. Qed.

Lemma reachable_frames (h : string) (d : Dom) (n : nat) (w : World) :
  reachable h d w -> rafPending w = true -> reachable h d (frames n w).
Proof.
  revert w. induction n as [| n IH]; intros w Hr Hraf; cbn [frames].
  - exact Hr.
  - apply IH; [| reflexivity].
    replace (drawSolarSystem w) with (step ev_frame w).
    + apply reach_step, Hr.
    + cbn [step]. rewrite Hraf. reflexivity.
Qed.

(** The planets after [n] frames, without the rest of the world. *)
Lemma planets_frames (n : nat) (w : World) :
  planets (frames n w)
  = Nat.iter n (map (advance (speedMultiplier w))) (planets w).
Proof.
  revert w. induction n as [| n IH]; intros w; cbn [frames].
  - reflexivity.
  - rewrite IH, Nat.iter_succ_r. reflexivity.
Qed.

(** C5, as the code has it.  The angle is never wrapped: in every world
    the script can reach, no frame and no other event lowers a planet's
    [angle]. *)
Theorem angles_never_decrease (h : string) (d : Dom) (w : World) (e : Event) :
  reachable h d w ->
  Forall2 (fun p p' => angle p <= angle p') (planets w) (planets (step e w)).
Proof.
  intros Hr. apply reachable_steady in Hr.
  destruct e;
    try (rewrite planets_step_other by discriminate; apply Forall2_angle_refl).
  cbn [step]. destruct (rafPending w); [| apply Forall2_angle_refl].
  change (planets (drawSolarSystem (clear_raf w)))
    with (planets (drawSolarSystem w)).
  apply frame_lifts_angles, Hr.
Qed.

Lemma angles_never_decrease_witness :
  reachable "localhost" blank (loaded "localhost" blank) /\
  Forall2 (fun p p' => angle p <= angle p')
    (planets (loaded "localhost" blank))
    (planets (step ev_frame (loaded "localhost" blank))).
Proof.
  split; [apply reach_loaded |].
  apply (angles_never_decrease "localhost" blank (loaded "localhost" blank)
           ev_frame (reach_loaded "localhost" blank)).
Defined.

(** [n] frames at one multiplier add [n] times the step. *)
Lemma iter_advance (m : Q) (n : nat) (p : Planet) :
  name (Nat.iter n (advance m) p) = name p /\
  speed (Nat.iter n (advance m) p) = speed p /\
  angle (Nat.iter n (advance m) p)
    == angle p + inject_Z (Z.of_nat n) * (speed p * m).
Proof.
  induction n as [| n [IHn [IHs IHa]]].
  - change (Nat.iter 0 (advance m) p) with p. cbn [Z.of_nat].
    split; [reflexivity | split; [reflexivity |]].
    change (inject_Z 0) with 0. ring.
  - rewrite Nat.iter_succ. cbn [advance set_angle name speed angle].
    split; [exact IHn | split; [exact IHs |]].
    rewrite IHa, IHs, Nat2Z.inj_succ. unfold Z.succ.
    rewrite inject_Z_plus. change (inject_Z 1) with 1. ring.
Qed.

Lemma iter_map {A : Type} (f : A -> A) (n : nat) (l : list A) :
  Nat.iter n (map f) l = map (Nat.iter n f) l.
Proof.
  induction n as [| n IH].
  - symmetry. apply map_id.
  - rewrite !Nat.iter_succ, IH, map_map. reflexivity.
Qed.

(** C5, as stated: nothing wraps the angle.  From the loaded page, 600
    idle frames take Mercury's angle to 7.212, past a full turn
    (2 * Math.PI is 6.283...). *)
Lemma angle_passes_full_turn :
  let w := frames 600 (loaded "localhost" blank) in
  reachable "localhost" blank w /\
  exists p, In p (planets w) /\ name p = "Mercury" /\ 2 * Math_PI < angle p.
Proof.
  cbv zeta. split.
  - apply reachable_frames; [apply reach_loaded | reflexivity].
  - rewrite planets_frames.
    change (speedMultiplier (loaded "localhost" blank)) with 0.3.
    change (planets (loaded "localhost" blank))
      with (Nat.iter 1 (map (advance 0.3)) initial_planets).
    rewrite <- Nat.iter_add, iter_map.
    exists (Nat.iter (600 + 1) (advance 0.3)
              (mkPlanet "Mercury" 45 0.04 3 "#b5b5b5" false 0)).
    destruct (iter_advance 0.3 (600 + 1)
                (mkPlanet "Mercury" 45 0.04 3 "#b5b5b5" false 0))
      as [Hname [_ Hangle]].
    split; [| split].
    + apply in_map. left. reflexivity.
    + exact Hname.
    + rewrite Hangle. reflexivity.
Qed.

(** ** A repeated [state] message *)

Lemma updateUI_twice (st : State) (d : Dom) :
  updateUI st (updateUI st d) = updateUI st d.
Proof.
  destruct st as [r sv score level vs].
  destruct r, sv, vs; reflexivity.
Qed.

Lemma socket_state_handleMessage (i : nat) (msg : Message) (w : World) :
  socket_state i (handleMessage msg w) = socket_state i w.
Proof. destruct msg; reflexivity. Qed.

(** C6.  Handling the same [state] message a second time changes
    nothing: the world after two is the world after one, and with it
    [state] and every element the script writes; the same holds of the
    message arriving twice on a socket. *)
Theorem state_message_idempotent
  (r sv : bool) (score : Q) (vs : bool) (w : World) :
  let m := state_msg r sv score vs in
  handleMessage m (handleMessage m w) = handleMessage m w /\
  state (handleMessage m (handleMessage m w)) = state (handleMessage m w) /\
  dom (handleMessage m (handleMessage m w)) = dom (handleMessage m w) /\
  (forall i, step (ev_message i m) (step (ev_message i m) w)
             = step (ev_message i m) w).
Proof.
  cbv zeta.
  assert (H : handleMessage (state_msg r sv score vs)
                (handleMessage (state_msg r sv score vs) w)
              = handleMessage (state_msg r sv score vs) w).
  { unfold handleMessage, set_dom, set_state. cbn.
    rewrite updateUI_twice. reflexivity. }
  split; [exact H |].
  split; [rewrite H; reflexivity |].
  split; [rewrite H; reflexivity |].
  intros i. cbn [step].
  destruct (socket_state i w) as [rs |] eqn:Hs.
  - destruct rs; cbn [step]; rewrite ?Hs; try reflexivity.
    unfold ws_onmessage. rewrite socket_state_handleMessage, Hs. exact H.
  - rewrite Hs. reflexivity.
Qed.

(** ** The control while the connection is not open *)

(** C7.  With [ws] unset or its socket not [OPEN], [toggleAgent] writes
    one error line to the console and does nothing else: no socket gets
    a frame, [state] (and so [running]) is as before, and the call
    returns normally. *)
Theorem toggle_while_not_open (w : World) :
  connection_open w = false ->
  toggleAgent w = log (console_error "WebSocket not connected") w /\
  sockets (toggleAgent w) = sockets w /\
  map sent (sockets (toggleAgent w)) = map sent (sockets w) /\
  state (toggleAgent w) = state w /\
  running (state (toggleAgent w)) = running (state w) /\
  console (toggleAgent w)
    = (console w ++ [console_error "WebSocket not connected"])%list.
Proof.
  unfold connection_open. intros Hclosed.
  assert (H : toggleAgent w = log (console_error "WebSocket not connected") w).
  { unfold toggleAgent.
    destruct (current_socket w) as [[i s] |]; [| reflexivity].
    rewrite Hclosed. reflexivity. }
  rewrite H. repeat split.
Qed.

Lemma toggle_while_not_open_witness :
  let w := connect (boot "localhost" blank) in
  connection_open w = false /\
  sockets (toggleAgent w) = sockets w /\
  running (state (toggleAgent w)) = running (state w).
Proof.
  cbv zeta.
  assert (Hc : connection_open (connect (boot "localhost" blank)) = false)
    by reflexivity.
  split; [exact Hc |].
  destruct (toggle_while_not_open _ Hc) as [_ [Hs [_ [_ [Hr _]]]]].
  split; [exact Hs | exact Hr].
Defined.

(** ** Reconnecting *)

Lemma length_set_nth {A : Type} (i : nat) (x : A) (l : list A) :
  List.length (set_nth i x l) = List.length l.
Proof.
  revert i. induction l as [| y l IH]; intros [| i]; cbn; congruence.
Qed.

Lemma onclose_schedules_one (w : World) :
  timers (ws_onclose w)
    = (timers w ++ [mkTimer (now w + 2000)%Z cb_connect])%list /\
  sockets (ws_onclose w) = sockets w /\
  now (ws_onclose w) = now w /\
  ws (ws_onclose w) = ws w.
Proof. repeat split. Qed.

(** What one close does when the script holds a socket and no timer. *)
Lemma close_current_live (w : World) :
  live w ->
  exists i, ws w = Some i /\
    close_current w = ws_onclose (set_readyState i CLOSED w) /\
    timers (close_current w) = [mkTimer (now w + 2000)%Z cb_connect] /\
    now (close_current w) = now w /\
    List.length (sockets (close_current w)) = List.length (sockets w).
Proof.
  intros [Ht [i [r [Hws [Hs Hr]]]]]. exists i.
  assert (Hc : close_current w = ws_onclose (set_readyState i CLOSED w)).
  { unfold close_current. rewrite Hws. cbn [step]. rewrite Hs.
    destruct r; congruence. }
  split; [exact Hws |]. split; [exact Hc |]. rewrite Hc.
  unfold socket_state in Hs. unfold set_readyState.
  destruct (nth_error (sockets w) i) as [s |]; [| discriminate].
  cbn. rewrite Ht, length_set_nth. repeat split.
Qed.

Lemma pop_due_single (t : Z) (x : Timer) :
  pop_due t [x] = if (due x <=? t)%Z then Some (x, []) else None.
Proof. cbn. destruct (due x <=? t)%Z; reflexivity. Qed.

Lemma reconnect_round_live (w : World) :
  live w ->
  reconnect_round w
    = connect (set_clock (close_current w) (now w + 2000)%Z []) /\
  live (reconnect_round w) /\
  List.length (sockets (reconnect_round w)) = S (List.length (sockets w)) /\
  now (reconnect_round w) = (now w + 2000)%Z.
Proof.
  intros Hw. destruct (close_current_live w Hw) as [i [_ [_ [Ht [Hn Hl]]]]].
  assert (Hr : reconnect_round w
               = connect (set_clock (close_current w) (now w + 2000)%Z [])).
  { unfold reconnect_round. cbn [step]. change (0 <=? 2000)%Z with true.
    cbv iota. cbn [now timers set_clock]. rewrite Ht, Hn, pop_due_single.
    cbn [due]. rewrite Z.leb_refl. reflexivity. }
  split; [exact Hr |]. rewrite Hr.
  split; [| split].
  - split; [reflexivity |].
    exists (List.length (sockets (close_current w))), CONNECTING.
    split; [reflexivity |]. split; [| discriminate].
    unfold socket_state, connect. cbn [sockets set_ws set_clock].
    rewrite nth_error_app2 by apply Nat.le_refl.
    rewrite Nat.sub_diag. reflexivity.
  - unfold connect. cbn [sockets set_ws set_clock].
    rewrite length_app, Hl. cbn. apply Nat.add_1_r.
  - reflexivity.
Qed.

Lemma nothing_fires_early (w : World) (dt : Z) :
  live w -> (0 <= dt < 2000)%Z ->
  step ev_timer (step (ev_tick dt) (close_current w))
  = step (ev_tick dt) (close_current w).
Proof.
  intros Hw Hdt. destruct (close_current_live w Hw) as [i [_ [_ [Ht [Hn _]]]]].
  cbn [step]. replace (0 <=? dt)%Z with true by (symmetry; apply Z.leb_le; lia).
  cbn [now timers set_clock]. rewrite Ht, Hn, pop_due_single. cbn [due].
  replace (now w + 2000 <=? now w + dt)%Z with false
    by (symmetry; apply Z.leb_gt; lia).
  reflexivity.
Qed.

(** C8.  A close schedules one timer, [connect], due 2000 ms later, and
    creates no socket itself.  Starting with a socket and no timer, after
    any number [n] of rounds (close, 2000 ms, timer) the script again
    holds one fresh socket and no timer, [n] sockets were created, and
    the next close does the same as the first: one timer, due 2000 ms
    after it, nothing firing earlier, [connect] running when it is due. *)
Theorem reconnect_after_every_close (n : nat) (w : World) :
  live w ->
  let wn := reconnect_rounds n w in
  live wn /\
  List.length (sockets wn) = (List.length (sockets w) + n)%nat /\
  now wn = (now w + 2000 * Z.of_nat n)%Z /\
  timers (close_current wn) = [mkTimer (now wn + 2000)%Z cb_connect] /\
  List.length (sockets (close_current wn)) = List.length (sockets wn) /\
  (forall dt, (0 <= dt < 2000)%Z ->
     step ev_timer (step (ev_tick dt) (close_current wn))
     = step (ev_tick dt) (close_current wn)) /\
  reconnect_round wn
    = connect (set_clock (close_current wn) (now wn + 2000)%Z []) /\
  (forall w',
     timers (ws_onclose w')
       = (timers w' ++ [mkTimer (now w' + 2000)%Z cb_connect])%list /\
     sockets (ws_onclose w') = sockets w').
Proof.
  intros Hw. cbv zeta.
  assert (Hn : live (reconnect_rounds n w) /\
               List.length (sockets (reconnect_rounds n w))
                 = (List.length (sockets w) + n)%nat /\
               now (reconnect_rounds n w) = (now w + 2000 * Z.of_nat n)%Z).
  { revert w Hw. induction n as [| n IH]; intros w Hw; cbn [reconnect_rounds].
    - split; [exact Hw |]. split; [lia | cbn [Z.of_nat]; lia].
    - destruct (reconnect_round_live w Hw) as [_ [Hl [Hlen Hnow]]].
      destruct (IH _ Hl) as [Hl' [Hlen' Hnow']].
      split; [exact Hl' |]. rewrite Hlen', Hlen, Hnow', Hnow. split; lia. }
  destruct Hn as [Hl [Hlen Hnow]].
  destruct (close_current_live _ Hl) as [i [_ [_ [Ht [_ Hcl]]]]].
  split; [exact Hl |]. split; [exact Hlen |]. split; [exact Hnow |].
  split; [exact Ht |]. split; [exact Hcl |].
  split; [intros dt Hdt; apply nothing_fires_early; assumption |].
  split; [apply reconnect_round_live; exact Hl |].
  intros w'. split; reflexivity.
Qed.

Lemma reconnect_after_every_close_witness :
  let w := step (ev_open 0) (step ev_DOMContentLoaded (loaded "localhost" blank)) in
  live w /\
  List.length (sockets (reconnect_rounds 3 w)) = 4%nat /\
  now (reconnect_rounds 3 w) = 6000%Z.
Proof.
  cbv zeta.
  assert (Hl : live (step (ev_open 0)
                       (step ev_DOMContentLoaded (loaded "localhost" blank)))).
  { split; [reflexivity |]. exists 0%nat, OPEN.
    split; [reflexivity |]. split; [reflexivity | discriminate]. }
  split; [exact Hl |].
  destruct (reconnect_after_every_close 3 _ Hl) as [_ [Hlen [Hnow _]]].
  split; [exact Hlen | exact Hnow].
Defined.

(** ** The speaker message *)

(** C9, as the code has it.  After the message
    [{type: speaker, verified: true, score: 0.87}] the score bar is 87%
    wide and reads 87%; the badge says Verified when [running] is set,
    and Waiting... when it is not. *)
Theorem speaker_message_shows_score (w : World) :
  let w' := handleMessage (speaker_msg true 0.87) w in
  score_fill_width (dom w') = "87%" /\
  score_value_text (dom w') = "87%" /\
  speakerVerified (state w') = true /\
  badge_text_text (dom w')
    = (if running (state w) then "Verified" else "Waiting...") /\
  speaker_badge_class (dom w')
    = (if running (state w) then "speaker-badge verified"
       else "speaker-badge unknown") /\
  badge_icon_text (dom w') = (if running (state w) then "✅" else "❓").
Proof.
  cbv zeta. cbn [handleMessage set_dom set_state dom state].
  unfold updateSpeakerStatus.
  cbn [running speakerVerified speakerScore score_fill_width
       score_value_text badge_text_text speaker_badge_class badge_icon_text].
  destruct (running (state w)); repeat split.
Qed.

(** C9, as stated, on a page whose agent is not running (as it is when
    the page has just connected): the badge says Waiting..., not
    Verified. *)
Lemma speaker_message_while_stopped :
  let w0 := step (ev_open 0)
              (step ev_DOMContentLoaded (loaded "localhost" blank)) in
  let w := step (ev_message 0 (speaker_msg true 0.87)) w0 in
  running (state w0) = false /\
  score_fill_width (dom w) = "87%" /\
  badge_text_text (dom w) = "Waiting..." /\
  badge_text_text (dom w) <> "Verified".
Proof.
  cbv zeta. repeat split. discriminate.
Qed.

(** ** Lightening and darkening *)

Module ColorBlendFacts.
Import ColorBlend.

Lemma hex_digit_range (c : ascii) (v : Z) :
  hex_digit c = Some v -> (0 <= v < 16)%Z.
Proof.
  unfold hex_digit. set (n := Z.of_nat (nat_of_ascii c)).
  destruct ((48 <=? n)%Z && (n <=? 57)%Z) eqn:E1.
  { intros [= <-]. apply andb_prop in E1. lia. }
  destruct ((97 <=? n)%Z && (n <=? 102)%Z) eqn:E2.
  { intros [= <-]. apply andb_prop in E2. lia. }
  destruct ((65 <=? n)%Z && (n <=? 70)%Z) eqn:E3.
  { intros [= <-]. apply andb_prop in E3. lia. }
  discriminate.
Qed.

Lemma hex_digits_cons (c : ascii) (v : Z) (rest : string) (acc : Z) :
  hex_digit c = Some v ->
  hex_digits (String c rest) acc = hex_digits rest (acc * 16 + v)%Z.
Proof. intros H. cbn [hex_digits]. rewrite H. reflexivity. Qed.

(** A string that opens with two hexadecimal digits has no white space,
    no sign and no [0x] to skip. *)
Lemma parseInt16_two_digits (c1 c2 : ascii) (v1 v2 : Z) (rest : string) :
  hex_digit c1 = Some v1 -> hex_digit c2 = Some v2 ->
  parseInt16 (String c1 (String c2 rest))
  = double_of_Z (hex_digits (String c1 (String c2 rest)) 0).
Proof.
  intros H1 H2.
  destruct c1 as [[] [] [] [] [] [] [] []];
    try (vm_compute in H1; discriminate H1);
    try reflexivity.
  destruct c2 as [[] [] [] [] [] [] [] []];
    try (vm_compute in H2; discriminate H2);
    reflexivity.
Qed.

Lemma ToInt32_small (n : Z) :
  (0 <= n < 2147483648)%Z -> ToInt32 (finite n) = n.
Proof. intros H. unfold ToInt32. rewrite Z.mod_small; lia. Qed.

Lemma double_of_Z_small (n : Z) :
  (0 <= n < 2147483648)%Z -> double_of_Z n = finite n.
Proof.
  intros H. unfold double_of_Z.
  replace (Z.abs n <? 2 ^ 53)%Z with true; [reflexivity |].
  symmetry. apply Z.ltb_lt. rewrite Z.abs_eq by lia.
  change (2 ^ 53)%Z with 9007199254740992%Z. lia.
Qed.

(** The number a six-digit colour parses to, and its three bytes. *)
Lemma parse_six_digits (c1 c2 c3 c4 c5 c6 : ascii) (v1 v2 v3 v4 v5 v6 : Z) :
  hex_digit c1 = Some v1 -> hex_digit c2 = Some v2 ->
  hex_digit c3 = Some v3 -> hex_digit c4 = Some v4 ->
  hex_digit c5 = Some v5 -> hex_digit c6 = Some v6 ->
  let color :=
    String "#" (String c1 (String c2 (String c3 (String c4 (String c5
      (String c6 EmptyString)))))) in
  let num := parseInt16 (replace_hash color) in
  num = finite (65536 * (16 * v1 + v2) + 256 * (16 * v3 + v4)
                + (16 * v5 + v6))%Z /\
  sar num 16 = (16 * v1 + v2)%Z /\
  band (sar num 8) 255 = (16 * v3 + v4)%Z /\
  band (ToInt32 num) 255 = (16 * v5 + v6)%Z.
Proof.
  intros H1 H2 H3 H4 H5 H6 color num.
  pose proof (hex_digit_range _ _ H1). pose proof (hex_digit_range _ _ H2).
  pose proof (hex_digit_range _ _ H3). pose proof (hex_digit_range _ _ H4).
  pose proof (hex_digit_range _ _ H5). pose proof (hex_digit_range _ _ H6).
  assert (Hnum : num = finite (65536 * (16 * v1 + v2) + 256 * (16 * v3 + v4)
                               + (16 * v5 + v6))%Z).
  { subst num color. cbn [replace_hash]. change (Ascii.eqb "#" "#") with true.
    cbv iota. rewrite (parseInt16_two_digits c1 c2 v1 v2) by assumption.
    rewrite (hex_digits_cons c1 v1), (hex_digits_cons c2 v2),
      (hex_digits_cons c3 v3), (hex_digits_cons c4 v4),
      (hex_digits_cons c5 v5), (hex_digits_cons c6 v6) by assumption.
    cbn [hex_digits]. rewrite double_of_Z_small by lia. f_equal. ring. }
  rewrite Hnum. split; [reflexivity |].
  unfold sar, band. rewrite ToInt32_small by lia.
  change 255%Z with (Z.ones 8). rewrite !Z.land_ones by lia.
  rewrite !Z.shiftr_div_pow2 by lia.
  change (2 ^ 16)%Z with 65536%Z. change (2 ^ 8)%Z with 256%Z.
  repeat split; Z.div_mod_to_equations; lia.
Qed.

Lemma Math_round_spec (x : Q) :
  inject_Z (Math_round x) <= x + (1 # 2) /\
  x + (1 # 2) < inject_Z (Math_round x) + 1.
Proof.
  unfold Math_round. split; [apply Qfloor_le |].
  pose proof (Qlt_floor (x + (1 # 2))) as H.
  rewrite inject_Z_plus in H. exact H.
Qed.

Lemma Math_round_nonneg (x : Q) : 0 <= x -> (0 <= Math_round x)%Z.
Proof.
  intros Hx. unfold Math_round.
  change 0%Z with (Qfloor 0). apply Qfloor_resp_le. lra.
Qed.

End ColorBlendFacts.

(** *** The helpers on doubles *)

Module Binary64Facts.

Local Open Scope Z_scope.

Lemma double_of_Z_exact (z : Z) :
  Z.abs z < 2 ^ 53 -> double_of_Z z = finite z.
Proof.
  intros H. unfold double_of_Z.
  replace (Z.abs z <? 2 ^ 53) with true; [reflexivity |].
  symmetry. apply Z.ltb_lt. exact H.
Qed.

(** From 2^53 on, the rounded magnitude is 2^53 or more. *)
Lemma rounded_magnitude (a : Z) :
  2 ^ 53 <= a ->
  let k := Z.log2 a - 52 in
  let q := Z.shiftr a k in
  let r := Z.land a (Z.ones k) in
  let half := 2 ^ (k - 1) in
  let q' := if (half <? r) || ((r =? half) && Z.odd q) then q + 1 else q in
  2 ^ 53 <= q' * 2 ^ k.
Proof.
  intros Ha k q r half q'.
  assert (Hpos : 0 < a) by (change (2 ^ 53) with 9007199254740992 in Ha; lia).
  pose proof (Z.log2_spec a Hpos) as [Hlo _].
  assert (Hlog : 53 <= Z.log2 a).
  { change 53 with (Z.log2 (2 ^ 53)). apply Z.log2_le_mono. exact Ha. }
  assert (Hk : 1 <= k) by (subst k; lia).
  assert (Hp : 2 <= 2 ^ k).
  { change 2 with (2 ^ 1) at 1. apply Z.pow_le_mono_r; lia. }
  assert (Hq : 2 ^ 52 <= q).
  { subst q. rewrite Z.shiftr_div_pow2 by lia.
    apply Z.div_le_lower_bound; [lia |].
    rewrite <- Z.pow_add_r by lia.
    replace (k + 52) with (Z.log2 a) by (subst k; lia). exact Hlo. }
  assert (Hq' : q <= q').
  { subst q'. destruct ((half <? r) || ((r =? half) && Z.odd q)); lia. }
  change (2 ^ 53) with (2 ^ 52 * 2).
  apply Z.mul_le_mono_nonneg; lia.
Qed.

Lemma double_of_Z_big (z : Z) :
  2 ^ 53 <= z ->
  match double_of_Z z with
  | finite v => 2 ^ 53 <= v
  | infinite s => s = false
  | not_a_number => False
  end.
Proof.
  intros H.
  assert (Hz : 0 < z) by (change (2 ^ 53) with 9007199254740992 in H; lia).
  unfold double_of_Z. rewrite (Z.abs_eq z) by lia.
  replace (z <? 2 ^ 53) with false by (symmetry; apply Z.ltb_ge; exact H).
  pose proof (rounded_magnitude z H) as Hv. cbv zeta in Hv.
  destruct (2 ^ 1024 <=? _).
  - apply Z.ltb_ge. lia.
  - rewrite (Z.sgn_pos z) by exact Hz. rewrite Z.mul_1_l. exact Hv.
Qed.

Lemma double_of_Z_negative (z : Z) :
  z < 0 ->
  match double_of_Z z with
  | finite v => v < 0
  | infinite s => s = true
  | not_a_number => False
  end.
Proof.
  intros Hz. unfold double_of_Z.
  destruct (Z.abs z <? 2 ^ 53) eqn:E; [exact Hz |].
  apply Z.ltb_ge in E.
  pose proof (rounded_magnitude (Z.abs z) E) as Hv. cbv zeta in Hv.
  destruct (2 ^ 1024 <=? _).
  - apply Z.ltb_lt. exact Hz.
  - rewrite (Z.sgn_neg z) by exact Hz.
    change (2 ^ 53) with 9007199254740992 in Hv. lia.
Qed.

(** A channel and a whole [amt] that is not negative: the sum capped at
    255 and the difference stopped at 0 are the exact ones. *)
Lemma lighten_channel (ch k : Z) :
  0 <= ch <= 255 -> 0 <= k ->
  Num_min (finite 255) (Num_add (finite ch) (finite k))
  = finite (Z.min 255 (ch + k)).
Proof.
  intros Hch Hk. cbn [Num_add].
  destruct (Z_lt_le_dec (ch + k) (2 ^ 53)) as [Hs | Hb].
  - rewrite double_of_Z_exact by (rewrite Z.abs_eq; lia). reflexivity.
  - pose proof (double_of_Z_big _ Hb) as H.
    change (2 ^ 53) with 9007199254740992 in *.
    destruct (double_of_Z (ch + k)) as [| s | v]; [contradiction | |].
    + subst s. cbn. f_equal. lia.
    + cbn. f_equal. lia.
Qed.

Lemma darken_channel (ch k : Z) :
  0 <= ch <= 255 -> 0 <= k ->
  Num_max (finite 0) (Num_sub (finite ch) (finite k))
  = finite (Z.max 0 (ch - k)).
Proof.
  intros Hch Hk. unfold Num_sub. cbn [negate Num_add].
  replace (ch + - k) with (ch - k) by lia.
  destruct (Z_lt_le_dec (ch - k) 0) as [Hn | Hp].
  - pose proof (double_of_Z_negative _ Hn) as H.
    destruct (double_of_Z (ch - k)) as [| s | v]; [contradiction | |].
    + subst s. cbn. f_equal. lia.
    + cbn. f_equal. lia.
  - rewrite double_of_Z_exact
      by (rewrite Z.abs_eq by lia; change (2 ^ 53) with 9007199254740992; lia).
    reflexivity.
Qed.

Lemma rgb_whole (R G B : Z) :
  Z.abs R < 2 ^ 53 -> Z.abs G < 2 ^ 53 -> Z.abs B < 2 ^ 53 ->
  Binary64.rgb (finite R) (finite G) (finite B) = ColorBlend.rgb R G B.
Proof.
  intros HR HG HB. unfold Binary64.rgb, ColorBlend.rgb, Number_toString.
  rewrite !double_of_Z_exact by assumption. reflexivity.
Qed.

(** For a percentage that is not negative, [amt] is a whole number that
    is not negative, or +Infinity. *)
Lemma amt_sign (percent : float) :
  (0 <=? percent)%float = true ->
  match Binary64.Math_round_Num (2.55 * percent) with
  | finite k => (0 <= k)%Z
  | infinite s => s = false
  | not_a_number => False
  end.
Proof.
  intros H. rewrite leb_spec in H.
  unfold Binary64.Math_round_Num. rewrite mul_spec.
  change (Prim2SF 2.55)
    with (S754_finite false 5742089524897382 (-51)).
  change (Prim2SF 0) with (S754_zero false) in H.
  destruct (Prim2SF percent) as [s | s | | s m e].
  - cbn. lia.
  - destruct s; [discriminate H | reflexivity].
  - discriminate H.
  - destruct s; [discriminate H |].
    unfold SF64mul, SFmul. cbn [xorb].
    pose proof (Rounding.round_Z_spec false
                  (Z.pos (5742089524897382 * m)) (-51 + e) ltac:(lia)) as Hs.
    destruct (binary_round_aux prec emax false
                (Z.pos (5742089524897382 * m)) (-51 + e) loc_Exact)
      as [s | s | | s m' e']; try exact Hs.
    + lia.
    + apply Hs.
    + destruct Hs as [-> _]. destruct (0 <=? e')%Z.
      * apply Z.mul_nonneg_nonneg; [lia |]. apply Z.pow_nonneg. lia.
      * apply Z.shiftr_nonneg.
        assert (0 <= 2 ^ (- e'))%Z by (apply Z.pow_nonneg; lia). lia.
Qed.

End Binary64Facts.

(** C10, as the code has it.  For a colour of six hexadecimal digits
    and a percentage (a double) that is not negative, [amt],
    [Math.round(2.55 * percent)], is a whole number that is not negative
    or +Infinity; [lightenColor] adds it to each channel and caps the sum
    at 255, [darkenColor] subtracts it and stops at 0, and both print
    the three results as [rgb(R, G, B)], each within 0..255. *)
Theorem blend_channels
  (c1 c2 c3 c4 c5 c6 : ascii) (v1 v2 v3 v4 v5 v6 : Z) (percent : float) :
  ColorBlend.hex_digit c1 = Some v1 -> ColorBlend.hex_digit c2 = Some v2 ->
  ColorBlend.hex_digit c3 = Some v3 -> ColorBlend.hex_digit c4 = Some v4 ->
  ColorBlend.hex_digit c5 = Some v5 -> ColorBlend.hex_digit c6 = Some v6 ->
  (0 <=? percent)%float = true ->
  let color :=
    String "#" (String c1 (String c2 (String c3 (String c4 (String c5
      (String c6 EmptyString)))))) in
  let R := (16 * v1 + v2)%Z in
  let G := (16 * v3 + v4)%Z in
  let B := (16 * v5 + v6)%Z in
  match Binary64.Math_round_Num (2.55 * percent) with
  | finite amt =>
      (0 <= amt)%Z /\
      Binary64.lightenColor color percent
        = ColorBlend.rgb (Z.min 255 (R + amt)) (Z.min 255 (G + amt))
            (Z.min 255 (B + amt)) /\
      Binary64.darkenColor color percent
        = ColorBlend.rgb (Z.max 0 (R - amt)) (Z.max 0 (G - amt))
            (Z.max 0 (B - amt)) /\
      (0 <= Z.min 255 (R + amt) <= 255)%Z /\
      (0 <= Z.min 255 (G + amt) <= 255)%Z /\
      (0 <= Z.min 255 (B + amt) <= 255)%Z /\
      (0 <= Z.max 0 (R - amt) <= 255)%Z /\
      (0 <= Z.max 0 (G - amt) <= 255)%Z /\
      (0 <= Z.max 0 (B - amt) <= 255)%Z
  | infinite _ =>
      Binary64.lightenColor color percent = "rgb(255, 255, 255)" /\
      Binary64.darkenColor color percent = "rgb(0, 0, 0)"
  | not_a_number => False
  end.
Proof.
  intros H1 H2 H3 H4 H5 H6 Hp color R G B.
  pose proof (ColorBlendFacts.hex_digit_range _ _ H1).
  pose proof (ColorBlendFacts.hex_digit_range _ _ H2).
  pose proof (ColorBlendFacts.hex_digit_range _ _ H3).
  pose proof (ColorBlendFacts.hex_digit_range _ _ H4).
  pose proof (ColorBlendFacts.hex_digit_range _ _ H5).
  pose proof (ColorBlendFacts.hex_digit_range _ _ H6).
  destruct (ColorBlendFacts.parse_six_digits c1 c2 c3 c4 c5 c6
              v1 v2 v3 v4 v5 v6 H1 H2 H3 H4 H5 H6) as [_ [HR [HG HB]]].
  pose proof (Binary64Facts.amt_sign percent Hp) as Hamt.
  unfold Binary64.lightenColor, Binary64.darkenColor. subst color.
  cbv zeta. rewrite HR, HG, HB. fold R G B.
  assert (HRr : (0 <= R <= 255)%Z) by (subst R; lia).
  assert (HGr : (0 <= G <= 255)%Z) by (subst G; lia).
  assert (HBr : (0 <= B <= 255)%Z) by (subst B; lia).
  destruct (Binary64.Math_round_Num (2.55 * percent)) as [| s | amt];
    [contradiction | |].
  - subst s. split; reflexivity.
  - split; [exact Hamt |].
    rewrite !Binary64Facts.lighten_channel, !Binary64Facts.darken_channel
      by assumption.
    rewrite !Binary64Facts.rgb_whole
      by (change (2 ^ 53)%Z with 9007199254740992%Z; lia).
    split; [reflexivity |]. split; [reflexivity |].
    repeat split; lia.
Qed.

Lemma blend_channels_witness :
  Binary64.lightenColor "#806040" 50 = "rgb(255, 223, 191)" /\
  Binary64.darkenColor "#806040" 50 = "rgb(1, 0, 0)".
Proof.
  assert (H8 : ColorBlend.hex_digit "8" = Some 8%Z) by reflexivity.
  assert (H6 : ColorBlend.hex_digit "6" = Some 6%Z) by reflexivity.
  assert (H4 : ColorBlend.hex_digit "4" = Some 4%Z) by reflexivity.
  assert (H0 : ColorBlend.hex_digit "0" = Some 0%Z) by reflexivity.
  assert (Hp : (0 <=? 50)%float = true) by reflexivity.
  pose proof (blend_channels "8" "0" "6" "0" "4" "0" 8 0 6 0 4 0 50
                H8 H0 H6 H0 H4 H0 Hp) as H.
  cbv zeta in H.
  change (Binary64.Math_round_Num (2.55 * 50)) with (finite 127) in H.
  destruct H as [_ [Hl [Hd _]]].
  split; [exact Hl | exact Hd].
Defined.

(** C10, as stated, at a negative percentage: [lightenColor] has no
    floor and [darkenColor] no cap, so black lightened by -10 has
    channels of -25 and white darkened by -10 channels of 280, on
    doubles as in exact arithmetic. *)
Lemma blend_leaves_byte_range :
  Binary64.lightenColor "#000000" (-10) = "rgb(-25, -25, -25)" /\
  Binary64.darkenColor "#ffffff" (-10) = "rgb(280, 280, 280)" /\
  ColorBlend.lightenColor "#000000" (-10) = ColorBlend.rgb (-25) (-25) (-25) /\
  ColorBlend.lightenColor "#000000" (-10) = "rgb(-25, -25, -25)" /\
  ColorBlend.darkenColor "#ffffff" (-10) = ColorBlend.rgb 280 280 280 /\
  ColorBlend.darkenColor "#ffffff" (-10) = "rgb(280, 280, 280)" /\
  (-25 < 0)%Z /\ (255 < 280)%Z.
Proof. repeat split. Qed.

(** * The rest of the script *)

(** ** The views *)

(** X1.  The four view functions write disjoint sets of elements: any
    two of them commute, whatever states they are given, and each one
    overwrites what an earlier call of itself wrote. *)
Theorem views_commute_and_overwrite (a b : State) (c c' : bool) (d : Dom) :
  updateAgentStatus a (updateSpeakerStatus b d)
    = updateSpeakerStatus b (updateAgentStatus a d) /\
  updateAgentStatus a (updateVADStatus b d)
    = updateVADStatus b (updateAgentStatus a d) /\
  updateSpeakerStatus a (updateVADStatus b d)
    = updateVADStatus b (updateSpeakerStatus a d) /\
  updateConnectionStatus c (updateAgentStatus a d)
    = updateAgentStatus a (updateConnectionStatus c d) /\
  updateConnectionStatus c (updateSpeakerStatus a d)
    = updateSpeakerStatus a (updateConnectionStatus c d) /\
  updateConnectionStatus c (updateVADStatus a d)
    = updateVADStatus a (updateConnectionStatus c d) /\
  updateConnectionStatus c (updateUI a d)
    = updateUI a (updateConnectionStatus c d) /\
  updateAgentStatus a (updateAgentStatus b d) = updateAgentStatus a d /\
  updateSpeakerStatus a (updateSpeakerStatus b d) = updateSpeakerStatus a d /\
  updateVADStatus a (updateVADStatus b d) = updateVADStatus a d /\
  updateConnectionStatus c (updateConnectionStatus c' d)
    = updateConnectionStatus c d /\
  updateUI a (updateUI b d) = updateUI a d.
Proof.
  destruct a as [ra va sa la pa], b as [rb vb sb lb pb].
  destruct ra, va, pa, rb, vb, pb, c, c'; repeat split.
Qed.

Lemma updateUI_absorbs (st a : State) (d : Dom) :
  updateUI st (updateAgentStatus a d) = updateUI st d /\
  updateUI st (updateSpeakerStatus a d) = updateUI st d /\
  updateUI st (updateVADStatus a d) = updateUI st d /\
  updateUI st (updateUI a d) = updateUI st d.
Proof.
  destruct st as [r v s l p], a as [ra va sa la pa].
  destruct r, v, p, ra, va, pa; repeat split.
Qed.

(** X2.  A [state] message is a full snapshot: it brings the page in
    line with [state], and it wipes out what an earlier [state],
    [status], [speaker] or [vad] message did, leaving the world it would
    have left without that message; an earlier [audio] message it leaves
    standing, the two commuting. *)
Theorem state_message_is_a_snapshot
  (r sv : bool) (score : Q) (vs : bool) (w : World) :
  let snap := handleMessage (state_msg r sv score vs) in
  in_sync (snap w) /\
  (forall r' sv' score' vs',
     snap (handleMessage (state_msg r' sv' score' vs') w) = snap w) /\
  (forall r', snap (handleMessage (status_msg r') w) = snap w) /\
  (forall v' score', snap (handleMessage (speaker_msg v' score') w) = snap w) /\
  (forall sp', snap (handleMessage (vad_msg sp') w) = snap w) /\
  (forall type, snap (handleMessage (other_msg type) w) = snap w) /\
  (forall L, snap (handleMessage (audio_msg L) w)
             = handleMessage (audio_msg L) (snap w)).
Proof.
  cbv zeta. split.
  { unfold in_sync. cbn [handleMessage set_dom set_state state dom].
    apply updateUI_twice. }
  repeat split; intros;
    cbn [handleMessage set_dom set_state set_audio state dom audioLevel
         host ws sockets planets sunRadius targetSunRadius sunPulse
         animationSpeed console now timers rafPending];
    rewrite ?(proj1 (updateUI_absorbs _ _ _)),
      ?(proj1 (proj2 (updateUI_absorbs _ _ _))),
      ?(proj1 (proj2 (proj2 (updateUI_absorbs _ _ _)))),
      ?(proj2 (proj2 (proj2 (updateUI_absorbs _ _ _))));
    reflexivity.
Qed.

(** What the speaker badge reads after a refresh from [st]. *)
Lemma badge_text_updateUI (st : State) (d : Dom) :
  badge_text_text (updateUI st d)
  = if negb (running st) then "Waiting..."
    else if speakerVerified st then "Verified" else "Locked".
Proof. destruct st as [r v s l p]. destruct r, v, p; reflexivity. Qed.

Ltac sync_fields H :=
  unfold in_sync in *;
  cbn [handleMessage set_dom set_state set_audio state dom drawSolarSystem
       log set_console setTimeout set_clock ws_onopen ws_onclose
       ws_onerror] in *;
  match type of H with
  | updateUI ?st ?d = ?d =>
      destruct st as [r v s l p]; destruct d; destruct r, v, p;
      injection H as <- <- <- <- <- <- <- <- <- <- <- <-
  end.

(** X3.  Once the page is in line with [state], a [speaker], [vad] or
    [audio] message, a message of another type, and a frame keep it so;
    a [status] message keeps it so exactly when it repeats the value
    [running] already has: one that flips [running] refreshes the agent
    badge only and leaves the speaker badge, which depends on [running]
    too, showing the old reading. *)
Theorem sync_kept_except_by_status_flip (w : World) :
  in_sync w ->
  (forall v score, in_sync (handleMessage (speaker_msg v score) w)) /\
  (forall sp, in_sync (handleMessage (vad_msg sp) w)) /\
  (forall L, in_sync (handleMessage (audio_msg L) w)) /\
  (forall type, in_sync (handleMessage (other_msg type) w)) /\
  in_sync (drawSolarSystem w) /\
  (forall r, in_sync (handleMessage (status_msg r) w)
             <-> r = running (state w)).
Proof.
  intros H.
  split. { intros v' score'. sync_fields H; destruct v'; reflexivity. }
  split. { intros sp. sync_fields H; destruct sp; reflexivity. }
  split. { intros L. exact H. }
  split. { intros type. exact H. }
  split. { exact H. }
  intros r'. split.
  - intros H'. unfold in_sync in *.
    cbn [handleMessage set_dom set_state state dom] in H'.
    apply (f_equal badge_text_text) in H'. apply (f_equal badge_text_text) in H.
    rewrite badge_text_updateUI in H, H'.
    destruct (state w) as [r v s l p].
    cbn [running speakerVerified speakerScore audioLevel vadSpeaking] in *.
    replace (badge_text_text (updateAgentStatus (mkState r' v s l p) (dom w)))
      with (badge_text_text (dom w)) in H' by (destruct r'; reflexivity).
    rewrite <- H in H'.
    destruct r, r', v; try reflexivity; discriminate H'.
  - intros ->. sync_fields H; reflexivity.
Qed.

Lemma sync_kept_except_by_status_flip_witness :
  let w := handleMessage (state_msg false true 0.87 false)
             (boot "localhost" blank) in
  in_sync w /\
  in_sync (handleMessage (vad_msg true) w) /\
  ~ in_sync (handleMessage (status_msg true) w).
Proof.
  cbv zeta.
  assert (H : in_sync (handleMessage (state_msg false true 0.87 false)
                         (boot "localhost" blank))) by reflexivity.
  split; [exact H |].
  destruct (sync_kept_except_by_status_flip _ H) as [_ [Hv [_ [_ [_ Hs]]]]].
  split; [apply Hv |].
  intros Hin. apply Hs in Hin. discriminate Hin.
Defined.

(** ** The control while the connection is open *)

Lemma nth_error_set_nth {A : Type} (i j : nat) (x y : A) (l : list A) :
  nth_error l i = Some y ->
  nth_error (set_nth i x l) j = if Nat.eqb j i then Some x else nth_error l j.
Proof.
  revert i j. induction l as [| z l IH]; intros [| i] [| j] H; cbn in *;
    try discriminate; try reflexivity.
  apply IH. exact H.
Qed.

Lemma current_socket_nth (w : World) (i : nat) (s : WebSocket) :
  current_socket w = Some (i, s) ->
  ws w = Some i /\ nth_error (sockets w) i = Some s.
Proof.
  unfold current_socket. destruct (ws w) as [k |]; [| discriminate].
  destruct (nth_error (sockets w) k) as [t |] eqn:E; [| discriminate].
  intros [= <- <-]. split; [reflexivity | exact E].
Qed.

Lemma toggleAgent_open (w : World) (i : nat) (s : WebSocket) :
  current_socket w = Some (i, s) -> readyState s = OPEN ->
  toggleAgent w
  = ws_send i s
      (JSON_stringify (if running (state w) then cmd_stop else cmd_start)) w.
Proof.
  intros Hc Ho. unfold toggleAgent. rewrite Hc, Ho. cbn [is_open].
  destruct (running (state w)); reflexivity.
Qed.

Lemma current_socket_ws_send (w : World) (i : nat) (s : WebSocket)
  (data : string) :
  current_socket w = Some (i, s) ->
  current_socket (ws_send i s data w)
  = Some (i, mkWebSocket (url s) (readyState s) (sent s ++ [data])%list).
Proof.
  intros Hc. destruct (current_socket_nth w i s Hc) as [Hws Hn].
  unfold current_socket, ws_send. cbn [ws sockets set_ws]. rewrite Hws.
  rewrite (nth_error_set_nth i i _ s) by exact Hn.
  rewrite Nat.eqb_refl. reflexivity.
Qed.

(** X4.  With the socket behind [ws] open, [toggleAgent] hands it one
    frame, [stop] when [running] is set and [start] when it is not, and
    touches nothing else: every other socket, [state], the page, the
    console and the timers are as before.  In particular it does not
    flip [running] itself. *)
Theorem toggle_when_open_sends_one_command
  (w : World) (i : nat) (s : WebSocket) :
  current_socket w = Some (i, s) -> readyState s = OPEN ->
  let frame :=
    JSON_stringify (if running (state w) then cmd_stop else cmd_start) in
  nth_error (sockets (toggleAgent w)) i
    = Some (mkWebSocket (url s) OPEN (sent s ++ [frame])%list) /\
  (forall j, j <> i ->
     nth_error (sockets (toggleAgent w)) j = nth_error (sockets w) j) /\
  List.length (sockets (toggleAgent w)) = List.length (sockets w) /\
  ws (toggleAgent w) = ws w /\
  state (toggleAgent w) = state w /\
  dom (toggleAgent w) = dom w /\
  console (toggleAgent w) = console w /\
  timers (toggleAgent w) = timers w.
Proof.
  intros Hc Ho frame. subst frame. rewrite (toggleAgent_open w i s Hc Ho).
  destruct (current_socket_nth w i s Hc) as [_ Hn].
  unfold ws_send. cbn [sockets set_ws ws state dom console timers].
  rewrite Ho. split.
  { rewrite (nth_error_set_nth i i _ s) by exact Hn.
    rewrite Nat.eqb_refl. reflexivity. }
  split.
  { intros j Hj. rewrite (nth_error_set_nth i j _ s) by exact Hn.
    apply Nat.eqb_neq in Hj. rewrite Hj. reflexivity. }
  split; [apply length_set_nth |].
  repeat split.
Qed.

Lemma toggle_when_open_sends_one_command_witness :
  let w := step (ev_open 0)
             (step ev_DOMContentLoaded (loaded "localhost" blank)) in
  map sent (sockets (toggleAgent w)) = [[JSON_stringify cmd_start]] /\
  running (state (toggleAgent w)) = false.
Proof.
  cbv zeta.
  assert (Hc : current_socket
                 (step (ev_open 0)
                    (step ev_DOMContentLoaded (loaded "localhost" blank)))
               = Some (0%nat, mkWebSocket "ws://localhost/ws" OPEN []))
    by reflexivity.
  destruct (toggle_when_open_sends_one_command _ _ _ Hc eq_refl)
    as [_ [_ [_ [_ [Hs _]]]]].
  split; [reflexivity | rewrite Hs; reflexivity].
Defined.

(** X5.  Nothing holds a second press back: while the socket stays open
    and no message has changed [running], pressing the control twice sends
    the same command twice. *)
Theorem toggle_twice_sends_twice (w : World) (i : nat) (s : WebSocket) :
  current_socket w = Some (i, s) -> readyState s = OPEN ->
  let frame :=
    JSON_stringify (if running (state w) then cmd_stop else cmd_start) in
  current_socket (toggleAgent (toggleAgent w))
  = Some (i, mkWebSocket (url s) OPEN (sent s ++ [frame; frame])%list).
Proof.
  intros Hc Ho frame. subst frame.
  rewrite (toggleAgent_open w i s Hc Ho).
  pose proof (current_socket_ws_send w i s
                (JSON_stringify
                   (if running (state w) then cmd_stop else cmd_start)) Hc)
    as Hc1.
  rewrite (toggleAgent_open _ _ _ Hc1) by exact Ho.
  rewrite (current_socket_ws_send _ _ _ _ Hc1).
  cbn [url readyState sent ws_send state set_ws]. rewrite Ho, <- app_assoc.
  reflexivity.
Qed.

Lemma toggle_twice_sends_twice_witness :
  let w := step (ev_open 0)
             (step ev_DOMContentLoaded (loaded "localhost" blank)) in
  current_socket (toggleAgent (toggleAgent w))
  = Some (0%nat,
          mkWebSocket "ws://localhost/ws" OPEN
            [JSON_stringify cmd_start; JSON_stringify cmd_start]).
Proof.
  cbv zeta.
  assert (Hc : current_socket
                 (step (ev_open 0)
                    (step ev_DOMContentLoaded (loaded "localhost" blank)))
               = Some (0%nat, mkWebSocket "ws://localhost/ws" OPEN []))
    by reflexivity.
  exact (toggle_twice_sends_twice _ _ _ Hc eq_refl).
Defined.

(** ** What changes [state], and what the sockets keep *)

Lemma state_set_readyState (i : nat) (r : ReadyState) (w : World) :
  state (set_readyState i r w) = state w /\
  animationSpeed (set_readyState i r w) = animationSpeed w /\
  targetSunRadius (set_readyState i r w) = targetSunRadius w.
Proof.
  unfold set_readyState. destruct (nth_error (sockets w) i); repeat split.
Qed.

Lemma state_toggleAgent (w : World) :
  state (toggleAgent w) = state w /\
  animationSpeed (toggleAgent w) = animationSpeed w /\
  targetSunRadius (toggleAgent w) = targetSunRadius w.
Proof.
  unfold toggleAgent.
  destruct (current_socket w) as [[i s] |]; [| repeat split].
  destruct (is_open (readyState s)); [| repeat split].
  destruct (running (state w)); repeat split.
Qed.

(** X6.  Only a message changes what the script knows of the agent: an
    event that is no message leaves [state], [animationSpeed] and
    [targetSunRadius] as they are; [running] moves only with a [state]
    or [status] message and the two audio values only with an [audio]
    message.  Pressing the control, opening, closing, a timer and a
    frame change none of them. *)
Theorem only_messages_change_state (e : Event) (w : World) :
  ((exists i msg, e = ev_message i msg) \/
   state (step e w) = state w /\
   animationSpeed (step e w) = animationSpeed w /\
   targetSunRadius (step e w) = targetSunRadius w) /\
  ((exists i r sv score vs, e = ev_message i (state_msg r sv score vs)) \/
   (exists i r, e = ev_message i (status_msg r)) \/
   running (state (step e w)) = running (state w)) /\
  ((exists i L, e = ev_message i (audio_msg L)) \/
   animationSpeed (step e w) = animationSpeed w /\
   targetSunRadius (step e w) = targetSunRadius w).
Proof.
  assert (Hother : (exists i msg, e = ev_message i msg) \/
                   state (step e w) = state w /\
                   animationSpeed (step e w) = animationSpeed w /\
                   targetSunRadius (step e w) = targetSunRadius w).
  { destruct e as [| | | i | i | i | i msg | dt | | i]; cbn [step];
      try (left; eexists; eexists; reflexivity); right.
    - repeat split.
    - destruct (rafPending w); repeat split.
    - apply state_toggleAgent.
    - destruct (socket_state i w) as [[] |]; try (repeat split; fail).
      cbn. apply state_set_readyState.
    - destruct (socket_state i w) as [[] |]; try (repeat split; fail);
        cbn; apply state_set_readyState.
    - destruct (socket_state i w); repeat split.
    - destruct (0 <=? dt)%Z; repeat split.
    - destruct (pop_due (now w) (timers w)) as [[t rest] |]; [| repeat split].
      destruct (callback t). repeat split.
    - destruct (socket_state i w) as [[] |]; try (repeat split; fail).
      apply state_set_readyState. }
  split; [exact Hother |].
  split.
  - destruct Hother as [[i [msg ->]] | [Hs _]].
    + cbn [step]. destruct (socket_state i w) as [[] |];
        try (right; right; reflexivity).
      destruct msg as [r sv sc vs | r | v sc | sp | L | t];
        try (right; right; reflexivity).
      * left. exists i, r, sv, sc, vs. reflexivity.
      * right; left. exists i, r. reflexivity.
    + right; right. rewrite Hs. reflexivity.
  - destruct Hother as [[i [msg ->]] | [_ Ha]]; [| right; exact Ha].
    cbn [step]. destruct (socket_state i w) as [[] |];
      try (right; split; reflexivity).
    destruct msg as [r sv sc vs | r | v sc | sp | L | t];
      try (right; split; reflexivity).
    left. exists i, L. reflexivity.
Qed.

Lemma Forall_set_nth {A : Type} (P : A -> Prop) (i : nat) (x : A)
  (l : list A) :
  Forall P l -> P x -> Forall P (set_nth i x l).
Proof.
  intros Hl Hx. revert i. induction Hl as [| y l Hy Hl IH]; intros [| i];
    cbn; constructor; auto.
Qed.

Lemma set_nth_shape {A : Type} (i : nat) (x : A) (l : list A) :
  match set_nth i x l with
  | [] => l = []
  | _ :: rest => exists y rest', l = y :: rest' /\
                   List.length rest = List.length rest'
  end.
Proof.
  destruct l as [| y l]; destruct i as [| i]; cbn; try reflexivity.
  - exists y, l. split; reflexivity.
  - exists y, l. split; [reflexivity | apply length_set_nth].
Qed.

Lemma wired_set_sockets (h : string) (w : World) (i : nat) (x : WebSocket) :
  wired h w ->
  url x = "ws://" ++ h ++ "/ws" -> Forall is_command (sent x) ->
  wired h (set_ws w (ws w) (set_nth i x (sockets w))).
Proof.
  intros [Hh [Hs Hw]] Hu Hc. split; [exact Hh |]. split.
  - cbn [sockets set_ws]. apply Forall_set_nth; [exact Hs | split; assumption].
  - cbn [sockets set_ws ws].
    pose proof (set_nth_shape i x (sockets w)) as Hshape.
    destruct (set_nth i x (sockets w)) as [| z rest].
    + rewrite Hshape in Hw. exact Hw.
    + destruct Hshape as [y [rest' [Hl Hlen]]]. rewrite Hl in Hw.
      rewrite Hlen. exact Hw.
Qed.

Lemma wired_same_sockets (h : string) (w w' : World) :
  wired h w -> host w' = host w -> ws w' = ws w -> sockets w' = sockets w ->
  wired h w'.
Proof.
  intros [Hh [Hs Hw]] E1 E2 E3. unfold wired. rewrite E1, E2, E3.
  split; [exact Hh |]. split; [exact Hs | exact Hw].
Qed.

Lemma wired_nth (h : string) (w : World) (i : nat) (s : WebSocket) :
  wired h w -> nth_error (sockets w) i = Some s ->
  url s = "ws://" ++ h ++ "/ws" /\ Forall is_command (sent s).
Proof.
  intros [_ [Hs _]] Hn. rewrite Forall_forall in Hs. apply Hs.
  apply nth_error_In with i. exact Hn.
Qed.

Lemma wired_set_readyState (h : string) (i : nat) (r : ReadyState) (w : World) :
  wired h w -> wired h (set_readyState i r w).
Proof.
  intros Hw. unfold set_readyState.
  destruct (nth_error (sockets w) i) as [s |] eqn:E; [| exact Hw].
  destruct (wired_nth h w i s Hw E) as [Hu Hc].
  apply wired_set_sockets; assumption.
Qed.

Lemma wired_connect (h : string) (w : World) : wired h w -> wired h (connect w).
Proof.
  intros [Hh [Hs Hw]]. split; [exact Hh |]. split.
  - cbn [connect sockets set_ws]. apply Forall_app. split; [exact Hs |].
    constructor; [| constructor]. cbn [url sent]. rewrite Hh.
    split; [reflexivity | constructor].
  - cbn [connect sockets set_ws ws].
    destruct (sockets w) as [| y rest]; cbn; [reflexivity |].
    rewrite length_app. cbn. rewrite Nat.add_1_r. reflexivity.
Qed.

Lemma wired_toggleAgent (h : string) (w : World) :
  wired h w -> wired h (toggleAgent w).
Proof.
  intros Hw. unfold toggleAgent.
  destruct (current_socket w) as [[i s] |] eqn:Hc;
    [| apply (wired_same_sockets h w); [exact Hw | reflexivity ..]].
  destruct (current_socket_nth w i s Hc) as [_ Hn].
  destruct (wired_nth h w i s Hw Hn) as [Hu Hcmd].
  destruct (is_open (readyState s));
    [| apply (wired_same_sockets h w); [exact Hw | reflexivity ..]].
  destruct (running (state w)); unfold ws_send;
    (apply wired_set_sockets;
     [ exact Hw | exact Hu
     | cbn [sent]; apply Forall_app; split;
       [ exact Hcmd
       | constructor; [unfold is_command; auto | constructor] ] ]).
Qed.

Lemma wired_step (h : string) (e : Event) (w : World) :
  wired h w -> wired h (step e w).
Proof.
  intros Hw.
  destruct e as [| | | i | i | i | i msg | dt | | i]; cbn [step].
  - apply wired_connect, Hw.
  - destruct (rafPending w); [| exact Hw].
    apply (wired_same_sockets h w); [exact Hw | reflexivity ..].
  - apply wired_toggleAgent, Hw.
  - destruct (socket_state i w) as [[] |]; try exact Hw.
    apply (wired_same_sockets h (set_readyState i OPEN w));
      [apply wired_set_readyState, Hw | reflexivity ..].
  - destruct (socket_state i w) as [[] |]; try exact Hw;
      (apply (wired_same_sockets h (set_readyState i CLOSED w));
       [apply wired_set_readyState, Hw | reflexivity ..]).
  - destruct (socket_state i w); [| exact Hw].
    apply (wired_same_sockets h w); [exact Hw | reflexivity ..].
  - destruct (socket_state i w) as [[] |]; try exact Hw.
    apply (wired_same_sockets h w); [exact Hw | destruct msg; reflexivity ..].
  - destruct (0 <=? dt)%Z; [| exact Hw].
    apply (wired_same_sockets h w); [exact Hw | reflexivity ..].
  - destruct (pop_due (now w) (timers w)) as [[t rest] |]; [| exact Hw].
    destruct (callback t). cbn [run_callback]. apply wired_connect.
    apply (wired_same_sockets h w); [exact Hw | reflexivity ..].
  - destruct (socket_state i w) as [[] |]; try exact Hw.
    apply wired_set_readyState, Hw.
Qed.

Lemma reachable_wired (h : string) (d : Dom) (w : World) :
  reachable h d w -> wired h w.
Proof.
  induction 1 as [| e w Hr IH].
  - split; [reflexivity |]. split; [constructor | reflexivity].
  - apply wired_step, IH.
Qed.

(** X7.  The script never sends anything but the two commands: in every
    world it can reach, each frame handed to any socket is
    [{type: start}] or [{type: stop}]. *)
Theorem only_commands_are_sent (h : string) (d : Dom) (w : World) :
  reachable h d w ->
  forall s frame, In s (sockets w) -> In frame (sent s) -> is_command frame.
Proof.
  intros Hr s frame Hs Hf.
  destruct (reachable_wired h d w Hr) as [_ [Hall _]].
  rewrite Forall_forall in Hall. destruct (Hall s Hs) as [_ Hc].
  rewrite Forall_forall in Hc. apply Hc, Hf.
Qed.

Lemma only_commands_are_sent_witness :
  let w := run [ev_DOMContentLoaded; ev_open 0; ev_toggle]
             (loaded "localhost" blank) in
  reachable "localhost" blank w /\
  forall s frame, In s (sockets w) -> In frame (sent s) -> is_command frame.
Proof.
  cbv zeta.
  assert (Hr : reachable "localhost" blank
                 (run [ev_DOMContentLoaded; ev_open 0; ev_toggle]
                    (loaded "localhost" blank))).
  { cbn [run fold_left]. repeat apply reach_step. apply reach_loaded. }
  split; [exact Hr |].
  exact (only_commands_are_sent _ _ _ Hr).
Defined.

(** X8.  In every world the script can reach, each socket it made points
    at [ws://host/ws] for the page's host, and [ws] is [null] exactly
    while no socket was made and the newest socket afterwards: the socket
    the control writes to is always the last one [connect] made. *)
Theorem ws_is_the_newest_socket (h : string) (d : Dom) (w : World) :
  reachable h d w ->
  host w = h /\
  (forall s, In s (sockets w) -> url s = "ws://" ++ h ++ "/ws") /\
  (sockets w = [] -> ws w = None /\ current_socket w = None) /\
  (sockets w <> [] ->
   ws w = Some (List.length (sockets w) - 1)%nat /\
   exists s, current_socket w = Some ((List.length (sockets w) - 1)%nat, s) /\
             sockets w = (removelast (sockets w) ++ [s])%list).
Proof.
  intros Hr. destruct (reachable_wired h d w Hr) as [Hh [Hall Hw]].
  split; [exact Hh |]. split.
  { intros s Hs. rewrite Forall_forall in Hall. apply (Hall s Hs). }
  split.
  - intros E. rewrite E in Hw. unfold current_socket. rewrite Hw.
    split; reflexivity.
  - intros Hne. destruct (sockets w) as [| y rest] eqn:E; [congruence |].
    assert (Hl : (List.length (y :: rest) - 1 = List.length rest)%nat)
      by (cbn; lia).
    rewrite Hl. split; [exact Hw |].
    destruct (exists_last Hne) as [front [s Hs]].
    exists s. unfold current_socket. rewrite Hw, E, Hs.
    assert (Hlen : List.length rest = List.length front).
    { apply (f_equal (@List.length _)) in Hs. rewrite length_app in Hs.
      cbn in Hs. lia. }
    rewrite Hlen, nth_error_app2 by apply Nat.le_refl.
    rewrite Nat.sub_diag, removelast_last. split; reflexivity.
Qed.

Lemma reachable_reconnect_rounds (h : string) (d : Dom) (n : nat) (w : World) :
  reachable h d w -> reachable h d (reconnect_rounds n w).
Proof.
  revert w. induction n as [| n IH]; intros w Hr; cbn [reconnect_rounds].
  - exact Hr.
  - apply IH. unfold reconnect_round. do 2 apply reach_step.
    unfold close_current. destruct (ws w); [apply reach_step |]; exact Hr.
Qed.

Lemma ws_is_the_newest_socket_witness :
  let w := reconnect_rounds 2
             (step ev_DOMContentLoaded (loaded "localhost" blank)) in
  reachable "localhost" blank w /\ ws w = Some 2%nat.
Proof.
  cbv zeta.
  assert (Hr : reachable "localhost" blank
                 (reconnect_rounds 2
                    (step ev_DOMContentLoaded (loaded "localhost" blank)))).
  { apply reachable_reconnect_rounds, reach_step, reach_loaded. }
  split; [exact Hr |].
  destruct (ws_is_the_newest_socket _ _ _ Hr) as [_ [_ [_ Hn]]].
  apply Hn. discriminate.
Defined.

(** ** The animation's ranges *)

Lemma audio_speed_range (x : Q) :
  0.5 <= Math_max 0.5 (Math_min 3 x) /\ Math_max 0.5 (Math_min 3 x) <= 3.
Proof.
  unfold Math_max, Math_min. split; [apply Q.le_max_l |].
  apply Q.max_lub; [lra | apply Q.le_min_l].
Qed.

(** X9.  Whatever the level, an [audio] message leaves [animationSpeed]
    within 0.5..3 and [targetSunRadius] at 15 or more, and a louder level
    never gives a smaller speed or a smaller target. *)
Theorem audio_values_in_range_and_monotone (L L' : Q) (w : World) :
  L <= L' ->
  let quiet := handleMessage (audio_msg L) w in
  let loud := handleMessage (audio_msg L') w in
  0.5 <= animationSpeed quiet /\ animationSpeed quiet <= 3 /\
  15 <= targetSunRadius quiet /\
  animationSpeed quiet <= animationSpeed loud /\
  targetSunRadius quiet <= targetSunRadius loud.
Proof.
  intros HL. cbv zeta.
  cbn [handleMessage set_audio animationSpeed targetSunRadius].
  destruct (audio_speed_range ((L + 80) / 20)) as [Hlo Hhi].
  split; [exact Hlo |]. split; [exact Hhi |].
  unfold Math_max, Math_min. split.
  { pose proof (Q.le_max_l 0 ((L + 60) / 3)). lra. }
  split.
  - apply Q.max_le_compat_l, Q.min_le_compat_l.
    apply Qmult_le_compat_r; [lra | discriminate].
  - apply Qplus_le_r, Q.max_le_compat_l.
    apply Qmult_le_compat_r; [lra | discriminate].
Qed.

Lemma audio_values_in_range_and_monotone_witness :
  let w := boot "localhost" blank in
  animationSpeed (handleMessage (audio_msg (-70)) w)
  <= animationSpeed (handleMessage (audio_msg (-30)) w).
Proof.
  cbv zeta.
  assert (HL : -70 <= -30) by (vm_compute; discriminate).
  destruct (audio_values_in_range_and_monotone (-70) (-30)
              (boot "localhost" blank) HL) as [_ [_ [_ [H _]]]].
  exact H.
Defined.

Lemma tame_drawSolarSystem (w : World) :
  0.5 <= animationSpeed w /\ animationSpeed w <= 3 /\
  15 <= targetSunRadius w /\ 15 <= sunRadius w /\
  map descriptor (planets w) = map descriptor initial_planets ->
  tame (drawSolarSystem w).
Proof.
  intros [H1 [H2 [H3 [H4 H5]]]]. unfold tame.
  cbn [drawSolarSystem animationSpeed targetSunRadius sunRadius rafPending
       planets].
  split; [exact H1 |]. split; [exact H2 |]. split; [exact H3 |].
  split; [lra |]. split; [reflexivity |].
  rewrite map_map. exact H5.
Qed.

Lemma tame_handleMessage (msg : Message) (w : World) :
  tame w -> tame (handleMessage msg w).
Proof.
  intros [H1 [H2 [H3 [H4 [H5 H6]]]]].
  destruct msg; try (repeat split; assumption).
  unfold tame.
  cbn [handleMessage set_audio animationSpeed targetSunRadius sunRadius
       rafPending planets].
  destruct (audio_speed_range ((level + 80) / 20)) as [Hlo Hhi].
  split; [exact Hlo |]. split; [exact Hhi |].
  split. { pose proof (Q.le_max_l 0 ((level + 60) / 3)).
           unfold Math_max. lra. }
  repeat split; assumption.
Qed.

Lemma tame_same (w w' : World) :
  tame w ->
  animationSpeed w' = animationSpeed w ->
  targetSunRadius w' = targetSunRadius w ->
  sunRadius w' = sunRadius w -> rafPending w' = rafPending w ->
  planets w' = planets w -> tame w'.
Proof.
  intros Hw E1 E2 E3 E4 E5. unfold tame. rewrite E1, E2, E3, E4, E5. exact Hw.
Qed.

Lemma tame_step (e : Event) (w : World) : tame w -> tame (step e w).
Proof.
  intros Hw.
  destruct e as [| | | i | i | i | i msg | dt | | i]; cbn [step].
  - apply (tame_same w); [exact Hw | reflexivity ..].
  - destruct Hw as [H1 [H2 [H3 [H4 [H5 H6]]]]]. rewrite H5.
    apply tame_drawSolarSystem. repeat split; assumption.
  - apply (tame_same w); [exact Hw | ..];
      unfold toggleAgent;
      (destruct (current_socket w) as [[i s] |]; [| reflexivity]);
      (destruct (is_open (readyState s)); [| reflexivity]);
      destruct (running (state w)); reflexivity.
  - destruct (socket_state i w) as [[] |]; try exact Hw.
    apply (tame_same w); [exact Hw | ..];
      cbn; unfold set_readyState;
      destruct (nth_error (sockets w) i); reflexivity.
  - destruct (socket_state i w) as [[] |]; try exact Hw;
      (apply (tame_same w); [exact Hw | ..];
       cbn; unfold set_readyState;
       destruct (nth_error (sockets w) i); reflexivity).
  - destruct (socket_state i w); [| exact Hw].
    apply (tame_same w); [exact Hw | reflexivity ..].
  - destruct (socket_state i w) as [[] |]; try exact Hw.
    apply tame_handleMessage, Hw.
  - destruct (0 <=? dt)%Z; [| exact Hw].
    apply (tame_same w); [exact Hw | reflexivity ..].
  - destruct (pop_due (now w) (timers w)) as [[t rest] |]; [| exact Hw].
    destruct (callback t).
    apply (tame_same w); [exact Hw | reflexivity ..].
  - destruct (socket_state i w) as [[] |]; try exact Hw.
    apply (tame_same w); [exact Hw | ..];
      unfold set_readyState;
      destruct (nth_error (sockets w) i); reflexivity.
Qed.

Lemma reachable_tame (h : string) (d : Dom) (w : World) :
  reachable h d w -> tame w.
Proof.
  induction 1 as [| e w Hr IH].
  - apply tame_drawSolarSystem. cbn [boot animationSpeed targetSunRadius
      sunRadius planets]. repeat split; lra.
  - apply tame_step, IH.
Qed.

(** X10.  In every world the script can reach, [animationSpeed] is
    within 0.5..3, the multiplier a frame applies to the planets within
    0.3..3, and both the target and the current radius of the sun are at
    least 15, so no radius the frame draws with is negative. *)
Theorem animation_values_stay_in_range (h : string) (d : Dom) (w : World) :
  reachable h d w ->
  0.5 <= animationSpeed w /\ animationSpeed w <= 3 /\
  0.3 <= speedMultiplier w /\ speedMultiplier w <= 3 /\
  15 <= targetSunRadius w /\ 15 <= sunRadius w /\
  15 <= sunRadius (drawSolarSystem w).
Proof.
  intros Hr. destruct (reachable_tame h d w Hr) as [H1 [H2 [H3 [H4 _]]]].
  split; [exact H1 |]. split; [exact H2 |].
  assert (Hm : 0.3 <= speedMultiplier w /\ speedMultiplier w <= 3).
  { unfold speedMultiplier. destruct (vadSpeaking (state w)); [lra |].
    destruct (running (state w)); lra. }
  destruct Hm as [Hm1 Hm2].
  split; [exact Hm1 |]. split; [exact Hm2 |].
  split; [exact H3 |]. split; [exact H4 |].
  cbn [drawSolarSystem sunRadius]. lra.
Qed.

Lemma animation_values_stay_in_range_witness :
  let w := run [ev_DOMContentLoaded; ev_open 0; ev_message 0 (audio_msg 1000)]
             (loaded "localhost" blank) in
  reachable "localhost" blank w /\ animationSpeed w <= 3.
Proof.
  cbv zeta.
  assert (Hr : reachable "localhost" blank
                 (run [ev_DOMContentLoaded; ev_open 0;
                       ev_message 0 (audio_msg 1000)]
                    (loaded "localhost" blank))).
  { cbn [run fold_left]. repeat apply reach_step. apply reach_loaded. }
  split; [exact Hr |].
  destruct (animation_values_stay_in_range _ _ _ Hr) as [_ [H _]]. exact H.
Defined.

(** X11.  No planet is ever lost, added or changed: in every world the
    script can reach the planets are the eight of the literal, in
    order, differing from it in [angle] alone. *)
Theorem planets_stay_the_eight (h : string) (d : Dom) (w : World) :
  reachable h d w ->
  map descriptor (planets w) = map descriptor initial_planets /\
  map name (planets w)
  = ["Mercury"; "Venus"; "Earth"; "Mars"; "Jupiter"; "Saturn"; "Uranus";
     "Neptune"] /\
  List.length (planets w) = 8%nat.
Proof.
  intros Hr. destruct (reachable_tame h d w Hr) as [_ [_ [_ [_ [_ H6]]]]].
  split; [exact H6 |]. split.
  - change ["Mercury"; "Venus"; "Earth"; "Mars"; "Jupiter"; "Saturn";
            "Uranus"; "Neptune"]
      with (map (fun t => fst (fst (fst (fst (fst t)))))
              (map descriptor initial_planets)).
    rewrite <- H6, map_map. reflexivity.
  - apply (f_equal (@List.length _)) in H6. rewrite !length_map in H6.
    exact H6.
Qed.

Lemma planets_stay_the_eight_witness :
  let w := run [ev_DOMContentLoaded; ev_frame; ev_message 0 (audio_msg 0);
                ev_frame]
             (loaded "localhost" blank) in
  reachable "localhost" blank w /\ List.length (planets w) = 8%nat.
Proof.
  cbv zeta.
  assert (Hr : reachable "localhost" blank
                 (run [ev_DOMContentLoaded; ev_frame;
                       ev_message 0 (audio_msg 0); ev_frame]
                    (loaded "localhost" blank))).
  { cbn [run fold_left]. repeat apply reach_step. apply reach_loaded. }
  split; [exact Hr |].
  destruct (planets_stay_the_eight _ _ _ Hr) as [_ [_ H]]. exact H.
Defined.

(** ** Frames in a row *)

Lemma decay_range (n : nat) : 0 < decay n /\ decay n <= 1.
Proof.
  induction n as [| n [IH1 IH2]]; cbn [decay].
  - split; lra.
  - split; nra.
Qed.

(** X12.  The smoothing never overshoots and never backs off: with the
    target held, after any number of frames [sunRadius] lies between
    where it started and the target, and each further frame takes it no
    farther from the target. *)
Theorem smoothing_never_overshoots (n : nat) (w : World) :
  Qmin (sunRadius w) (targetSunRadius w) <= sunRadius (frames n w) /\
  sunRadius (frames n w) <= Qmax (sunRadius w) (targetSunRadius w) /\
  Qabs (sunRadius (frames (S n) w) - targetSunRadius w)
    <= Qabs (sunRadius (frames n w) - targetSunRadius w).
Proof.
  pose proof (smoothing_gap n w) as Hn.
  destruct (decay_range n) as [Hd0 Hd1].
  assert (Hbetween :
            Qmin (sunRadius w) (targetSunRadius w) <= sunRadius (frames n w)
            /\ sunRadius (frames n w)
               <= Qmax (sunRadius w) (targetSunRadius w)).
  { destruct (Qlt_le_dec (sunRadius w) (targetSunRadius w)) as [Hlt | Hge].
    - split; [apply Q.min_le_iff; left | apply Q.max_le_iff; right]; nra.
    - split; [apply Q.min_le_iff; right | apply Q.max_le_iff; left]; nra. }
  split; [apply Hbetween |]. split; [apply Hbetween |].
  rewrite (smoothing_gap (S n) w), Hn. cbn [decay].
  rewrite <- Qmult_assoc, Qabs_Qmult.
  rewrite (Qabs_pos 0.9) by lra.
  pose proof (Qabs_nonneg (decay n * (sunRadius w - targetSunRadius w))). lra.
Qed.

Lemma frames_keep (n : nat) (w : World) :
  state (frames n w) = state w /\
  animationSpeed (frames n w) = animationSpeed w /\
  dom (frames n w) = dom w /\ ws (frames n w) = ws w /\
  sockets (frames n w) = sockets w /\ console (frames n w) = console w /\
  timers (frames n w) = timers w /\ now (frames n w) = now w.
Proof.
  revert w. induction n as [| n IH]; intros w; cbn [frames].
  - repeat split.
  - destruct (IH (drawSolarSystem w)) as [H1 [H2 [H3 [H4 [H5 [H6 [H7 H8]]]]]]].
    rewrite H1, H2, H3, H4, H5, H6, H7, H8. repeat split.
Qed.

(** X13.  Frames touch the animation and nothing else: any number of
    frames in a row leave [state], the page, [ws], the sockets, the
    timers, the clock, the console, [animationSpeed], the target radius
    and with them the multiplier as they were, and no planet changes in
    anything but its [angle]. *)
Theorem frames_touch_only_the_animation (n : nat) (w : World) :
  state (frames n w) = state w /\
  dom (frames n w) = dom w /\
  ws (frames n w) = ws w /\
  sockets (frames n w) = sockets w /\
  timers (frames n w) = timers w /\
  now (frames n w) = now w /\
  console (frames n w) = console w /\
  animationSpeed (frames n w) = animationSpeed w /\
  targetSunRadius (frames n w) = targetSunRadius w /\
  speedMultiplier (frames n w) = speedMultiplier w /\
  map descriptor (planets (frames n w)) = map descriptor (planets w).
Proof.
  destruct (frames_keep n w) as [H1 [H2 [H3 [H4 [H5 [H6 [H7 H8]]]]]]].
  repeat (split; [assumption |]).
  split; [apply frames_targetSunRadius |].
  split; [unfold speedMultiplier; rewrite H1, H2; reflexivity |].
  rewrite planets_frames, iter_map, map_map.
  apply map_ext. intros p. clear.
  induction n as [| n IHn]; [reflexivity |].
  rewrite Nat.iter_succ. exact IHn.
Qed.

(** ** One connection, or one reconnect on its way *)

Lemma live_set_nth_same (i : nat) (x s : WebSocket) (l : list WebSocket) :
  nth_error l i = Some s -> is_live x = is_live s ->
  List.length (filter is_live (set_nth i x l))
  = List.length (filter is_live l).
Proof.
  revert i. induction l as [| y l IH]; intros [| i] Hn Hx; cbn in *;
    try discriminate.
  - injection Hn as ->. rewrite Hx. destruct (is_live s); reflexivity.
  - destruct (is_live y); cbn; rewrite (IH i Hn Hx); reflexivity.
Qed.

Lemma live_set_nth_closed (i : nat) (x s : WebSocket) (l : list WebSocket) :
  nth_error l i = Some s -> is_live s = true -> is_live x = false ->
  S (List.length (filter is_live (set_nth i x l)))
  = List.length (filter is_live l).
Proof.
  revert i. induction l as [| y l IH]; intros [| i] Hn Hs Hx; cbn in *;
    try discriminate.
  - injection Hn as ->. rewrite Hs, Hx. reflexivity.
  - destruct (is_live y); cbn; rewrite <- (IH i Hn Hs Hx); reflexivity.
Qed.

Lemma pop_due_length (t : Z) (l rest : list Timer) (x : Timer) :
  pop_due t l = Some (x, rest) -> List.length l = S (List.length rest).
Proof.
  revert x rest. induction l as [| y l IH]; intros x rest H; cbn in H;
    [discriminate |].
  destruct (due y <=? t)%Z.
  - injection H as _ <-. reflexivity.
  - destruct (pop_due t l) as [[z rest'] |]; [| discriminate].
    injection H as _ <-. cbn. rewrite (IH z rest' eq_refl). reflexivity.
Qed.

Lemma socket_state_nth (i : nat) (r : ReadyState) (w : World) :
  socket_state i w = Some r ->
  exists s, nth_error (sockets w) i = Some s /\ readyState s = r.
Proof.
  unfold socket_state. destruct (nth_error (sockets w) i) as [s |];
    [| discriminate].
  intros [= <-]. exists s. split; reflexivity.
Qed.

Lemma balance_toggleAgent (w : World) : balance (toggleAgent w) = balance w.
Proof.
  unfold toggleAgent.
  destruct (current_socket w) as [[i s] |] eqn:Hc; [| reflexivity].
  destruct (current_socket_nth w i s Hc) as [_ Hn].
  destruct (is_open (readyState s)); [| reflexivity].
  destruct (running (state w)); unfold balance, live_sockets, ws_send;
    cbn [sockets timers set_ws];
    rewrite (live_set_nth_same i _ s) by (exact Hn || reflexivity);
    reflexivity.
Qed.

Lemma balance_step (e : Event) (w : World) :
  e <> ev_DOMContentLoaded -> balance (step e w) = balance w.
Proof.
  intros He.
  destruct e as [| | | i | i | i | i msg | dt | | i]; cbn [step]; try congruence.
  - destruct (rafPending w); reflexivity.
  - apply balance_toggleAgent.
  - destruct (socket_state i w) as [r |] eqn:Hs; [| reflexivity].
    destruct (socket_state_nth i r w Hs) as [s [Hn Hr]].
    destruct r; try reflexivity.
    unfold balance, live_sockets, ws_onopen, set_readyState. rewrite Hn.
    cbn [sockets timers set_ws set_dom log set_console].
    rewrite (live_set_nth_same i _ s);
      [reflexivity | exact Hn | unfold is_live; rewrite Hr; reflexivity].
  - destruct (socket_state i w) as [r |] eqn:Hs; [| reflexivity].
    destruct (socket_state_nth i r w Hs) as [s [Hn Hr]].
    destruct r; try reflexivity;
      unfold balance, live_sockets, ws_onclose, set_readyState; rewrite Hn;
      cbn [sockets timers set_ws set_dom log set_console setTimeout set_clock];
      rewrite length_app; cbn [List.length];
      rewrite <- (live_set_nth_closed i (mkWebSocket (url s) CLOSED (sent s))
                    s (sockets w) Hn)
        by (unfold is_live; try rewrite Hr; reflexivity);
      lia.
  - destruct (socket_state i w); reflexivity.
  - destruct (socket_state i w) as [[] |]; try reflexivity.
    destruct msg; reflexivity.
  - destruct (0 <=? dt)%Z; reflexivity.
  - destruct (pop_due (now w) (timers w)) as [[t rest] |] eqn:Hp;
      [| reflexivity].
    destruct (callback t). apply pop_due_length in Hp.
    unfold balance, live_sockets. cbn [run_callback connect sockets timers
      set_ws set_clock].
    rewrite filter_app, length_app, Hp. cbn. lia.
  - destruct (socket_state i w) as [r |] eqn:Hs; [| reflexivity].
    destruct (socket_state_nth i r w Hs) as [s [Hn Hr]].
    destruct r; try reflexivity.
    unfold balance, live_sockets, set_readyState. rewrite Hn.
    cbn [sockets timers set_ws].
    rewrite (live_set_nth_same i _ s);
      [reflexivity | exact Hn | unfold is_live; rewrite Hr; reflexivity].
Qed.

Lemma balance_run (es : list Event) (w : World) :
  ~ In ev_DOMContentLoaded es -> balance (run es w) = balance w.
Proof.
  revert w. induction es as [| e es IH]; intros w Hes; [reflexivity |].
  unfold run in *. cbn [fold_left]. rewrite IH.
  - apply balance_step. intros ->. apply Hes. left. reflexivity.
  - intros Hin. apply Hes. right. exact Hin.
Qed.

(** X14.  Once the page has called [connect], whatever happens next the
    script holds either one socket that has not closed and no reconnect
    timer, or no such socket and exactly one timer: never two
    connections, never two reconnects under way, and never neither. *)
Theorem one_connection_or_one_reconnect
  (h : string) (d : Dom) (es : list Event) :
  ~ In ev_DOMContentLoaded es ->
  let w := run es (step ev_DOMContentLoaded (loaded h d)) in
  (live_sockets w = 1%nat /\ timers w = []) \/
  (live_sockets w = 0%nat /\ List.length (timers w) = 1%nat).
Proof.
  intros Hes w.
  assert (Hb : balance w = 1%nat).
  { subst w. rewrite (balance_run es _ Hes). reflexivity. }
  unfold balance in Hb.
  destruct (timers w) as [| t rest] eqn:Ht; cbn [List.length] in Hb.
  - left. split; [lia | reflexivity].
  - right. cbn [List.length]. split; lia.
Qed.

Lemma one_connection_or_one_reconnect_witness :
  let w := run [ev_open 0; ev_close 0; ev_toggle]
             (step ev_DOMContentLoaded (loaded "localhost" blank)) in
  live_sockets w = 0%nat /\ List.length (timers w) = 1%nat.
Proof.
  cbv zeta.
  assert (Hes : ~ In ev_DOMContentLoaded [ev_open 0; ev_close 0; ev_toggle]).
  { cbn. intros [H | [H | [H | []]]]; discriminate H. }
  destruct (one_connection_or_one_reconnect "localhost" blank _ Hes)
    as [[Hl _] | H]; [discriminate Hl | exact H].
Defined.

(** ** Colours the helpers were not written for *)

(** X15.  A colour string in which [parseInt] finds no hexadecimal digit
    (a name such as [red], or the empty string) is not refused: both
    helpers treat it as black, on doubles as in exact arithmetic. *)
Theorem unparsable_colour_is_black
  (color : string) (percent : Q) (percent64 : float) :
  ColorBlend.parseInt16 (ColorBlend.replace_hash color)
    = not_a_number ->
  ColorBlend.lightenColor color percent
    = ColorBlend.lightenColor "#000000" percent /\
  ColorBlend.darkenColor color percent
    = ColorBlend.darkenColor "#000000" percent /\
  Binary64.lightenColor color percent64
    = Binary64.lightenColor "#000000" percent64 /\
  Binary64.darkenColor color percent64
    = Binary64.darkenColor "#000000" percent64.
Proof.
  intros H. unfold ColorBlend.lightenColor, ColorBlend.darkenColor,
    Binary64.lightenColor, Binary64.darkenColor.
  rewrite H. repeat split.
Qed.

Lemma unparsable_colour_is_black_witness :
  ColorBlend.lightenColor "red" 40 = "rgb(102, 102, 102)" /\
  ColorBlend.darkenColor "red" 40 = "rgb(0, 0, 0)" /\
  Binary64.lightenColor "red" 40 = "rgb(102, 102, 102)".
Proof.
  assert (H : ColorBlend.parseInt16 (ColorBlend.replace_hash "red")
              = not_a_number)
    by reflexivity.
  destruct (unparsable_colour_is_black "red" 40 40 H) as [Hl [Hd [Hl' _]]].
  split; [rewrite Hl | split; [rewrite Hd | rewrite Hl']]; reflexivity.
Defined.

(** White space of any kind is trimmed before the digits, a no-break
    space (the bytes 194, 160) as well as a blank: the string is then
    parsed, not refused. *)
Example no_break_space_is_trimmed :
  ColorBlend.parseInt16 (String "194" (String "160" "ff"))
    = finite 255 /\
  ColorBlend.lightenColor (String "194" (String "160" "ff")) 0
    = "rgb(0, 0, 255)".
Proof. split; reflexivity. Qed.

(** Fourteen or more digits no longer fit a double: the number is
    rounded to the nearest one before the channels are cut from it. *)
Example long_colour_is_rounded :
  ColorBlend.parseInt16 "20000000000001" = finite 9007199254740992
  /\ ColorBlend.parseInt16 "20000000000003"
     = finite 9007199254740996.
Proof. split; reflexivity. Qed.

(** X16.  The three-digit shorthand is not expanded: [#abc] is read as
    the number 0xabc, so with nothing added or taken away its red
    channel is 0, its green channel the first digit and its blue channel
    the last two digits, not the channels of [#aabbcc]; on doubles as in
    exact arithmetic. *)
Theorem shorthand_is_not_expanded (c1 c2 c3 : ascii) (v1 v2 v3 : Z) :
  ColorBlend.hex_digit c1 = Some v1 -> ColorBlend.hex_digit c2 = Some v2 ->
  ColorBlend.hex_digit c3 = Some v3 ->
  let color := String "#" (String c1 (String c2 (String c3 EmptyString))) in
  ColorBlend.lightenColor color 0
    = ColorBlend.rgb 0 v1 (16 * v2 + v3) /\
  ColorBlend.darkenColor color 0
    = ColorBlend.rgb 0 v1 (16 * v2 + v3) /\
  Binary64.lightenColor color 0
    = ColorBlend.rgb 0 v1 (16 * v2 + v3) /\
  Binary64.darkenColor color 0
    = ColorBlend.rgb 0 v1 (16 * v2 + v3).
Proof.
  intros H1 H2 H3 color.
  pose proof (ColorBlendFacts.hex_digit_range _ _ H1).
  pose proof (ColorBlendFacts.hex_digit_range _ _ H2).
  pose proof (ColorBlendFacts.hex_digit_range _ _ H3).
  assert (Hnum : ColorBlend.parseInt16 (ColorBlend.replace_hash color)
                 = finite (256 * v1 + (16 * v2 + v3))%Z).
  { subst color. cbn [ColorBlend.replace_hash].
    change (Ascii.eqb "#" "#") with true. cbv iota.
    rewrite (ColorBlendFacts.parseInt16_two_digits c1 c2 v1 v2) by assumption.
    rewrite (ColorBlendFacts.hex_digits_cons c1 v1),
      (ColorBlendFacts.hex_digits_cons c2 v2),
      (ColorBlendFacts.hex_digits_cons c3 v3) by assumption.
    cbn [ColorBlend.hex_digits].
    rewrite ColorBlendFacts.double_of_Z_small by lia. f_equal. ring. }
  assert (Hch : ColorBlend.sar
                  (finite (256 * v1 + (16 * v2 + v3))%Z) 16 = 0%Z /\
                ColorBlend.band
                  (ColorBlend.sar
                     (finite (256 * v1 + (16 * v2 + v3))%Z) 8) 255
                = v1 /\
                ColorBlend.band
                  (ColorBlend.ToInt32
                     (finite (256 * v1 + (16 * v2 + v3))%Z)) 255
                = (16 * v2 + v3)%Z).
  { unfold ColorBlend.sar, ColorBlend.band.
    rewrite ColorBlendFacts.ToInt32_small by lia.
    change 255%Z with (Z.ones 8). rewrite !Z.land_ones by lia.
    rewrite !Z.shiftr_div_pow2 by lia.
    change (2 ^ 16)%Z with 65536%Z. change (2 ^ 8)%Z with 256%Z.
    repeat split; Z.div_mod_to_equations; lia. }
  destruct Hch as [HR [HG HB]].
  assert (Hzero : Math_round (2.55 * 0) = 0%Z) by reflexivity.
  assert (Hzero64 : Binary64.Math_round_Num (2.55 * 0) = finite 0)
    by reflexivity.
  unfold ColorBlend.lightenColor, ColorBlend.darkenColor,
    Binary64.lightenColor, Binary64.darkenColor.
  rewrite Hnum. cbv zeta. rewrite HR, HG, HB, Hzero, Hzero64.
  rewrite !Binary64Facts.lighten_channel, !Binary64Facts.darken_channel
    by lia.
  rewrite !Binary64Facts.rgb_whole
    by (change (2 ^ 53)%Z with 9007199254740992%Z; lia).
  rewrite !Z.add_0_r, !Z.sub_0_r.
  replace (Z.min 255 0) with 0%Z by lia.
  replace (Z.max 0 0) with 0%Z by lia.
  replace (Z.min 255 v1) with v1 by lia.
  replace (Z.min 255 (16 * v2 + v3)) with (16 * v2 + v3)%Z by lia.
  replace (Z.max 0 v1) with v1 by lia.
  replace (Z.max 0 (16 * v2 + v3)) with (16 * v2 + v3)%Z by lia.
  repeat split.
Qed.

Lemma shorthand_is_not_expanded_witness :
  ColorBlend.lightenColor "#fff" 0 = "rgb(0, 15, 255)" /\
  Binary64.lightenColor "#fff" 0 = "rgb(0, 15, 255)" /\
  ColorBlend.lightenColor "#ffffff" 0 = "rgb(255, 255, 255)".
Proof.
  assert (Hf : ColorBlend.hex_digit "f" = Some 15%Z) by reflexivity.
  destruct (shorthand_is_not_expanded "f" "f" "f" 15 15 15 Hf Hf Hf)
    as [Hl [_ [Hl' _]]].
  split; [exact Hl | split; [exact Hl' | reflexivity]].
Defined.

(** X17.  On a colour of six hexadecimal digits, a percentage of 100 or
    more lightens to white and darkens to black, and a percentage of 0
    makes the two helpers agree: both print the colour's own three
    channels. *)
Theorem blend_extremes
  (c1 c2 c3 c4 c5 c6 : ascii) (v1 v2 v3 v4 v5 v6 : Z) (percent : Q) :
  ColorBlend.hex_digit c1 = Some v1 -> ColorBlend.hex_digit c2 = Some v2 ->
  ColorBlend.hex_digit c3 = Some v3 -> ColorBlend.hex_digit c4 = Some v4 ->
  ColorBlend.hex_digit c5 = Some v5 -> ColorBlend.hex_digit c6 = Some v6 ->
  100 <= percent ->
  let color :=
    String "#" (String c1 (String c2 (String c3 (String c4 (String c5
      (String c6 EmptyString)))))) in
  ColorBlend.lightenColor color percent = "rgb(255, 255, 255)" /\
  ColorBlend.darkenColor color percent = "rgb(0, 0, 0)" /\
  ColorBlend.lightenColor color 0
    = ColorBlend.rgb (16 * v1 + v2) (16 * v3 + v4) (16 * v5 + v6) /\
  ColorBlend.darkenColor color 0 = ColorBlend.lightenColor color 0.
Proof.
  intros H1 H2 H3 H4 H5 H6 Hp color.
  pose proof (ColorBlendFacts.hex_digit_range _ _ H1).
  pose proof (ColorBlendFacts.hex_digit_range _ _ H2).
  pose proof (ColorBlendFacts.hex_digit_range _ _ H3).
  pose proof (ColorBlendFacts.hex_digit_range _ _ H4).
  pose proof (ColorBlendFacts.hex_digit_range _ _ H5).
  pose proof (ColorBlendFacts.hex_digit_range _ _ H6).
  destruct (ColorBlendFacts.parse_six_digits c1 c2 c3 c4 c5 c6
              v1 v2 v3 v4 v5 v6 H1 H2 H3 H4 H5 H6) as [_ [HR [HG HB]]].
  assert (Hamt : (255 <= Math_round (2.55 * percent))%Z).
  { unfold Math_round.
    apply (Qfloor_resp_le 255 (2.55 * percent + (1 # 2))). lra. }
  assert (Hzero : Math_round (2.55 * 0) = 0%Z) by reflexivity.
  subst color. unfold ColorBlend.lightenColor, ColorBlend.darkenColor.
  cbv zeta. rewrite HR, HG, HB, Hzero.
  set (amt := Math_round (2.55 * percent)) in *.
  rewrite !Z.add_0_r, !Z.sub_0_r.
  replace (Z.min 255 (16 * v1 + v2 + amt)) with 255%Z by lia.
  replace (Z.min 255 (16 * v3 + v4 + amt)) with 255%Z by lia.
  replace (Z.min 255 (16 * v5 + v6 + amt)) with 255%Z by lia.
  replace (Z.max 0 (16 * v1 + v2 - amt)) with 0%Z by lia.
  replace (Z.max 0 (16 * v3 + v4 - amt)) with 0%Z by lia.
  replace (Z.max 0 (16 * v5 + v6 - amt)) with 0%Z by lia.
  replace (Z.min 255 (16 * v1 + v2)) with (16 * v1 + v2)%Z by lia.
  replace (Z.min 255 (16 * v3 + v4)) with (16 * v3 + v4)%Z by lia.
  replace (Z.min 255 (16 * v5 + v6)) with (16 * v5 + v6)%Z by lia.
  replace (Z.max 0 (16 * v1 + v2)) with (16 * v1 + v2)%Z by lia.
  replace (Z.max 0 (16 * v3 + v4)) with (16 * v3 + v4)%Z by lia.
  replace (Z.max 0 (16 * v5 + v6)) with (16 * v5 + v6)%Z by lia.
  repeat split.
Qed.

Lemma blend_extremes_witness :
  ColorBlend.lightenColor "#c1440e" 100 = "rgb(255, 255, 255)" /\
  ColorBlend.darkenColor "#c1440e" 100 = "rgb(0, 0, 0)".
Proof.
  assert (Hp : 100 <= 100) by (vm_compute; discriminate).
  destruct (blend_extremes "c" "1" "4" "4" "0" "e" 12 1 4 4 0 14 100
              eq_refl eq_refl eq_refl eq_refl eq_refl eq_refl Hp)
    as [Hl [Hd _]].
  split; [exact Hl | exact Hd].
Defined.

(** ** Messages in either order *)

(** X18.  The order of two messages matters only where their views
    overlap: an [audio] message commutes with any message, and a [vad]
    message with a [status] or a [speaker] message; a [status] and a
    [speaker] message leave the same [state] in either order. *)
Theorem messages_commute (w : World) :
  (forall L msg,
     handleMessage (audio_msg L) (handleMessage msg w)
     = handleMessage msg (handleMessage (audio_msg L) w) \/
     exists L', msg = audio_msg L') /\
  (forall sp r,
     handleMessage (vad_msg sp) (handleMessage (status_msg r) w)
     = handleMessage (status_msg r) (handleMessage (vad_msg sp) w)) /\
  (forall sp v score,
     handleMessage (vad_msg sp) (handleMessage (speaker_msg v score) w)
     = handleMessage (speaker_msg v score) (handleMessage (vad_msg sp) w)) /\
  (forall r v score,
     state (handleMessage (status_msg r) (handleMessage (speaker_msg v score) w))
     = state (handleMessage (speaker_msg v score)
                (handleMessage (status_msg r) w))).
Proof.
  split.
  { intros L msg. destruct msg; try (left; reflexivity).
    right. eexists. reflexivity. }
  split.
  { intros sp r. destruct w as [h c l [r0 v0 s0 l0 p0] pl sr tr sp0 an d co
                                 n t rf].
    destruct sp, r; reflexivity. }
  split.
  { intros sp v score.
    destruct w as [h c l [r0 v0 s0 l0 p0] pl sr tr sp0 an d co n t rf].
    destruct sp, r0, v; reflexivity. }
  intros r v score. reflexivity.
Qed.

(** ** The score bar *)

(** X19.  The bar's width and the number beside it are one and the same
    string.  On doubles, for a finite score that is not negative it is
    a whole percentage that is not negative, at most 100 for a score up
    to 1; the score is not clamped, so from 1.01 on the width is above
    100%. *)
Theorem score_bar_follows_score
  (v : bool) (s : Q) (w : World) (score : float) :
  (let w' := handleMessage (speaker_msg v s) w in
   score_value_text (dom w') = score_fill_width (dom w')) /\
  (Binary64.is_finite score = true ->
   0 <= Binary64.value score ->
   Binary64.value score <= Binary64.bpow 900 ->
   exists k : Z,
     Binary64.Math_round_Num (score * 100) = finite k /\
     Binary64.score_text score = Num_toString (finite k) ++ "%" /\
     (0 <= k)%Z /\
     (Binary64.value score <= 1 -> (k <= 100)%Z) /\
     (1.01 <= Binary64.value score -> (100 < k)%Z)).
Proof.
  split; [reflexivity |].
  intros Hf H0 Hbig.
  destruct (Rounding.score_percent_range score Hf H0 Hbig)
    as [k [Hk [Hk0 [Hle Hgt]]]].
  exists k. split; [exact Hk |].
  split; [unfold Binary64.score_text; rewrite Hk; reflexivity |].
  split; [exact Hk0 |]. split; assumption.
Qed.

Lemma score_bar_follows_score_witness :
  exists k : Z,
    Binary64.Math_round_Num (0.285 * 100) = finite k /\ (0 <= k <= 100)%Z.
Proof.
  destruct (score_bar_follows_score true 0 (boot "localhost" blank) 0.285)
    as [_ H].
  destruct H as [k [Hk [_ [H0 [H1 _]]]]];
    [reflexivity | vm_compute; discriminate | vm_compute; discriminate |].
  exists k. split; [exact Hk |]. split; [exact H0 |].
  apply H1. vm_compute. discriminate.
Defined.

(** ** Colour stops *)



(** ** Reconnects and the indicator *)

(** X21.  Only a close schedules a reconnect: no other event makes the
    timer queue longer.  In particular a transport error on its own
    writes one console line and leaves the timers, the sockets, [ws] and
    the page as they are. *)
Theorem only_close_schedules (e : Event) (w : World) :
  ((exists i, e = ev_close i) \/
   (List.length (timers (step e w)) <= List.length (timers w))%nat) /\
  (forall i,
     timers (step (ev_error i) w) = timers w /\
     sockets (step (ev_error i) w) = sockets w /\
     ws (step (ev_error i) w) = ws w /\
     dom (step (ev_error i) w) = dom w /\
     (console (step (ev_error i) w) = console w \/
      console (step (ev_error i) w)
      = (console w ++ [console_error "WebSocket error:"])%list)).
Proof.
  split.
  - destruct e as [| | | i | i | i | i msg | dt | | i]; cbn [step];
      try (left; eexists; reflexivity); right.
    + apply Nat.le_refl.
    + destruct (rafPending w); apply Nat.le_refl.
    + unfold toggleAgent.
      destruct (current_socket w) as [[i s] |]; [| apply Nat.le_refl].
      destruct (is_open (readyState s)); [| apply Nat.le_refl].
      destruct (running (state w)); apply Nat.le_refl.
    + destruct (socket_state i w) as [[] |]; try apply Nat.le_refl.
      cbn. unfold set_readyState.
      destruct (nth_error (sockets w) i); apply Nat.le_refl.
    + destruct (socket_state i w); apply Nat.le_refl.
    + destruct (socket_state i w) as [[] |]; try apply Nat.le_refl.
      destruct msg; apply Nat.le_refl.
    + destruct (0 <=? dt)%Z; apply Nat.le_refl.
    + destruct (pop_due (now w) (timers w)) as [[t rest] |] eqn:Hp;
        [| apply Nat.le_refl].
      destruct (callback t). apply pop_due_length in Hp.
      cbn [run_callback connect timers set_ws set_clock]. lia.
    + destruct (socket_state i w) as [[] |]; try apply Nat.le_refl.
      unfold set_readyState.
      destruct (nth_error (sockets w) i); apply Nat.le_refl.
  - intros i. cbn [step]. destruct (socket_state i w).
    + repeat split. right. reflexivity.
    + repeat split. left. reflexivity.
Qed.

Lemma set_nth_last {A : Type} (x y : A) (front : list A) :
  set_nth (List.length front) x (front ++ [y]) = (front ++ [x])%list.
Proof. induction front as [| z front IH]; cbn; [| rewrite IH]; reflexivity. Qed.

Lemma nth_error_last {A : Type} (y : A) (front : list A) :
  nth_error (front ++ [y]) (List.length front) = Some y.
Proof.
  rewrite nth_error_app2 by apply Nat.le_refl.
  rewrite Nat.sub_diag. reflexivity.
Qed.

Lemma tracked_same (d : Dom) (w w' : World) :
  tracked d w ->
  sockets w' = sockets w -> ws w' = ws w -> timers w' = timers w ->
  connection_text_text (dom w') = connection_text_text (dom w) ->
  tracked d w'.
Proof.
  intros [front [s [Hs [Hf [Hw Hm]]]]] E1 E2 E3 E4.
  exists front, s. rewrite E1, E2, E3, E4.
  split; [exact Hs |]. split; [exact Hf |]. split; [exact Hw | exact Hm].
Qed.

(** Which socket an index names on a tracked page. *)
Lemma tracked_socket_state (d : Dom) (w : World) (i : nat) :
  tracked d w ->
  socket_state i w = Some CLOSED \/ socket_state i w = None \/
  exists front s,
    sockets w = (front ++ [s])%list /\ i = List.length front /\
    socket_state i w = Some (readyState s).
Proof.
  intros [front [s [Hs [Hf [Hw Hm]]]]]. unfold socket_state. rewrite Hs.
  destruct (Nat.lt_trichotomy i (List.length front)) as [Hlt | [Heq | Hgt]].
  - left. rewrite nth_error_app1 by exact Hlt.
    destruct (nth_error front i) as [x |] eqn:E.
    + rewrite Forall_forall in Hf. cbn. f_equal.
      apply Hf. apply nth_error_In with i. exact E.
    + apply nth_error_None in E. lia.
  - right; right. exists front, s. subst i. rewrite nth_error_last.
    split; [reflexivity |]. split; reflexivity.
  - right; left. rewrite nth_error_app2 by lia.
    destruct (i - List.length front)%nat as [| k] eqn:E; [lia |].
    cbn. destruct k; reflexivity.
Qed.

Lemma connection_text_handleMessage (msg : Message) (w : World) :
  connection_text_text (dom (handleMessage msg w))
  = connection_text_text (dom w).
Proof.
  destruct msg as [r sv sc vs | r | v sc | sp | L | t]; try reflexivity;
    cbn [handleMessage set_dom set_state dom]; destruct r; reflexivity.
Qed.

Lemma tracked_toggleAgent (d : Dom) (w : World) :
  tracked d w -> tracked d (toggleAgent w).
Proof.
  intros Hw. pose proof Hw as [front [s [Hs [Hf [Hws Hm]]]]].
  assert (Hc : current_socket w = Some (List.length front, s)).
  { unfold current_socket. rewrite Hws, Hs, nth_error_last. reflexivity. }
  unfold toggleAgent. rewrite Hc.
  destruct (is_open (readyState s)) eqn:Ho;
    [| apply (tracked_same d w); [exact Hw | reflexivity ..]].
  assert (Hsend : forall data,
            tracked d (ws_send (List.length front) s data w)).
  { intros data.
    exists front, (mkWebSocket (url s) (readyState s) (sent s ++ [data])%list).
    unfold ws_send. cbn [sockets ws timers dom set_ws readyState].
    rewrite Hs, set_nth_last.
    split; [reflexivity |]. split; [exact Hf |]. split; [exact Hws | exact Hm]. }
  destruct (running (state w)); apply Hsend.
Qed.

Lemma tracked_step (d : Dom) (e : Event) (w : World) :
  e <> ev_DOMContentLoaded -> tracked d w -> tracked d (step e w).
Proof.
  intros He Hw.
  destruct e as [| | | i | i | i | i msg | dt | | i]; cbn [step];
    try congruence.
  - destruct (rafPending w); [| exact Hw].
    apply (tracked_same d w); [exact Hw | reflexivity ..].
  - apply tracked_toggleAgent, Hw.
  - destruct (tracked_socket_state d w i Hw)
      as [E | [E | [front [s [Hs [-> E]]]]]]; rewrite E; try exact Hw.
    destruct Hw as [front' [s' [Hs' [Hf [Hws Hm]]]]].
    rewrite Hs in Hs'. apply app_inj_tail in Hs'. destruct Hs' as [<- <-].
    destruct (readyState s) eqn:Hr;
      try (exists front, s; rewrite Hr; repeat split; tauto).
    exists front, (mkWebSocket (url s) OPEN (sent s)).
    unfold ws_onopen, set_readyState. rewrite Hs, nth_error_last.
    cbn [sockets ws timers dom set_ws set_dom log set_console readyState
         updateConnectionStatus connection_text_text fst snd].
    rewrite ?Hs, set_nth_last.
    split; [reflexivity |]. split; [exact Hf |]. split; [exact Hws |].
    split; [apply Hm | reflexivity].
  - destruct (tracked_socket_state d w i Hw)
      as [E | [E | [front [s [Hs [-> E]]]]]]; rewrite E; try exact Hw.
    destruct Hw as [front' [s' [Hs' [Hf [Hws Hm]]]]].
    rewrite Hs in Hs'. apply app_inj_tail in Hs'. destruct Hs' as [<- <-].
    assert (Hclose :
              (timers w = [] ->
               tracked d (ws_onclose
                            (set_readyState (List.length front) CLOSED w)))).
    { intros Ht. exists front, (mkWebSocket (url s) CLOSED (sent s)).
      unfold ws_onclose, set_readyState. rewrite Hs, nth_error_last.
      cbn [sockets ws timers dom set_ws set_dom log set_console readyState
           setTimeout set_clock updateConnectionStatus connection_text_text
           fst snd].
      rewrite ?Hs, set_nth_last, Ht.
      split; [reflexivity |]. split; [exact Hf |]. split; [exact Hws |].
      split; reflexivity. }
    destruct (readyState s) eqn:Hr.
    + apply Hclose, Hm.
    + apply Hclose, Hm.
    + apply Hclose, Hm.
    + exists front, s. rewrite Hr. repeat split; tauto.
  - destruct (socket_state i w); [| exact Hw].
    apply (tracked_same d w); [exact Hw | reflexivity ..].
  - destruct (socket_state i w) as [[] |]; try exact Hw.
    apply (tracked_same d w);
      [ exact Hw | destruct msg; reflexivity ..
      | apply connection_text_handleMessage ].
  - destruct (0 <=? dt)%Z; [| exact Hw].
    apply (tracked_same d w); [exact Hw | reflexivity ..].
  - destruct (pop_due (now w) (timers w)) as [[t rest] |] eqn:Hp;
      [| exact Hw].
    destruct Hw as [front [s [Hs [Hf [Hws Hm]]]]].
    destruct (readyState s) eqn:Hr.
    + destruct Hm as [Ht _]. rewrite Ht in Hp. discriminate Hp.
    + destruct Hm as [Ht _]. rewrite Ht in Hp. discriminate Hp.
    + destruct Hm as [Ht _]. rewrite Ht in Hp. discriminate Hp.
    + destruct Hm as [Ht Htext]. pose proof (pop_due_length _ _ _ _ Hp) as Hl.
      assert (Hrest : rest = []).
      { destruct rest; [reflexivity |]. cbn in Hl. lia. }
      subst rest. destruct (callback t).
      exists (front ++ [s])%list, (mkWebSocket ("ws://" ++ host w ++ "/ws")
                                     CONNECTING []).
      cbn [run_callback connect sockets ws timers dom set_ws set_clock
           readyState host].
      rewrite Hs. split; [reflexivity |]. split.
      { apply Forall_app. split; [exact Hf |]. constructor; [exact Hr |].
        constructor. }
      split; [reflexivity |]. split; [reflexivity |]. right. exact Htext.
  - destruct (tracked_socket_state d w i Hw)
      as [E | [E | [front [s [Hs [-> E]]]]]]; rewrite E; try exact Hw.
    destruct Hw as [front' [s' [Hs' [Hf [Hws Hm]]]]].
    rewrite Hs in Hs'. apply app_inj_tail in Hs'. destruct Hs' as [<- <-].
    destruct (readyState s) eqn:Hr;
      try (exists front, s; rewrite Hr; repeat split; tauto).
    exists front, (mkWebSocket (url s) CLOSING (sent s)).
    unfold set_readyState. rewrite Hs, nth_error_last.
    cbn [sockets ws timers dom set_ws readyState].
    rewrite ?Hs, set_nth_last.
    split; [reflexivity |]. split; [exact Hf |]. split; [exact Hws |].
    exact Hm.
Qed.

Lemma tracked_run (d : Dom) (es : list Event) (w : World) :
  ~ In ev_DOMContentLoaded es -> tracked d w -> tracked d (run es w).
Proof.
  revert w. induction es as [| e es IH]; intros w Hes Hw; [exact Hw |].
  unfold run in *. cbn [fold_left]. apply IH.
  - intros Hin. apply Hes. right. exact Hin.
  - apply tracked_step; [| exact Hw].
    intros ->. apply Hes. left. reflexivity.
Qed.

(** X22.  On a page that called [connect] once and whose markup does not
    itself say Connected, whatever happens next the indicator reads
    Connected exactly while the socket behind [ws] is open or in its
    closing handshake.  So whenever the control would send, the
    indicator reads Connected; it reads Connected while the control
    refuses only during the handshake, before the close event.  Only the
    newest socket can be other than closed, and it is the one [ws]
    names. *)
Theorem indicator_tells_the_truth
  (h : string) (d : Dom) (es : list Event) :
  ~ In ev_DOMContentLoaded es ->
  connection_text_text d <> "Connected" ->
  let w := run es (step ev_DOMContentLoaded (loaded h d)) in
  (connection_open w = true -> connection_text_text (dom w) = "Connected") /\
  (connection_text_text (dom w) = "Connected" <->
   exists i s, current_socket w = Some (i, s) /\
               (readyState s = OPEN \/ readyState s = CLOSING)) /\
  (forall i s, nth_error (sockets w) i = Some s -> readyState s <> CLOSED ->
               ws w = Some i).
Proof.
  intros Hes Hd w.
  assert (Hw : tracked d w).
  { subst w. apply tracked_run; [exact Hes |].
    exists [], (mkWebSocket ("ws://" ++ h ++ "/ws") CONNECTING []).
    split; [reflexivity |]. split; [constructor |]. split; [reflexivity |].
    split; [reflexivity | left; reflexivity]. }
  destruct Hw as [front [s [Hs [Hf [Hws Hm]]]]].
  assert (Hc : current_socket w = Some (List.length front, s)).
  { unfold current_socket. rewrite Hws, Hs, nth_error_last. reflexivity. }
  assert (Hiff : connection_text_text (dom w) = "Connected" <->
                 (readyState s = OPEN \/ readyState s = CLOSING)).
  { destruct (readyState s).
    - split; [| intros [H | H]; discriminate H]. intros Ht.
      destruct Hm as [_ [Hm | Hm]]; rewrite Hm in Ht;
        [contradiction | discriminate Ht].
    - split; [intros _; left; reflexivity | intros _; apply Hm].
    - split; [intros _; right; reflexivity | intros _; apply Hm].
    - split; [| intros [H | H]; discriminate H]. intros Ht.
      destruct Hm as [_ Hm]. rewrite Hm in Ht. discriminate Ht. }
  split; [| split].
  - unfold connection_open. rewrite Hc. intros Ho. apply Hiff.
    destruct (readyState s); try discriminate Ho. left. reflexivity.
  - rewrite Hiff. split.
    + intros H. exists (List.length front), s. split; [exact Hc | exact H].
    + intros [i [x [Hx H]]]. rewrite Hc in Hx. injection Hx as _ <-. exact H.
  - intros i x Hn Hx. rewrite Hs in Hn. rewrite Hws. f_equal.
    destruct (Nat.lt_trichotomy i (List.length front)) as [Hlt | [Heq | Hgt]].
    + rewrite nth_error_app1 in Hn by exact Hlt.
      rewrite Forall_forall in Hf. exfalso. apply Hx, Hf.
      apply nth_error_In with i. exact Hn.
    + symmetry. exact Heq.
    + rewrite nth_error_app2 in Hn by lia.
      destruct (i - List.length front)%nat as [| k] eqn:E; [lia |].
      cbn in Hn. destruct k; discriminate Hn.
Qed.

Lemma indicator_tells_the_truth_witness :
  let w := run [ev_open 0; ev_frame; ev_closing 0]
             (step ev_DOMContentLoaded (loaded "localhost" blank)) in
  connection_open w = false /\
  connection_text_text (dom w) = "Connected" /\
  ws w = Some 0%nat.
Proof.
  cbv zeta.
  assert (Hes : ~ In ev_DOMContentLoaded [ev_open 0; ev_frame; ev_closing 0]).
  { cbn. intros [H | [H | [H | []]]]; discriminate H. }
  assert (Hd : connection_text_text blank <> "Connected") by discriminate.
  destruct (indicator_tells_the_truth "localhost" blank _ Hes Hd)
    as [_ [Hiff Hnew]].
  split; [reflexivity |]. split.
  - apply Hiff. eexists. eexists. split; [reflexivity |]. right. reflexivity.
  - apply (Hnew 0%nat (mkWebSocket "ws://localhost/ws" CLOSING []));
      [reflexivity | discriminate].
Defined.

(** ** Last message wins; what the badges may say *)

(** X23.  Within one message type only the last message counts: a second
    [status], [speaker], [vad] or [audio] message leaves the world the
    first one had never reached. *)
Theorem last_message_of_a_type_wins (w : World) :
  (forall r r',
     handleMessage (status_msg r') (handleMessage (status_msg r) w)
     = handleMessage (status_msg r') w) /\
  (forall v score v' score',
     handleMessage (speaker_msg v' score') (handleMessage (speaker_msg v score) w)
     = handleMessage (speaker_msg v' score') w) /\
  (forall sp sp',
     handleMessage (vad_msg sp') (handleMessage (vad_msg sp) w)
     = handleMessage (vad_msg sp') w) /\
  (forall L L',
     handleMessage (audio_msg L') (handleMessage (audio_msg L) w)
     = handleMessage (audio_msg L') w).
Proof.
  destruct w as [h c l [r0 v0 s0 l0 p0] pl sr tr sp0 an d co n t rf].
  split. { intros r r'. destruct r, r'; reflexivity. }
  split. { intros v score v' score'. destruct r0, v, v'; reflexivity. }
  split. { intros sp sp'. destruct sp, sp'; reflexivity. }
  intros L L'. reflexivity.
Qed.

(** X24.  A refresh of the speaker badge says Verified only for an agent
    that is running and a speaker that is verified, and a refresh of the
    agent badge says Online only for a running agent; on a page in line
    with [state] the badges therefore say so exactly then. *)
Theorem badges_say_what_state_says (w : World) :
  in_sync w ->
  (badge_text_text (dom w) = "Verified"
   <-> running (state w) = true /\ speakerVerified (state w) = true) /\
  (badge_text_text (dom w) = "Waiting..." <-> running (state w) = false) /\
  (agent_status_text (dom w) = "Online" <-> running (state w) = true) /\
  (vad_text_text (dom w) = "Speaking..." <-> vadSpeaking (state w) = true).
Proof.
  unfold in_sync. intros H. rewrite <- H.
  destruct (state w) as [r v s l p].
  cbn [running speakerVerified vadSpeaking].
  destruct r, v, p; cbn; repeat split; intros; try discriminate;
    try reflexivity;
    match goal with
    | [ Hc : _ /\ _ |- _ ] => destruct Hc; discriminate
    end.
Qed.

Lemma badges_say_what_state_says_witness :
  let w := handleMessage (state_msg true true 0.87 false)
             (boot "localhost" blank) in
  in_sync w /\ badge_text_text (dom w) = "Verified".
Proof.
  cbv zeta.
  assert (H : in_sync (handleMessage (state_msg true true 0.87 false)
                         (boot "localhost" blank))) by reflexivity.
  split; [exact H |].
  destruct (badges_say_what_state_says _ H) as [[_ Hv] _].
  apply Hv. split; reflexivity.
Defined.

(** ** The leading [#] *)

Lemma replace_hash_none (s : string) :
  has_hash s = false -> ColorBlend.replace_hash s = s.
Proof.
  induction s as [| c rest IH]; cbn; [reflexivity |].
  destruct (Ascii.eqb c "#"); cbn; [discriminate |].
  intros H. rewrite (IH H). reflexivity.
Qed.

(** X25.  The leading [#] is optional: a colour that contains no [#]
    gives the same result with one put in front of it. *)
Theorem leading_hash_is_optional (s : string) (percent : Q) :
  has_hash s = false ->
  ColorBlend.lightenColor (String "#" s) percent
    = ColorBlend.lightenColor s percent /\
  ColorBlend.darkenColor (String "#" s) percent
    = ColorBlend.darkenColor s percent.
Proof.
  intros H. unfold ColorBlend.lightenColor, ColorBlend.darkenColor.
  rewrite (replace_hash_none s H).
  change (ColorBlend.replace_hash (String "#" s)) with s.
  split; reflexivity.
Qed.

Lemma leading_hash_is_optional_witness :
  ColorBlend.lightenColor "#6b93d6" 40 = ColorBlend.lightenColor "6b93d6" 40.
Proof.
  destruct (leading_hash_is_optional "6b93d6" 40 eq_refl) as [H _]. exact H.
Defined.
